(** * Regulatory attribution engine of the eCFR analyzer (app.py)

    A shallow embedding of the parts of [app.py] that carry data-model and
    algorithmic content: the agency/title ownership index, the content
    retrieval layer with its session cache, the word counter, the
    proportional attribution step and the three aggregation shapes
    (snapshot, time series, composition).

    Modelling conventions.
    - Python [dict]s keep insertion order, so they are association lists
      that are updated in place ([PyDict.set]); a Python [set] is a
      duplicate-free list (its iteration order is an implementation detail,
      statements about sets only speak about membership).
    - JSON scalars used as title numbers are [pyval]s: an [int] never equals
      a [str] in Python, and the code mixes both ([str(t["number"])]).
    - [st.session_state] is split by key family into typed stores.
    - A Python [float] is a binary64 number ([spec_float] with 53 bits of
      precision): the composition percentages and the attribution of
      [Binary64] are computed as the code computes them.  The tables of the
      snapshot and of the time series are built over the same attribution
      loop read in exact arithmetic ([count_per_agency], [credit]); what
      is stated about them (keys, rows, order, sign) does not depend on a
      rounded value.
    - A Python [str] is a sequence of Unicode code points, held as its
      UTF-8 encoding and decoded by [code_points] where characters matter.
    - The network is an oracle indexed by the number of requests issued so
      far; every request is logged in the world. *)

From Stdlib Require Import ZArith QArith Qround Qabs Lqa String Ascii List.
From Stdlib Require Import DecimalString DecimalPos DecimalZ Lia.
From Stdlib Require Import SpecFloat.
From stdpp Require Import base decidable option list gmap strings sorting.

Set Warnings "-register-all".

Local Open Scope string_scope.
Local Open Scope list_scope.
Local Open Scope Z_scope.

(** ** Python values and insertion-ordered dictionaries *)

Inductive pyval : Type :=
  | PInt (z : Z)
  | PStr (s : string).

#[global] Instance pyval_eq_dec : EqDecision pyval.
Proof. solve_decision. Defined.

(** [str(n)] for an integer [n]. *)
Definition str_of_int (z : Z) : string := NilZero.string_of_int (Z.to_int z).

(** Python's [str(v)]. *)
Definition py_str (v : pyval) : string :=
  match v with
  | PInt z => str_of_int z
  | PStr s => s
  end.

Module PyDict.
Section Defs.
Context {K V : Type} `{EqDecision K}.

(** [d.get(k)] *)
Fixpoint get (d : list (K * V)) (k : K) : option V :=
  match d with
  | [] => None
  | (k', v) :: d' => if decide (k = k') then Some v else get d' k
  end.

(** [d[k] = v]: overwrite in place, or append a new entry. *)
Fixpoint set (d : list (K * V)) (k : K) (v : V) : list (K * V) :=
  match d with
  | [] => [(k, v)]
  | (k', v') :: d' =>
      if decide (k = k') then (k', v) :: d' else (k', v') :: set d' k v
  end.

(** [d[k] = f(d[k])] on a [defaultdict] whose factory yields [dflt]. *)
Definition update (dflt : V) (f : V -> V) (d : list (K * V)) (k : K)
  : list (K * V) :=
  set d k (f (default dflt (get d k))).

Definition keys (d : list (K * V)) : list K := map fst d.
Definition values (d : list (K * V)) : list V := map snd d.
End Defs.
End PyDict.

(** [s.add(x)] on a set kept as a duplicate-free list. *)
Definition set_add {A} `{EqDecision A} (x : A) (s : list A) : list A :=
  if decide (x ∈ s) then s else s ++ [x].

(** ** Data model: agencies and titles *)

(** One entry of an agency's ["cfr_references"]; [ref_title] is [None] when
    the entry has no ["title"] key. *)
Record cfr_reference : Type := { ref_title : option pyval }.

(** An agency record; an absent ["cfr_references"] or ["children"] key is
    the empty list (both are skipped by the code in the same way). *)
Inductive agency : Type :=
  Agency {
    name : string;
    slug : string;
    cfr_references : list cfr_reference;
    children : list agency
  }.

(** ISO calendar dates as [datetime.strptime(_, "%Y-%m-%d")] reads them. *)
Record date : Type := { year : Z; month : Z; day : Z }.

Record title_info : Type := {
  number : pyval;
  title_name : string;
  latest_amended_on : date;
  reserved : bool
}.

(** ** Agency hierarchy index *)

(** The inner loop [for ref in agency["cfr_references"]: if "title" in ref:
    agency_to_titles[agency_name].add(ref["title"])]. *)
Definition add_references (nm : string) (refs : list cfr_reference)
    (m : list (string * list pyval)) : list (string * list pyval) :=
  fold_left
    (fun m ref =>
       match ref_title ref with
       | Some t => PyDict.update [] (set_add t) m nm
       | None => m
       end)
    refs m.

(** [create_agency_title_mapping]: every top-level agency, then each of its
    direct children; nothing below that level is visited. *)
Definition create_agency_title_mapping (agencies : list agency)
    : list (string * list pyval) :=
  fold_left
    (fun m a =>
       let m1 := add_references (name a) (cfr_references a) m in
       fold_left
         (fun m c => add_references (name c) (cfr_references c) m)
         (children a) m1)
    agencies [].

(** The reverse mapping built after every call of the function above:
    [for agency, titles in agency_to_titles.items(): for title in titles:
    title_to_agencies[title].append(agency)]. *)
Definition title_to_agencies (agency_to_titles : list (string * list pyval))
    : list (pyval * list string) :=
  fold_left
    (fun m '(ag, titles) =>
       fold_left (fun m t => PyDict.update [] (fun l => l ++ [ag]) m t) titles m)
    agency_to_titles [].

(** The agencies whose title set holds [t], in the order of the forward
    map: what the reverse mapping stores for [t]
    ([title_to_agencies_owners]). *)
Definition owners_of (agency_to_titles : list (string * list pyval))
    (t : pyval) : list string :=
  map fst (filter (λ entry : string * list pyval, t ∈ entry.2) agency_to_titles).

(** A forward map as a [defaultdict(set)] is: no key twice, no title twice
    in a set. *)
Definition index_wf (m : list (string * list pyval)) : Prop :=
  NoDup (PyDict.keys m) ∧ ∀ k v, PyDict.get m k = Some v → NoDup v.

(** ** Attribution *)

(** [word_count / len(agencies_for_title)], read in exact arithmetic
    ([Binary64.count_per_agency] is the float the code computes). *)
Definition count_per_agency (word_count : nat) (owners : list string) : Q :=
  (inject_Z (Z.of_nat word_count) / inject_Z (Z.of_nat (length owners)))%Q.

(** [for agency in agencies_for_title: agency_word_counts[agency] += x] on
    the [defaultdict(int)] of running totals, read in exact arithmetic
    ([Binary64.credit] adds floats). *)
Definition credit (x : Q) (owners : list string) (acc : list (string * Q))
    : list (string * Q) :=
  fold_left
    (fun acc ag => PyDict.update 0%Q (fun v => (v + x)%Q) acc ag) owners acc.

(** One iteration of [for title, word_count in title_word_counts.items()]:
    [agencies_for_title = title_to_agencies.get(title, [])], nothing is
    done when it is empty. *)
Definition attribute_title (idx : list (pyval * list string))
    (acc : list (string * Q)) (item : pyval * nat) : list (string * Q) :=
  let owners := default [] (PyDict.get idx item.1) in
  match owners with
  | [] => acc
  | _ :: _ => credit (count_per_agency item.2 owners) owners acc
  end.

(** The attribution loop shared by the snapshot and the time series. *)
Definition agency_word_counts (title_word_counts : list (pyval * nat))
    (idx : list (pyval * list string)) : list (string * Q) :=
  fold_left (attribute_title idx) title_word_counts [].

Definition Qsum (l : list Q) : Q := fold_right Qplus 0%Q l.


(** ** Word counter *)

(** What a Python call does: it returns a value or raises. *)
Inductive outcome (A : Type) : Type :=
  | Returned (a : A)
  | Raised (msg : string).
Arguments Returned {A} a.
Arguments Raised {A} msg.

(** [try: body except Exception: handler] *)
Definition try_except {A} (body : outcome A) (handler : string -> outcome A)
    : outcome A :=
  match body with
  | Returned a => Returned a
  | Raised msg => handler msg
  end.

#[global] Instance outcome_ret : MRet outcome := fun A a => Returned a.

#[global] Instance outcome_bind : MBind outcome := fun A B f x =>
  match x with
  | Returned a => f a
  | Raised msg => Raised msg
  end.

(** The library calls the engine relies on: the text extraction of
    BeautifulSoup, the Unicode character database that [re] consults for
    [\w] ([unicode_alnum c] is [chr(c).isalnum()], asked for code points
    outside ASCII only) and Python's rendering of a float in an
    f-string. *)
Record library : Type := {
  soup_get_text : string -> outcome string;
  unicode_alnum : N -> bool;
  float_repr : Q -> string
}.

(** A Python [str] is a sequence of Unicode code points.  The model holds
    a text as the bytes of its UTF-8 encoding (what a string literal of
    this file is), and [code_points] reads the code points off them:
    [pending] is the value read so far of a character that spans several
    bytes, with the number of bytes still to come after the next one.  A
    byte sequence that is not UTF-8 encodes no [str]; every offending byte
    reads as U+FFFD there. *)
Definition replacement_char : N := 65533.

Fixpoint code_points_from (pending : option (N * nat)) (s : string)
    : list N :=
  match s with
  | EmptyString =>
      match pending with Some _ => [replacement_char] | None => [] end
  | String c rest =>
      let b := N_of_ascii c in
      match pending, ((128 <=? b) && (b <? 192))%N with
      | Some (v, O), true =>
          (v * 64 + (b - 128))%N :: code_points_from None rest
      | Some (v, S k), true =>
          code_points_from (Some ((v * 64 + (b - 128))%N, k)) rest
      | None, true => replacement_char :: code_points_from None rest
      | _, false =>
          match pending with Some _ => [replacement_char] | None => [] end
          ++ (if (b <? 128)%N then b :: code_points_from None rest
              else if ((192 <=? b) && (b <? 224))%N
              then code_points_from (Some ((b - 192)%N, 0%nat)) rest
              else if ((224 <=? b) && (b <? 240))%N
              then code_points_from (Some ((b - 224)%N, 1%nat)) rest
              else if ((240 <=? b) && (b <? 248))%N
              then code_points_from (Some ((b - 240)%N, 2%nat)) rest
              else replacement_char :: code_points_from None rest)
      end
  end.

Definition code_points (s : string) : list N := code_points_from None s.

(** The UTF-8 encoding of a sequence of code points. *)
Definition utf8_bytes (c : N) : list N :=
  (if c <? 128 then [c]
   else if c <? 2048 then [192 + c / 64; 128 + c mod 64]
   else if c <? 65536
   then [224 + c / 4096; 128 + (c / 64) mod 64; 128 + c mod 64]
   else [240 + c / 262144; 128 + (c / 4096) mod 64; 128 + (c / 64) mod 64;
         128 + c mod 64])%N.

Definition utf8_encode (l : list N) : string :=
  string_of_list_ascii (map ascii_of_N (flat_map utf8_bytes l)).

(** [\w] of a [str] pattern: the Unicode alphanumerics and the underscore.
    Within ASCII these are the letters, the digits and the underscore;
    beyond, the character database decides. *)
Definition is_word_char (lib : library) (c : N) : bool :=
  (if c <? 128
   then (48 <=? c) && (c <=? 57) || (65 <=? c) && (c <=? 90)
        || (97 <=? c) && (c <=? 122) || (c =? 95)
   else unicode_alnum lib c)%N.

(** [re.findall(r'\b\w+\b', text)]: the scan keeps the word run it is in;
    a match starts at a boundary, [\w+] is greedy and the closing [\b]
    holds exactly at the end of the run, so the matches are the maximal
    runs of word characters, left to right. *)
Fixpoint findall_words_from (lib : library) (cur : list N) (text : list N)
    : list (list N) :=
  match text with
  | [] => match cur with [] => [] | _ :: _ => [cur] end
  | c :: rest =>
      if is_word_char lib c then findall_words_from lib (cur ++ [c]) rest
      else
        match cur with
        | [] => findall_words_from lib [] rest
        | _ :: _ => cur :: findall_words_from lib [] rest
        end
  end.

Definition findall_words (lib : library) (text : list N) : list (list N) :=
  findall_words_from lib [] text.

(** [re.sub(r'<[^>]+>', ' ', s)], with [<] = 60, [>] = 62 and the space
    = 32.  [pending] holds the characters read since an unmatched [<]: the
    match closes at the first [>] provided at least one character lies
    between; [<>] and a [<] that is never closed are kept verbatim. *)
Fixpoint sub_tags_from (pending : option (list N)) (s : list N) : list N :=
  match s, pending with
  | [], None => []
  | [], Some buf => 60%N :: buf
  | c :: rest, None =>
      if decide (c = 60%N) then sub_tags_from (Some []) rest
      else c :: sub_tags_from None rest
  | c :: rest, Some buf =>
      if decide (c = 62%N) then
        match buf with
        | [] => 60%N :: 62%N :: sub_tags_from None rest
        | _ :: _ => 32%N :: sub_tags_from None rest
        end
      else sub_tags_from (Some (buf ++ [c])) rest
  end.

Definition sub_tags (s : list N) : list N := sub_tags_from None s.

(** [count_words_in_xml].  [soup_get_text lib s] stands for
    [BeautifulSoup(s, 'lxml-xml').get_text()], a library call that returns
    the text or raises. *)
Definition count_words_in_xml (lib : library) (xml_content : option string)
    : outcome nat :=
  match xml_content with
  | None => Returned 0%nat
  | Some EmptyString => Returned 0%nat
  | Some s =>
      try_except
        (text ← soup_get_text lib s;
         Returned (length (findall_words lib (code_points text))))
        (fun _ =>
           Returned (length (findall_words lib (sub_tags (code_points s)))))
  end.


(** ** Retrieval layer *)

(** The global configuration ([request_timeout], [skip_problematic_titles],
    [throttle_delay], [cache_results]) set from the sidebar. *)
Record config : Type := {
  request_timeout : Z;
  skip_problematic_titles : bool;
  throttle_delay : Q;
  cache_results : bool
}.

(** What [requests.get] does: a response with a status code and a body, a
    [requests.exceptions.Timeout], or any other exception. *)
Inductive response (A : Type) : Type :=
  | Response (status_code : Z) (body : A)
  | TimeoutExc
  | OtherExc (msg : string).
Arguments Response {A} status_code body.
Arguments TimeoutExc {A}.
Arguments OtherExc {A} msg.

(** The content store.  The first argument of each call is the number of
    requests issued before it, so answers may change over time; the last
    one is the timeout passed to [requests.get]. *)
Record network : Type := {
  get_agencies_json : nat -> Z -> response (list agency);
  get_titles_json : nat -> Z -> response (list title_info);
  get_title_xml : nat -> string -> Z -> response string
}.

(** The part of [st.session_state] the retrieval layer uses, and the log
    of the URLs requested so far (oldest first). *)
Record world : Type := {
  content_cache : gmap string string;
  agencies_cache : option (list agency);
  titles_cache : option (list title_info);
  requests : list string
}.

Definition empty_world : world :=
  {| content_cache := ∅; agencies_cache := None; titles_cache := None;
     requests := [] |}.

Definition BASE_URL : string := "https://www.ecfr.gov".

Definition log_request (url : string) (w : world) : world :=
  {| content_cache := content_cache w; agencies_cache := agencies_cache w;
     titles_cache := titles_cache w; requests := requests w ++ [url] |}.

Definition store_content (key content : string) (w : world) : world :=
  {| content_cache := <[key := content]> (content_cache w);
     agencies_cache := agencies_cache w; titles_cache := titles_cache w;
     requests := requests w |}.

Definition store_agencies (agencies : list agency) (w : world) : world :=
  {| content_cache := content_cache w; agencies_cache := Some agencies;
     titles_cache := titles_cache w; requests := requests w |}.

Definition store_titles (titles : list title_info) (w : world) : world :=
  {| content_cache := content_cache w; agencies_cache := agencies_cache w;
     titles_cache := Some titles; requests := requests w |}.

(** The guard [not force_refresh and cache_results and key in
    st.session_state] of the three retrieval functions. *)
Definition cached {A} (cfg : config) (force_refresh : bool)
    (entry : option A) : option A :=
  if negb force_refresh && cache_results cfg then entry else None.

(** [get_agencies(force_refresh)] *)
Definition get_agencies (cfg : config) (net : network) (force_refresh : bool)
    (w : world) : list agency * world :=
  match cached cfg force_refresh (agencies_cache w) with
  | Some agencies => (agencies, w)
  | None =>
      let url := BASE_URL +:+ "/api/admin/v1/agencies.json" in
      let w1 := log_request url w in
      match get_agencies_json net (length (requests w)) (request_timeout cfg) with
      | Response status agencies =>
          if status =? 200 then
            (agencies,
             if cache_results cfg then store_agencies agencies w1 else w1)
          else ([], w1)
      | TimeoutExc => ([], w1)
      | OtherExc _ => ([], w1)
      end
  end.

(** [get_titles(force_refresh)] *)
Definition get_titles (cfg : config) (net : network) (force_refresh : bool)
    (w : world) : list title_info * world :=
  match cached cfg force_refresh (titles_cache w) with
  | Some titles => (titles, w)
  | None =>
      let url := BASE_URL +:+ "/api/versioner/v1/titles.json" in
      let w1 := log_request url w in
      match get_titles_json net (length (requests w)) (request_timeout cfg) with
      | Response status titles =>
          if status =? 200 then
            (titles, if cache_results cfg then store_titles titles w1 else w1)
          else ([], w1)
      | TimeoutExc => ([], w1)
      | OtherExc _ => ([], w1)
      end
  end.

(** The titles [get_title_content] refuses to request when
    [skip_problematic_titles] is set. *)
Definition skip_list : list pyval := [PInt 7; PInt 10; PInt 40; PInt 42; PInt 45].

(** [f"title_content_{title_number}_{date}"] *)
Definition title_cache_key (title_number : pyval) (d : string) : string :=
  "title_content_" +:+ py_str title_number +:+ "_" +:+ d.

(** [f"{BASE_URL}/api/versioner/v1/full/{date}/title-{title_number}.xml"] *)
Definition title_url (title_number : pyval) (d : string) : string :=
  BASE_URL +:+ "/api/versioner/v1/full/" +:+ d +:+ "/title-"
  +:+ py_str title_number +:+ ".xml".

(** The loop [while retries <= max_retries] of [get_title_content].  Every
    iteration that does not return increments [retries], so
    [max_retries + 1 - retries] iterations suffice; [fuel] only makes the
    recursion structural (see [fetch_loop_fuel]).  Leaving the loop
    returns [None]. *)
Fixpoint fetch_loop (fuel : nat) (cfg : config) (net : network)
    (url key : string) (max_retries retries : Z) (w : world)
    : option string * world :=
  match fuel with
  | O => (None, w)
  | S fuel' =>
      if retries <=? max_retries then
        let w1 := log_request url w in
        let retry :=
          if retries + 1 <=? max_retries
          then fetch_loop fuel' cfg net url key max_retries (retries + 1) w1
          else (None, w1) in
        match get_title_xml net (length (requests w)) url (request_timeout cfg) with
        | Response status content =>
            if status =? 200 then
              (Some content,
               if cache_results cfg then store_content key content w1 else w1)
            else if status =? 504 then retry
            else if status =? 404 then (None, w1)
            else (None, w1)
        | TimeoutExc => retry
        | OtherExc _ => (None, w1)
        end
      else (None, w)
  end.

(** [get_title_content(title_number, date, max_retries, force_refresh)] *)
Definition get_title_content (cfg : config) (net : network)
    (title_number : pyval) (d : string) (max_retries : Z)
    (force_refresh : bool) (w : world) : option string * world :=
  let key := title_cache_key title_number d in
  match cached cfg force_refresh (content_cache w !! key) with
  | Some content => (Some content, w)
  | None =>
      if skip_problematic_titles cfg && bool_decide (title_number ∈ skip_list)
      then (None, w)
      else
        fetch_loop (Z.to_nat (max_retries + 1)) cfg net
          (title_url title_number d) key max_retries 0 w
  end.

(** ** Processing the titles of one run *)

Definition date_lt (a b : date) : bool :=
  (year a <? year b)
  || (year a =? year b)
     && ((month a <? month b) || (month a =? month b) && (day a <? day b)).

Definition pad2 (n : Z) : string :=
  if n <? 10 then "0" +:+ str_of_int n else str_of_int n.

(** ["%Y-%m-%d"] *)
Definition date_str (d : date) : string :=
  str_of_int (year d) +:+ "-" +:+ pad2 (month d) +:+ "-" +:+ pad2 (day d).

(** [use_date]: the target date, or the title's latest amendment date when
    that one is strictly earlier. *)
Definition use_date (target : date) (t : title_info) : date :=
  if date_lt (latest_amended_on t) target then latest_amended_on t else target.

(** One call of [get_title_content] made by a run, with its result; the
    list of these calls is a ghost record of the run. *)
Record fetch_call : Type := {
  fc_title : title_info;
  fc_date : string;
  fc_result : option string
}.

Record run : Type := {
  run_world : world;
  title_word_counts : list (pyval * nat);
  title_fetch_errors : list (pyval * string);
  calls : list fetch_call
}.

Definition start_run (w : world) : run :=
  {| run_world := w; title_word_counts := []; title_fetch_errors := [];
     calls := [] |}.

(** The call [get_title_content(title_number, use_date, ...)] of a loop
    body, recorded in [calls]. *)
Definition fetch_title (cfg : config) (net : network) (force_refresh : bool)
    (target : date) (t : title_info) (r : run) : option string * run :=
  let d := date_str (use_date target t) in
  let res := get_title_content cfg net (number t) d 1 force_refresh (run_world r) in
  (res.1,
   {| run_world := res.2;
      title_word_counts := title_word_counts r;
      title_fetch_errors := title_fetch_errors r;
      calls := calls r ++ [{| fc_title := t; fc_date := d; fc_result := res.1 |}] |}).

Definition set_word_count (n : pyval) (wc : nat) (r : run) : run :=
  {| run_world := run_world r;
     title_word_counts := PyDict.set (title_word_counts r) n wc;
     title_fetch_errors := title_fetch_errors r;
     calls := calls r |}.

Definition set_fetch_error (n : pyval) (msg : string) (r : run) : run :=
  {| run_world := run_world r;
     title_word_counts := title_word_counts r;
     title_fetch_errors := PyDict.set (title_fetch_errors r) n msg;
     calls := calls r |}.

(** Python truthiness of [title_content]: neither [None] nor empty. *)
Definition truthy (content : option string) : bool :=
  match content with
  | Some (String _ _) => true
  | _ => false
  end.

(** The loop body shared by the snapshot and the time series: reserved
    titles are skipped first; an exception of the word counter leaves the
    loop. *)
Definition process_title (lib : library) (cfg : config) (net : network)
    (force_refresh : bool) (target : date) (r : run) (t : title_info)
    : outcome run :=
  if reserved t then Returned r
  else
    let '(content, r1) := fetch_title cfg net force_refresh target t r in
    if truthy content then
      wc ← count_words_in_xml lib content;
      Returned (set_word_count (number t) wc r1)
    else Returned r1.

(** The loop body of the composition: the fetch and the count sit in a
    [try]; a falsy content and an exception are both recorded in
    [title_fetch_errors]. *)
Definition process_title_composition (lib : library) (cfg : config)
    (net : network) (target : date) (r : run) (t : title_info) : run :=
  if reserved t then r
  else
    let '(content, r1) :=
      fetch_title cfg net (negb (cache_results cfg)) target t r in
    if truthy content then
      match count_words_in_xml lib content with
      | Returned wc => set_word_count (number t) wc r1
      | Raised msg => set_fetch_error (number t) msg r1
      end
    else set_fetch_error (number t) "No content received" r1.

(** [for x in l: s = body(s, x)] where the body may raise. *)
Fixpoint for_each {A S} (body : S -> A -> outcome S) (l : list A) (s : S)
    : outcome S :=
  match l with
  | [] => Returned s
  | x :: l' => s' ← body s x; for_each body l' s'
  end.

(** [titles_info[:process_size]] with
    [process_size = min(max_titles, len(titles_info))]; the slider keeps
    [max_titles] at 1 or more. *)
Definition capped (max_titles : nat) (titles_info : list title_info)
    : list title_info :=
  take (Nat.min max_titles (length titles_info)) titles_info.

(** The title loop of the snapshot (tab 1). *)
Definition snapshot_word_counts (lib : library) (cfg : config) (net : network)
    (target : date) (max_titles : nat) (titles_info : list title_info)
    (w : world) : outcome run :=
  for_each (process_title lib cfg net (negb (cache_results cfg)) target)
    (capped max_titles titles_info) (start_run w).

(** One year of [calculate_word_counts_over_time]: the title loop with
    [target_date = f"{year}-01-01"] and the default [force_refresh]. *)
Definition year_word_counts (lib : library) (cfg : config) (net : network)
    (yr : Z) (max_titles : nat) (titles_info : list title_info)
    (w : world) : outcome run :=
  for_each
    (process_title lib cfg net false {| year := yr; month := 1; day := 1 |})
    (capped max_titles titles_info) (start_run w).

(** The loop [for year in years] of [calculate_word_counts_over_time]:
    each year is computed from scratch and stored under [year]; the world
    and the ghost calls are threaded through the years. *)
Fixpoint over_years (lib : library) (cfg : config) (net : network)
    (idx : list (pyval * list string)) (titles_info : list title_info)
    (max_titles : nat) (years : list Z)
    (word_counts_by_year : list (Z * list (string * Q)))
    (cs : list fetch_call) (w : world)
    : outcome (list (Z * list (string * Q)) * list fetch_call * world) :=
  match years with
  | [] => Returned (word_counts_by_year, cs, w)
  | yr :: years' =>
      r ← year_word_counts lib cfg net yr max_titles titles_info w;
      over_years lib cfg net idx titles_info max_titles years'
        (PyDict.set word_counts_by_year yr
           (agency_word_counts (title_word_counts r) idx))
        (cs ++ calls r) (run_world r)
  end.

(** [calculate_word_counts_over_time(agencies, titles_info, years,
    max_titles, throttle_delay)] *)
Definition calculate_word_counts_over_time (lib : library) (cfg : config)
    (net : network) (agencies : list agency) (titles_info : list title_info)
    (years : list Z) (max_titles : nat) (w : world)
    : outcome (list (Z * list (string * Q)) * list fetch_call * world) :=
  over_years lib cfg net
    (title_to_agencies (create_agency_title_mapping agencies))
    titles_info max_titles years [] [] w.

(** ** Python floats *)

(** A Python [float] is an IEEE 754 binary64 number: a [spec_float] with
    53 bits of precision and exponents below 1024.  Every operation
    returns the float nearest to the exact result, ties going to the even
    mantissa. *)
Definition float : Type := spec_float.

Definition float_zero : float := S754_zero false.

(** [x + y] and [x * y] *)
Definition float_add (x y : float) : float := SFadd 53 1024 x y.
Definition float_mul (x y : float) : float := SFmul 53 1024 x y.

(** [float(z)], the conversion an [int] operand undergoes next to a
    [float]. *)
Definition float_of_int (z : Z) : float := binary_normalize 53 1024 z 0 false.

(** [a / b] on two [int]s: the float nearest to the exact quotient.  A
    zero divisor raises [ZeroDivisionError]; every division of the code is
    guarded against it, and the NaN given here is never used.  The
    operands of the code are lengths and word counts, far below the sizes
    at which the quotient overflows. *)
Definition int_true_div (a b : Z) : float :=
  match a, b with
  | _, Z0 => S754_nan
  | Z0, Zpos _ => S754_zero false
  | Z0, Zneg _ => S754_zero true
  | Zpos m, Zpos n =>
      SFdiv 53 1024 (S754_finite false m 0) (S754_finite false n 0)
  | Zpos m, Zneg n =>
      SFdiv 53 1024 (S754_finite false m 0) (S754_finite true n 0)
  | Zneg m, Zpos n =>
      SFdiv 53 1024 (S754_finite true m 0) (S754_finite false n 0)
  | Zneg m, Zneg n =>
      SFdiv 53 1024 (S754_finite true m 0) (S754_finite true n 0)
  end.

Definition float_is_nan (x : float) : bool :=
  match x with S754_nan => true | _ => false end.


(** The rational a finite float stands for. *)
Definition float_value (x : float) : Q :=
  match x with
  | S754_finite s m e =>
      let v :=
        match e with
        | Zneg k => Qmake (Zpos m) (2 ^ k)%positive
        | _ => inject_Z (Zpos m * 2 ^ e)
        end in
      if s then Qopp v else v
  | _ => 0%Q
  end.

(** [round(x, 2)]: the decimal with two places nearest to the exact value
    of [x], ties going to the even last digit, read back as the float
    nearest to that decimal; infinities and NaN are returned as they
    are. *)
Definition round2 (x : float) : float :=
  match x with
  | S754_finite s _ _ =>
      let y := (float_value x * 100)%Q in
      let f := Qfloor y in
      let r :=
        match (y - inject_Z f ?= 1 # 2)%Q with
        | Lt => f
        | Gt => f + 1
        | Eq => if Z.even f then f else f + 1
        end in
      if r =? 0 then S754_zero s else int_true_div r 100
  | _ => x
  end.

(** ** Attribution in binary64 *)

(** The attribution step with the arithmetic of the code: the share of a
    title is the float [word_count / len(agencies_for_title)] and the
    running totals are floats.  (The definitions of the same names above
    read [/] and [+] as exact; they carry the statements that do not
    depend on the values of the totals.) *)
Module Binary64.

(** [word_count / len(agencies_for_title)] *)
Definition count_per_agency (word_count : nat) (owners : list string)
    : float :=
  int_true_div (Z.of_nat word_count) (Z.of_nat (length owners)).

(** [for agency in agencies_for_title: agency_word_counts[agency] += x] on
    the [defaultdict(int)] of running totals: a missing key starts from
    the [int] 0, which is converted to 0.0 by the addition. *)
Definition credit (x : float) (owners : list string)
    (acc : list (string * float)) : list (string * float) :=
  fold_left
    (fun acc ag => PyDict.update float_zero (fun v => float_add v x) acc ag)
    owners acc.

(** One iteration of [for title, word_count in title_word_counts.items()]:
    [agencies_for_title = title_to_agencies.get(title, [])], nothing is
    done when it is empty. *)
Definition attribute_title (idx : list (pyval * list string))
    (acc : list (string * float)) (item : pyval * nat)
    : list (string * float) :=
  let owners := default [] (PyDict.get idx item.1) in
  match owners with
  | [] => acc
  | _ :: _ => credit (count_per_agency item.2 owners) owners acc
  end.

(** The attribution loop shared by the snapshot and the time series. *)
Definition agency_word_counts (title_word_counts : list (pyval * nat))
    (idx : list (pyval * list string)) : list (string * float) :=
  fold_left (attribute_title idx) title_word_counts [].

(** An agency's running total (0 when it has no entry yet). *)
Definition total_of (acc : list (string * float)) (ag : string) : float :=
  default float_zero (PyDict.get acc ag).






End Binary64.

(** ** Composition of one agency (tab 5) *)

(** The body of [for title_num in titles_for_agency]: [title_match] is the
    first catalog title with [str(t["number"]) == str(title_num)], appended
    when there is one. *)
Definition append_title_match (titles_info : list title_info)
    (acc : list title_info) (title_num : pyval) : list title_info :=
  match
    list_find (fun t => py_str (number t) = py_str title_num) titles_info
  with
  | Some (_, title_match) => acc ++ [title_match]
  | None => acc
  end.

(** [relevant_titles]: the catalog titles whose number, as text, is in the
    agency's set; when there is none, for every owned reference the first
    catalog title with the same text; when there is still none, the first
    ten titles of the catalog. *)
Definition relevant_titles (titles_info : list title_info)
    (titles_for_agency : list pyval) : list title_info :=
  let by_membership :=
    filter (fun t => PStr (py_str (number t)) ∈ titles_for_agency) titles_info in
  let by_text :=
    match by_membership with
    | [] => fold_left (append_title_match titles_info) titles_for_agency []
    | _ :: _ => by_membership
    end in
  match by_text with
  | [] => take 10 titles_info
  | _ :: _ => by_text
  end.

(** [(word_count / total_words) * 100 if total_words > 0 else 0]; the
    [int] 0 of the second branch is held as the float 0.0, which compares
    and prints in the table like it. *)
Definition percentage (word_count total_words : nat) : float :=
  if (0 <? total_words)%nat
  then float_mul (int_true_div (Z.of_nat word_count) (Z.of_nat total_words))
         (float_of_int 100)
  else float_zero.

Record composition_row : Type := {
  row_title_number : pyval;
  row_title : string;
  row_word_count : nat;
  row_percentage : float
}.

(** [next((t["name"] for t in titles_info if t["number"] == title_num),
    f"Title {title_num}")] *)
Definition title_label_name (titles_info : list title_info)
    (title_num : pyval) : string :=
  match list_find (fun t => number t = title_num) titles_info with
  | Some (_, t) => title_name t
  | None => "Title " +:+ py_str title_num
  end.

(** The rows of [composition_data], in the order of [title_word_counts]. *)
Definition composition_data (titles_info : list title_info)
    (title_word_counts : list (pyval * nat)) (total_words : nat)
    : list composition_row :=
  map
    (fun item : pyval * nat =>
       {| row_title_number := item.1;
          row_title :=
            "Title " +:+ py_str item.1 +:+ ": "
            +:+ title_label_name titles_info item.1;
          row_word_count := item.2;
          row_percentage := round2 (percentage item.2 total_words) |})
    title_word_counts.

(** The order of [sort_values(by="Percentage", ascending=False)]: larger
    values first, NaN last.  The tables are sorted with [merge_sort], and
    no statement depends on the order in which pandas leaves rows with
    equal keys. *)
Definition by_percentage_desc (a b : composition_row) : Prop :=
  float_is_nan (row_percentage b)
  || negb (float_is_nan (row_percentage a))
     && SFleb (row_percentage b) (row_percentage a) = true.

#[global] Instance by_percentage_desc_dec a b : Decision (by_percentage_desc a b).
Proof. unfold by_percentage_desc. apply _. Defined.

Record composition : Type := {
  comp_run : run;
  comp_titles : list title_info;
  total_words : nat;
  composition_df : list composition_row;
  has_data : bool
}.

(** The computation behind "Analyze Regulatory Composition" when the
    session cache does not answer (lines 1047-1149). *)
Definition analyze_composition (lib : library) (cfg : config) (net : network)
    (agencies : list agency) (titles_info : list title_info)
    (selected_agency : string) (target : date) (w : world) : composition :=
  let agency_to_titles := create_agency_title_mapping agencies in
  let titles_for_agency := default [] (PyDict.get agency_to_titles selected_agency) in
  match titles_for_agency with
  | [] =>
      {| comp_run := start_run w; comp_titles := []; total_words := 0;
         composition_df := []; has_data := false |}
  | _ :: _ =>
      let relevant := relevant_titles titles_info titles_for_agency in
      let r :=
        fold_left (process_title_composition lib cfg net target) relevant
          (start_run w) in
      let total := list_sum (PyDict.values (title_word_counts r)) in
      match title_word_counts r with
      | [] =>
          {| comp_run := r; comp_titles := relevant; total_words := total;
             composition_df := []; has_data := false |}
      | _ :: _ =>
          {| comp_run := r; comp_titles := relevant; total_words := total;
             composition_df :=
               merge_sort by_percentage_desc
                 (composition_data titles_info (title_word_counts r) total);
             has_data := true |}
      end
  end.

(** ** Session cache keys *)

(** [str(b)] *)
Definition py_bool (b : bool) : string := if b then "True" else "False".

(** [s.replace(" ", "_")] *)
Fixpoint replace_spaces (s : string) : string :=
  match s with
  | EmptyString => ""
  | String c rest =>
      String (if decide (c = " "%char) then "_"%char else c) (replace_spaces rest)
  end.

(** [s[:n]] *)
Fixpoint str_take (n : nat) (s : string) : string :=
  match n, s with
  | S n', String c rest => String c (str_take n' rest)
  | _, _ => ""
  end.

(** ["_".join(l)] *)
Fixpoint join_underscore (l : list string) : string :=
  match l with
  | [] => ""
  | [x] => x
  | x :: l' => x +:+ "_" +:+ join_underscore l'
  end.

Definition str_le (a b : string) : Prop := String.leb a b = true.

#[global] Instance str_le_dec a b : Decision (str_le a b).
Proof. unfold str_le. apply _. Defined.

(** Tab 1: [f"agency_analysis_{max_titles}_{target_date_str}_
    {skip_problematic_titles}_{request_timeout}_{throttle_delay}"] *)
Definition agency_analysis_key (lib : library) (cfg : config)
    (max_titles : nat) (target_date_str : string) : string :=
  "agency_analysis_" +:+ str_of_int (Z.of_nat max_titles)
  +:+ "_" +:+ target_date_str
  +:+ "_" +:+ py_bool (skip_problematic_titles cfg)
  +:+ "_" +:+ str_of_int (request_timeout cfg)
  +:+ "_" +:+ float_repr lib (throttle_delay cfg).

(** Tab 4: [agencies_key = "_".join(sorted([agency.replace(" ", "_")[:10]
    for agency in selected_agencies]))], and
    [cache_key = f"wordcount_time_{start_year}_{end_year}_{max_titles}_
    {target_date_str}_{skip_problematic_titles}_{request_timeout}"]. *)
Definition agencies_key (selected_agencies : list string) : string :=
  join_underscore
    (merge_sort str_le
       (map (fun ag => str_take 10 (replace_spaces ag)) selected_agencies)).

(** The key of tab 4; the local [agencies_key] is bound and not used by the
    f-string. *)
Definition wordcount_time_key (cfg : config) (selected_agencies : list string)
    (start_year end_year : Z) (max_titles : nat) (target_date_str : string)
    : string :=
  let agencies_key := agencies_key selected_agencies in
  "wordcount_time_" +:+ str_of_int start_year
  +:+ "_" +:+ str_of_int end_year
  +:+ "_" +:+ str_of_int (Z.of_nat max_titles)
  +:+ "_" +:+ target_date_str
  +:+ "_" +:+ py_bool (skip_problematic_titles cfg)
  +:+ "_" +:+ str_of_int (request_timeout cfg).

(** Tab 5: [f"agency_composition_{selected_agency.replace(' ', '_')}_
    {target_date_str}_{skip_problematic_titles}_{request_timeout}"] *)
Definition agency_composition_key (cfg : config) (selected_agency : string)
    (target_date_str : string) : string :=
  "agency_composition_" +:+ replace_spaces selected_agency
  +:+ "_" +:+ target_date_str
  +:+ "_" +:+ py_bool (skip_problematic_titles cfg)
  +:+ "_" +:+ str_of_int (request_timeout cfg).

(** [int(x)]: truncation toward zero. *)
Definition Qtrunc (x : Q) : Z := Z.quot (Qnum x) (Zpos (Qden x)).

(** The rows of [time_df] (tab 4): one row per year and agency of
    [word_counts_by_year] whose agency is among the selected ones. *)
Definition time_df (word_counts_by_year : list (Z * list (string * Q)))
    (selected_agencies : list string) : list (Z * string * Z) :=
  flat_map
    (fun yc : Z * list (string * Q) =>
       flat_map
         (fun ac : string * Q =>
            if decide (ac.1 ∈ selected_agencies)
            then [(yc.1, ac.1, Qtrunc ac.2)] else [])
         yc.2)
    word_counts_by_year.

(** ** Snapshot (tab 1) *)

(** The order of [sort_values(by="Word Count", ascending=False)]. *)
Definition by_count_desc (a b : string * Z) : Prop := b.2 <= a.2.

#[global] Instance by_count_desc_dec a b : Decision (by_count_desc a b).
Proof. unfold by_count_desc. apply _. Defined.

(** What a snapshot computes and caches under the seven
    [f"{cache_key}_..."] entries. *)
Record snapshot_tables : Type := {
  snap_agencies : list agency;
  snap_titles_info : list title_info;
  snap_title_word_counts : list (pyval * nat);
  all_agencies_df : list (string * Z);
  senior_agencies_df : list (string * Z);
  title_df : list (string * Z);
  snap_agency_word_counts : list (string * Q)
}.

(** [st.session_state] as tab 1 sees it: the retrieval layer's part, the
    analysis cache keys that are themselves keys of the session state, and
    the cached snapshots. *)
Record session : Type := {
  sess_world : world;
  session_keys : gset string;
  snapshot_store : gmap string snapshot_tables
}.

(** The tables built from the word counts of a snapshot. *)
Definition build_tables (agencies : list agency) (titles_info : list title_info)
    (title_word_counts : list (pyval * nat)) : snapshot_tables :=
  let idx := title_to_agencies (create_agency_title_mapping agencies) in
  let totals := agency_word_counts title_word_counts idx in
  let df :=
    merge_sort by_count_desc
      (map (fun ac : string * Q => (ac.1, Qtrunc ac.2)) totals) in
  let senior_agencies := map name agencies in
  let senior_df :=
    merge_sort by_count_desc
      (filter (fun row : string * Z => row.1 ∈ senior_agencies) df) in
  let title_rows :=
    merge_sort by_count_desc
      (map (fun item : pyval * nat =>
              ("Title " +:+ py_str item.1, Z.of_nat item.2))
         title_word_counts) in
  {| snap_agencies := agencies; snap_titles_info := titles_info;
     snap_title_word_counts := title_word_counts;
     all_agencies_df := df; senior_agencies_df := senior_df;
     title_df := title_rows; snap_agency_word_counts := totals |}.

(** "Calculate Word Counts".  With caching on and the key present, the
    cached tables are read back (a missing entry is a [KeyError]);
    otherwise everything is fetched and computed, and stored under the
    suffixed keys when caching is on; the bare key itself is never stored.
    An exception of the computation is caught and reported: there are no
    tables then (the word counter never raises, so this does not occur). *)
Definition agency_analysis (lib : library) (cfg : config) (net : network)
    (target : date) (max_titles : nat) (s : session)
    : outcome (option snapshot_tables * session) :=
  let cache_key := agency_analysis_key lib cfg max_titles (date_str target) in
  if cache_results cfg && bool_decide (cache_key ∈ session_keys s) then
    match snapshot_store s !! cache_key with
    | Some tables => Returned (Some tables, s)
    | None => Raised "KeyError"
    end
  else
    let force := negb (cache_results cfg) in
    let '(agencies, w1) := get_agencies cfg net force (sess_world s) in
    let '(titles_info, w2) := get_titles cfg net force w1 in
    match snapshot_word_counts lib cfg net target max_titles titles_info w2 with
    | Returned r =>
        let tables := build_tables agencies titles_info (title_word_counts r) in
        Returned
          (Some tables,
           {| sess_world := run_world r;
              session_keys := session_keys s;
              snapshot_store :=
                if cache_results cfg
                then <[cache_key := tables]> (snapshot_store s)
                else snapshot_store s |})
    | Raised _ =>
        Returned
          (None,
           {| sess_world := w2; session_keys := session_keys s;
              snapshot_store := snapshot_store s |})
    end.

(** ** The loop bodies as state transformers *)

(** The value [count_words_in_xml] returns; it always returns one
    ([count_words_in_xml_value]). *)
Definition word_count_of (lib : library) (content : option string) : nat :=
  match count_words_in_xml lib content with
  | Returned n => n
  | Raised _ => 0%nat
  end.

(** The run after the body of the snapshot and time-series loop
    ([process_title_step]). *)
Definition title_step (lib : library) (cfg : config) (net : network)
    (force_refresh : bool) (target : date) (r : run) (t : title_info) : run :=
  if reserved t then r
  else
    let res := fetch_title cfg net force_refresh target t r in
    if truthy res.1
    then set_word_count (number t) (word_count_of lib res.1) res.2
    else res.2.

(** What is true of a run that started in world [w0] while it processes
    titles that satisfy [listed]: the calls are for listed, non-reserved
    titles at their [use_date] and record what [get_title_content]
    returned; every new request is the content request
    of one of the calls; the keys of the word-count map are the numbers
    whose call returned a truthy content, and each count is the word count
    of such a content. *)
Definition run_inv (lib : library) (cfg : config) (net : network)
    (force_refresh : bool) (target : date)
    (listed : title_info → Prop) (w0 : world) (r : run) : Prop :=
  (∀ c, c ∈ calls r →
        listed (fc_title c) ∧ reserved (fc_title c) = false
        ∧ fc_date c = date_str (use_date target (fc_title c))
        ∧ ∃ w, fc_result c
               = (get_title_content cfg net (number (fc_title c)) (fc_date c)
                    1 force_refresh w).1)
  ∧ (∃ new,
        requests (run_world r) = requests w0 ++ new
        ∧ ∀ url, url ∈ new →
                 ∃ c, c ∈ calls r
                      ∧ url = title_url (number (fc_title c)) (fc_date c))
  ∧ (∀ n, n ∈ PyDict.keys (title_word_counts r)
          ↔ ∃ c, c ∈ calls r ∧ number (fc_title c) = n
                 ∧ truthy (fc_result c) = true)
  ∧ (∀ n wc,
        PyDict.get (title_word_counts r) n = Some wc →
        ∃ c content,
          c ∈ calls r ∧ number (fc_title c) = n
          ∧ fc_result c = Some content ∧ content ≠ ""
          ∧ count_words_in_xml lib (Some content)
            = Returned wc).

(** No fetch for a reserved title: every call of [get_title_content] made
    by the run, every URL it requested and every key of its word-count
    map belongs to a non-reserved title of [titles_info]. *)
Definition unreserved_run (titles_info : list title_info) (w0 : world)
    (r : run) : Prop :=
  (∀ c, c ∈ calls r →
        fc_title c ∈ titles_info ∧ reserved (fc_title c) = false)
  ∧ (∃ new,
        requests (run_world r) = requests w0 ++ new
        ∧ ∀ url, url ∈ new →
                 ∃ t d, t ∈ titles_info ∧ reserved t = false
                        ∧ url = title_url (number t) d)
  ∧ (∀ n, n ∈ PyDict.keys (title_word_counts r) →
          ∃ t, t ∈ titles_info ∧ reserved t = false ∧ number t = n)
  ∧ (∀ t, t ∈ titles_info → reserved t = true →
          (∀ t', t' ∈ titles_info → number t' = number t → t' = t) →
          number t ∉ PyDict.keys (title_word_counts r)).

(** The fetches of a title loop over [ts] that starts in session [w], as
    the loop makes them: a reserved title is passed over, every other
    title is requested for its retrieval date in the session left by the
    fetch before it.  The result lists each fetched title with what
    [get_title_content] returned for it, and gives the session after the
    last fetch. *)
Fixpoint fetches (cfg : config) (net : network) (force_refresh : bool)
    (target : date) (ts : list title_info) (w : world)
    : list (title_info * option string) * world :=
  match ts with
  | [] => ([], w)
  | t :: ts' =>
      if reserved t then fetches cfg net force_refresh target ts' w
      else
        let res :=
          get_title_content cfg net (number t) (date_str (use_date target t))
            1 force_refresh w in
        let rest := fetches cfg net force_refresh target ts' res.2 in
        ((t, res.1) :: rest.1, rest.2)
  end.

(** The run [r] of a title loop over [ts] that started in session [w]
    ends in the session left by the last fetch, and its word-count map
    holds exactly the numbers of the titles whose fetched content was
    neither [None] nor empty, each with the word count of such a content:
    with the count of the title's own content when no other fetch of the
    same number returned another non-empty content. *)
Definition truthy_entries (lib : library) (cfg : config) (net : network)
    (force_refresh : bool) (target : date) (ts : list title_info)
    (w : world) (r : run) : Prop :=
  let fs := (fetches cfg net force_refresh target ts w).1 in
  run_world r = (fetches cfg net force_refresh target ts w).2
  ∧ (∀ n, n ∈ PyDict.keys (title_word_counts r)
          ↔ ∃ t content,
              (t, Some content) ∈ fs ∧ number t = n ∧ content ≠ "")
  ∧ (∀ n wc,
        PyDict.get (title_word_counts r) n = Some wc →
        ∃ t content,
          (t, Some content) ∈ fs ∧ number t = n ∧ content ≠ ""
          ∧ count_words_in_xml lib (Some content) = Returned wc)
  ∧ (∀ t content,
        (t, Some content) ∈ fs → content ≠ "" →
        (∀ t' content',
            (t', Some content') ∈ fs → number t' = number t →
            content' ≠ "" → content' = content) →
        ∃ wc,
          PyDict.get (title_word_counts r) (number t) = Some wc
          ∧ count_words_in_xml lib (Some content) = Returned wc).

(** ** A stable upstream and a session that agrees with it *)

(** The answers of the upstream do not depend on when it is asked. *)
Definition stable (net : network) : Prop :=
  (∀ i j timeout, get_agencies_json net i timeout = get_agencies_json net j timeout)
  ∧ (∀ i j timeout, get_titles_json net i timeout = get_titles_json net j timeout)
  ∧ (∀ i j url timeout,
        get_title_xml net i url timeout = get_title_xml net j url timeout).

(** Titles numbered by integers, as the catalog sends them. *)
Definition int_numbered (titles_info : list title_info) : Prop :=
  ∀ t, t ∈ titles_info → ∃ z, number t = PInt z.

(** Every cached list and every cached title content is what the upstream
    serves with status 200, and no content is cached for a title that the
    configuration skips. *)
Definition coherent (cfg : config) (net : network) (w : world) : Prop :=
  (∀ agencies,
      agencies_cache w = Some agencies →
      ∀ i, get_agencies_json net i (request_timeout cfg)
           = Response 200 agencies)
  ∧ (∀ titles_info,
        titles_cache w = Some titles_info →
        ∀ i, get_titles_json net i (request_timeout cfg)
             = Response 200 titles_info)
  ∧ (∀ z d content,
        content_cache w !! title_cache_key (PInt z) d = Some content →
        (∀ i, get_title_xml net i (title_url (PInt z) d) (request_timeout cfg)
              = Response 200 content)
        ∧ (skip_problematic_titles cfg = true → PInt z ∉ skip_list)).

(** The configuration with "Cache results" unticked. *)
Definition caching_off (cfg : config) : config :=
  {| request_timeout := request_timeout cfg;
     skip_problematic_titles := skip_problematic_titles cfg;
     throttle_delay := throttle_delay cfg;
     cache_results := false |}.

Fixpoint underscore_free (s : string) : bool :=
  match s with
  | EmptyString => true
  | String c rest => negb (Ascii.eqb c "_") && underscore_free rest
  end.

(** ** Agency names offered by the selection widgets *)

(** [collect_agency_names] (tabs 4 and 5): the names of all agencies of the
    forest, at every depth, in depth-first order. *)
Fixpoint collect_agency_names_of (a : agency) : list string :=
  name a :: flat_map collect_agency_names_of (children a).

Definition collect_agency_names (agency_list : list agency) : list string :=
  flat_map collect_agency_names_of agency_list.

(** ** Sample data *)

Definition ref (n : Z) : cfr_reference := {| ref_title := Some (PInt n) |}.

(** A department with a bureau below it and an office below the bureau. *)
Definition three_levels : list agency :=
  [Agency "Department" "department" [ref 1]
     [Agency "Bureau" "bureau" [ref 2]
        [Agency "Office" "office" [ref 3] []]]].

(** A parser that knows one well-formed document and fails on everything
    else. *)
Definition one_document_soup (s : string) : outcome string :=
  if decide (s = "<a>hello world</a>") then Returned "hello world"
  else Raised "not well-formed".

(** A character table that knows the letters of the Latin-1 supplement
    (U+00C0 to U+00FF without the two arithmetic signs). *)
Definition latin1_letters (c : N) : bool :=
  ((192 <=? c) && (c <=? 255) && negb (c =? 215) && negb (c =? 247))%N.

Definition one_document_library : library :=
  {| soup_get_text := one_document_soup;
     unicode_alnum := latin1_letters;
     float_repr := fun _ => "0.2" |}.

(** The sidebar defaults. *)
Definition default_config : config :=
  {| request_timeout := 240; skip_problematic_titles := true;
     throttle_delay := 2 # 10; cache_results := true |}.

(** One year of totals for two agencies. *)
Definition two_agency_year : list (Z * list (string * Q)) :=
  [(2022, [("Agriculture Department", inject_Z 100);
           ("Commerce Department", inject_Z 50)])].

(** A small catalog.  Title 42 is on the skip list, title 35 is reserved,
    titles 26 to 28 hold one word each and title 30 holds markup only;
    no title 99 exists. *)
Definition mk_date (y m d : Z) : date := {| year := y; month := m; day := d |}.

Definition sample_titles : list title_info :=
  [ {| number := PInt 1; title_name := "General Provisions";
       latest_amended_on := mk_date 2024 6 1; reserved := false |};
    {| number := PInt 26; title_name := "Internal Revenue";
       latest_amended_on := mk_date 2025 6 1; reserved := false |};
    {| number := PInt 27; title_name := "Alcohol, Tobacco";
       latest_amended_on := mk_date 2025 6 1; reserved := false |};
    {| number := PInt 28; title_name := "Judicial Administration";
       latest_amended_on := mk_date 2025 6 1; reserved := false |};
    {| number := PInt 30; title_name := "Mineral Resources";
       latest_amended_on := mk_date 2025 6 1; reserved := false |};
    {| number := PInt 35; title_name := "Reserved";
       latest_amended_on := mk_date 2025 6 1; reserved := true |};
    {| number := PInt 42; title_name := "Public Health";
       latest_amended_on := mk_date 2025 6 1; reserved := false |} ].

Definition sample_agencies : list agency :=
  [ Agency "Department of Health" "health" [ref 42]
      [Agency "Health Bureau" "health-bureau" [ref 42; ref 1] []];
    Agency "Archives" "archives" [ref 1] [];
    Agency "Tax Office" "tax-office" [ref 26; ref 27; ref 28] [];
    Agency "Mining Office" "mining-office" [ref 30] [];
    Agency "Board" "board" [ref 99] [] ].

(** The text served for each title and date; anything else is not found. *)
Definition sample_content (url : string) : response string :=
  if decide (url = title_url (PInt 1) "2024-06-01")
  then Response 200 "<t>general provisions</t>"
  else if decide (url = title_url (PInt 42) "2025-01-01")
  then Response 200 "<t>public health rules</t>"
  else if decide (url = title_url (PInt 26) "2025-01-01")
  then Response 200 "<t>revenue</t>"
  else if decide (url = title_url (PInt 27) "2025-01-01")
  then Response 200 "<t>alcohol</t>"
  else if decide (url = title_url (PInt 28) "2025-01-01")
  then Response 200 "<t>courts</t>"
  else if decide (url = title_url (PInt 30) "2025-01-01")
  then Response 200 "<t/>"
  else Response 404 "".

(** An upstream that never changes. *)
Definition sample_network : network :=
  {| get_agencies_json := fun _ _ => Response 200 sample_agencies;
     get_titles_json := fun _ _ => Response 200 sample_titles;
     get_title_xml := fun _ url _ => sample_content url |}.

(** A stand-in for the parser: the text is what is left outside the tags. *)
Definition sample_library : library :=
  {| soup_get_text :=
       fun s => Returned (utf8_encode (sub_tags (code_points s)));
     unicode_alnum := latin1_letters;
     float_repr := fun _ => "0.2" |}.

Definition no_skip_config : config :=
  {| request_timeout := 240; skip_problematic_titles := false;
     throttle_delay := 2 # 10; cache_results := true |}.

Definition no_cache_config : config :=
  {| request_timeout := 240; skip_problematic_titles := true;
     throttle_delay := 2 # 10; cache_results := false |}.

(** The session after title 42 was fetched once with skipping off. *)
Definition world_with_title_42 : world :=
  (get_title_content no_skip_config sample_network (PInt 42) "2025-01-01" 1
     false empty_world).2.

(** A session in which nothing has been stored yet. *)
Definition new_session : session :=
  {| sess_world := empty_world; session_keys := ∅; snapshot_store := ∅ |}.

(** The session left by one snapshot computed with skipping off. *)
Definition session_after_unskipped_run : session :=
  match
    agency_analysis sample_library no_skip_config sample_network
      (mk_date 2025 1 1) 50 new_session
  with
  | Returned (_, s) => s
  | Raised _ => new_session
  end.

(** An upstream on which every request times out. *)
Definition timeout_network : network :=
  {| get_agencies_json := fun _ _ => TimeoutExc;
     get_titles_json := fun _ _ => TimeoutExc;
     get_title_xml := fun _ _ _ => TimeoutExc |}.

(** ** Further definitions *)

(** The error log of a composition run holds exactly the titles whose
    fetched content was [None] or empty, each with the message of the
    [else] branch. *)
Definition error_log_inv (r : run) : Prop :=
  (∀ n, n ∈ PyDict.keys (title_fetch_errors r)
        ↔ ∃ c, c ∈ calls r ∧ number (fc_title c) = n
               ∧ truthy (fc_result c) = false)
  ∧ (∀ n msg,
        PyDict.get (title_fetch_errors r) n = Some msg →
        msg = "No content received").

(** Tab 4: [list(range(start_year, end_year + 1))], refused with an error
    message when [end_year < start_year]. *)
Definition years_to_analyze (start_year end_year : Z) : option (list Z) :=
  if end_year <? start_year then None
  else Some (seqZ start_year (end_year + 1 - start_year)).

(** The agencies [create_agency_title_mapping] visits: every top-level
    agency, each followed by its direct children. *)
Definition indexed_agencies (agencies : list agency) : list agency :=
  flat_map (λ a, a :: children a) agencies.

(** ** Agency hierarchy (tab 3 and [extract_agency_hierarchy]) *)

(** A node of [extract_agency_hierarchy]. *)
Record hierarchy_node : Type := {
  node_id : string;
  node_name : string;
  node_short_name : string;
  node_is_parent : bool
}.

(** The node appended for one agency.  The agency records of this
    development carry the four keys the analysis reads; [short_name]
    stands for [agency.get("short_name", "")]. *)
Definition hierarchy_node_of (short_name : agency → string) (a : agency)
    : hierarchy_node :=
  {| node_id := slug a;
     node_name := name a;
     node_short_name := short_name a;
     node_is_parent := bool_decide (0 < length (children a))%nat |}.

(** [process_agency] of [extract_agency_hierarchy]; the two lists it
    appends to are threaded as a pair.  [if parent:] is false for [None]
    and for the empty string. *)
Fixpoint extract_process_agency (short_name : agency → string) (a : agency)
    (parent : option string)
    (st : list hierarchy_node * list (string * string))
    : list hierarchy_node * list (string * string) :=
  let nodes := st.1 ++ [hierarchy_node_of short_name a] in
  let edges :=
    match parent with
    | Some p => if decide (p = "") then st.2 else st.2 ++ [(p, slug a)]
    | None => st.2
    end in
  fold_left
    (fun st' child =>
       extract_process_agency short_name child (Some (slug a)) st')
    (children a) (nodes, edges).

Definition extract_agency_hierarchy (short_name : agency → string)
    (agencies : list agency)
    : list hierarchy_node * list (string * string) :=
  fold_left (fun st a => extract_process_agency short_name a None st)
    agencies ([], []).

(** [find_parent_agencies] (lines 606-612), one agency at a time. *)
Fixpoint find_parent_agencies_in (a : agency) (parent_agencies : list agency)
    : list agency :=
  match children a with
  | [] => parent_agencies
  | _ :: _ =>
      fold_left (fun acc child => find_parent_agencies_in child acc)
        (children a) (parent_agencies ++ [a])
  end.

Definition find_parent_agencies (agency_list : list agency) : list agency :=
  fold_left (fun acc a => find_parent_agencies_in a acc) agency_list [].

(** [all_child_slugs] (lines 618-621). *)
Definition all_child_slugs (agencies : list agency) : list string :=
  fold_left
    (fun s a => fold_left (fun s' child => set_add (slug child) s')
                  (children a) s)
    agencies [].

(** [find_independent_agencies] (lines 627-635). *)
Fixpoint find_independent_agencies_in (child_slugs : list string)
    (a : agency) (independent_agencies : list agency) : list agency :=
  match children a with
  | [] =>
      if decide (slug a ∈ child_slugs) then independent_agencies
      else independent_agencies ++ [a]
  | _ :: _ =>
      fold_left
        (fun acc child => find_independent_agencies_in child_slugs child acc)
        (children a) independent_agencies
  end.

Definition find_independent_agencies (agencies : list agency)
    : list agency :=
  fold_left
    (fun acc a => find_independent_agencies_in (all_child_slugs agencies) a acc)
    agencies [].

(** [total_agencies] (line 641). *)
Definition total_agencies (top_level_agencies : list agency) : nat :=
  (length top_level_agencies
   + foldr Nat.add 0 (map (fun a => length (children a)) top_level_agencies))%nat.

(** [dropdown_options] (line 647). *)
Definition dropdown_options (parent_agencies : list agency) : list string :=
  ["All Agencies"; "Agencies Without Parent"] ++ map name parent_agencies.

(** A row of the sunburst data frame. *)
Record sunburst_row : Type := {
  row_id : string;
  row_parent : string;
  row_name : string;
  row_value : Z
}.

Definition sunburst_root : sunburst_row :=
  {| row_id := "root"; row_parent := ""; row_name := "Federal Agencies";
     row_value := 1 |}.

Definition sunburst_row_of (a : agency) (parent : string) : sunburst_row :=
  {| row_id := slug a; row_parent := parent; row_name := name a;
     row_value := 1 |}.

(** [process_agency] of [build_sunburst_data]. *)
Fixpoint sunburst_process_agency (a : agency) (parent : string)
    (include : bool) (data : list sunburst_row) : list sunburst_row :=
  if negb include then data
  else
    fold_left
      (fun data' child => sunburst_process_agency child (slug a) include data')
      (children a) (data ++ [sunburst_row_of a parent]).

(** [build_sunburst_data] (lines 655-720). *)
Definition build_sunburst_data (agencies independent_agencies
    parent_agencies : list agency) (selected_option : string)
    : list sunburst_row :=
  let data := [sunburst_root] in
  if decide (selected_option = "All Agencies") then
    fold_left (fun data' a => sunburst_process_agency a "root" true data')
      agencies data
  else if decide (selected_option = "Agencies Without Parent") then
    fold_left
      (fun data' a => data' ++ [sunburst_row_of a "independent"])
      independent_agencies
      (data ++ [{| row_id := "independent"; row_parent := "root";
                   row_name := "Agencies Without Parent"; row_value := 1 |}])
  else
    match find (fun a => bool_decide (name a = selected_option))
            parent_agencies with
    | Some selected_agency =>
        sunburst_process_agency selected_agency "root" true data
    | None => data
    end.

(** The agencies of a tree and of a forest, parents before children, in
    the order of the response. *)
Fixpoint agency_subtree (a : agency) : list agency :=
  a :: flat_map agency_subtree (children a).

Definition agency_forest (agencies : list agency) : list agency :=
  flat_map agency_subtree agencies.

(** The edges below one agency, as a list comprehension. *)
Fixpoint hierarchy_edges_of (parent : option string) (a : agency)
    : list (string * string) :=
  match parent with
  | Some p => if decide (p = "") then [] else [(p, slug a)]
  | None => []
  end
  ++ flat_map (hierarchy_edges_of (Some (slug a))) (children a).

(** The sunburst rows below one agency. *)
Fixpoint sunburst_rows_of (parent : string) (a : agency)
    : list sunburst_row :=
  sunburst_row_of a parent
  :: flat_map (sunburst_rows_of (slug a)) (children a).

(** Every row's parent is the id of a row before it; [seen] holds the ids
    read so far. *)
Fixpoint parents_precede (seen : list string) (rows : list sunburst_row)
    : Prop :=
  match rows with
  | [] => True
  | row :: rows' =>
      row_parent row ∈ seen ∧ parents_precede (seen ++ [row_id row]) rows'
  end.

(** The agencies more than one level below the top level. *)
Definition below_children (agencies : list agency) : list agency :=
  flat_map
    (fun a => flat_map (fun c => flat_map agency_subtree (children c))
                (children a))
    agencies.

(** * Properties *)

(** ** Dictionaries *)

Module PyDictFacts.
Section Facts.
Context {K V : Type} `{EqDecision K}.
Implicit Types (d : list (K * V)) (k : K) (v : V).

Lemma get_set_eq d k v : PyDict.get (PyDict.set d k v) k = Some v.
Proof.
  induction d as [|[k' v'] d IH]; simpl.
  - by rewrite decide_True.
  - destruct (decide (k = k')) as [->|Hne]; simpl.
    + by rewrite decide_True.
    + by rewrite decide_False.
Qed.

Lemma get_set_ne d k k' v :
  k ≠ k' → PyDict.get (PyDict.set d k v) k' = PyDict.get d k'.
Proof.
  intros Hne. induction d as [|[k0 v0] d IH]; simpl.
  - case_decide; congruence.
  - destruct (decide (k = k0)) as [->|Hne0]; simpl.
    + repeat case_decide; congruence.
    + destruct (decide (k' = k0)); [done | apply IH].
Qed.

Lemma keys_set d k v :
  ∀ k', k' ∈ PyDict.keys (PyDict.set d k v) ↔ k' = k ∨ k' ∈ PyDict.keys d.
Proof.
  unfold PyDict.keys. intros k'. induction d as [|[k0 v0] d IH]; simpl.
  - rewrite list_elem_of_singleton. split; [tauto|].
    intros [?|Hn]; [done | by apply elem_of_nil in Hn].
  - destruct (decide (k = k0)) as [->|Hne]; simpl.
    + rewrite !elem_of_cons. tauto.
    + rewrite !elem_of_cons, IH. tauto.
Qed.

Lemma get_elem_NoDup d k v :
  NoDup (PyDict.keys d) → (k, v) ∈ d → PyDict.get d k = Some v.
Proof.
  unfold PyDict.keys. induction d as [|[k' v'] d IH]; simpl; intros Hnd Hin.
  - by apply elem_of_nil in Hin.
  - apply NoDup_cons in Hnd as [Hk' Hnd].
    apply elem_of_cons in Hin as [[= -> ->] | Hin].
    + by rewrite decide_True.
    + destruct (decide (k = k')) as [-> | Hne]; [|by apply IH].
      exfalso. apply Hk'. apply list_elem_of_fmap. by exists (k', v).
Qed.

Lemma keys_set_NoDup d k v :
  NoDup (PyDict.keys d) → NoDup (PyDict.keys (PyDict.set d k v)).
Proof.
  unfold PyDict.keys. induction d as [|[k0 v0] d IH]; simpl; intros Hnd.
  - apply NoDup_singleton.
  - apply NoDup_cons in Hnd as [Hk0 Hnd].
    destruct (decide (k = k0)) as [->|Hne]; simpl.
    + by apply NoDup_cons.
    + apply NoDup_cons. split; [|by apply IH].
      intros Hin. apply (keys_set d k v k0) in Hin as [?|?]; [congruence | done].
Qed.
End Facts.
End PyDictFacts.

(** ** Attribution (C1) *)

Section Attribution.
Import Binary64.
Implicit Types (acc : list (string * float)) (ag : string) (x : float).

Lemma total_of_update_eq acc ag x :
  total_of (PyDict.update float_zero (fun v => float_add v x) acc ag) ag
  = float_add (total_of acc ag) x.
Proof.
  unfold total_of, PyDict.update. by rewrite PyDictFacts.get_set_eq.
Qed.

Lemma total_of_update_ne acc ag ag' x :
  ag ≠ ag' →
  total_of (PyDict.update float_zero (fun v => float_add v x) acc ag) ag'
  = total_of acc ag'.
Proof.
  intros Hne. unfold total_of, PyDict.update.
  by rewrite PyDictFacts.get_set_ne.
Qed.

Lemma credit_not_owner x owners acc ag :
  ag ∉ owners → total_of (credit x owners acc) ag = total_of acc ag.
Proof.
  revert acc. induction owners as [|o owners IH]; intros acc Hnin; [done|].
  apply not_elem_of_cons in Hnin as [Hne Hnin].
  unfold credit in *. cbn [fold_left].
  rewrite IH by done. by apply total_of_update_ne.
Qed.

Lemma credit_owner x owners acc ag :
  NoDup owners → ag ∈ owners →
  total_of (credit x owners acc) ag = float_add (total_of acc ag) x.
Proof.
  revert acc. induction owners as [|o owners IH]; intros acc Hnd Hin.
  - by apply elem_of_nil in Hin.
  - apply NoDup_cons in Hnd as [Ho Hnd].
    change (credit x (o :: owners) acc)
      with (credit x owners
              (PyDict.update float_zero (fun v => float_add v x) acc o)).
    apply elem_of_cons in Hin as [->|Hin].
    + rewrite credit_not_owner by done. apply total_of_update_eq.
    + rewrite IH by done. rewrite total_of_update_ne; [done|].
      intros ->. done.
Qed.

Lemma attribute_title_credit idx acc t wc o owners :
  PyDict.get idx t = Some (o :: owners) →
  attribute_title idx acc (t, wc)
  = credit (count_per_agency wc (o :: owners)) (o :: owners) acc.
Proof. intros Hget. unfold attribute_title. simpl. by rewrite Hget. Qed.

Lemma attribute_title_skip idx acc t wc :
  default [] (PyDict.get idx t) = [] → attribute_title idx acc (t, wc) = acc.
Proof. intros Hget. unfold attribute_title. simpl. by rewrite Hget. Qed.

Lemma attribute_title_total idx acc (item : pyval * nat) ag :
  (∀ t owners, PyDict.get idx t = Some owners → NoDup owners) →
  total_of (attribute_title idx acc item) ag
  = let owners := default [] (PyDict.get idx item.1) in
    if decide (ag ∈ owners)
    then float_add (total_of acc ag) (count_per_agency item.2 owners)
    else total_of acc ag.
Proof.
  intros Hidx. destruct item as [t wc]. cbn [fst snd]. cbv zeta.
  destruct (PyDict.get idx t) as [[|o owners]|] eqn:Hget;
    cbn [from_option id].
  - rewrite attribute_title_skip by (by rewrite Hget).
    by rewrite decide_False by (by intros ?%elem_of_nil).
  - rewrite (attribute_title_credit _ _ _ _ _ _ Hget). case_decide as Hin.
    + apply credit_owner; [by apply (Hidx t) | done].
    + by apply credit_not_owner.
  - rewrite attribute_title_skip by (by rewrite Hget).
    by rewrite decide_False by (by intros ?%elem_of_nil).
Qed.

Local Open Scope Q_scope.





End Attribution.



(** Multi-owner distribution: each of A, B and C receives 300. *)
Example attribution_three_owners :
  Binary64.agency_word_counts [(PInt 7, 900%nat)] [(PInt 7, ["A"; "B"; "C"])]
  = [("A", float_of_int 300); ("B", float_of_int 300);
     ("C", float_of_int 300)].
Proof. vm_compute. reflexivity. Qed.


(** ** Ownership index (C2) *)

(** C2 (full-depth ownership indexing).  On a forest with a grandchild the
    index stops at depth one: [create_agency_title_mapping] records the
    references of the top-level agency and of its direct child, and has no
    entry for the grandchild "Office", whose own [cfr_references] name
    title 3 and whose name [collect_agency_names] does offer for
    selection. *)
Theorem create_agency_title_mapping_stops_at_children :
  create_agency_title_mapping three_levels
  = [("Department", [PInt 1]); ("Bureau", [PInt 2])]
  ∧ PyDict.get (create_agency_title_mapping three_levels) "Office" = None
  ∧ "Office" ∈ collect_agency_names three_levels
  ∧ PyDict.get
      (title_to_agencies (create_agency_title_mapping three_levels)) (PInt 3)
    = None.
Proof.
  split; [reflexivity|]. split; [reflexivity|]. split; [|reflexivity].
  apply (bool_decide_unpack _). vm_compute. exact I.
Qed.

(** The reverse mapping is the inverse of the forward one, and its owner
    lists are free of repetitions. *)
Lemma set_add_NoDup (x : pyval) s : NoDup s → NoDup (set_add x s).
Proof.
  intros Hnd. unfold set_add. case_decide; [done|].
  apply NoDup_app. split; [done|]. split; [|apply NoDup_singleton].
  intros y Hy ->%list_elem_of_singleton. done.
Qed.

Lemma add_references_wf nm refs m : index_wf m → index_wf (add_references nm refs m).
Proof.
  revert m. induction refs as [|r refs IH]; intros m Hwf; [done|].
  unfold add_references in *. cbn [fold_left]. apply IH.
  destruct (ref_title r) as [t|]; [|done].
  destruct Hwf as [Hkeys Hvals]. split.
  - by apply PyDictFacts.keys_set_NoDup.
  - intros k v. unfold PyDict.update.
    destruct (decide (nm = k)) as [<- | Hne].
    + rewrite PyDictFacts.get_set_eq. intros [= <-].
      apply set_add_NoDup.
      destruct (PyDict.get m nm) as [old|] eqn:Hold; simpl;
        [by apply (Hvals nm) | apply NoDup_nil_2].
    + rewrite PyDictFacts.get_set_ne by done. apply Hvals.
Qed.

Lemma create_agency_title_mapping_wf agencies :
  index_wf (create_agency_title_mapping agencies).
Proof.
  unfold create_agency_title_mapping.
  assert (Hnil : index_wf []) by (split; [apply NoDup_nil_2 | done]).
  revert Hnil. generalize (@nil (string * list pyval)).
  induction agencies as [|a agencies IH]; intros m Hwf; [done|].
  cbn [fold_left]. apply IH.
  assert (Hown : index_wf (add_references (name a) (cfr_references a) m))
    by by apply add_references_wf.
  revert Hown. generalize (add_references (name a) (cfr_references a) m).
  induction (children a) as [|c cs IHc]; intros m' Hwf'; [done|].
  cbn [fold_left]. apply IHc. by apply add_references_wf.
Qed.

Lemma append_owner_get ag titles (m : list (pyval * list string)) t :
  NoDup titles →
  default [] (PyDict.get
                (fold_left
                   (λ m t, PyDict.update [] (λ l, l ++ [ag]) m t) titles m)
                t)
  = default [] (PyDict.get m t) ++ (if decide (t ∈ titles) then [ag] else []).
Proof.
  revert m. induction titles as [|t0 titles IH]; intros m Hnd.
  - simpl. by rewrite app_nil_r.
  - apply NoDup_cons in Hnd as [Ht0 Hnd]. cbn [fold_left].
    rewrite IH by done. unfold PyDict.update.
    destruct (decide (t0 = t)) as [-> | Hne].
    + rewrite PyDictFacts.get_set_eq. simpl.
      rewrite decide_False by done. rewrite decide_True by left.
      by rewrite app_nil_r.
    + rewrite PyDictFacts.get_set_ne by done.
      destruct (decide (t ∈ titles)) as [Hin | Hnin].
      * rewrite decide_True by (by right). done.
      * rewrite decide_False; [done|].
        intros [-> | ?]%elem_of_cons; done.
Qed.

Lemma title_to_agencies_owners_from entries (m : list (pyval * list string)) t :
  (∀ entry, entry ∈ entries → NoDup entry.2) →
  default [] (PyDict.get
                (fold_left
                   (λ m '(ag, titles),
                      fold_left
                        (λ m t, PyDict.update [] (λ l, l ++ [ag]) m t)
                        titles m)
                   entries m)
                t)
  = default [] (PyDict.get m t) ++ owners_of entries t.
Proof.
  revert m. induction entries as [|[ag titles] entries IH]; intros m Hnd.
  - simpl. by rewrite app_nil_r.
  - cbn [fold_left]. rewrite IH by (intros e He; apply Hnd; by right).
    rewrite append_owner_get by (apply (Hnd (ag, titles)); left).
    unfold owners_of. rewrite filter_cons. simpl.
    destruct (decide (t ∈ titles)); simpl; [|by rewrite app_nil_r].
    by rewrite <- app_assoc.
Qed.

Lemma title_to_agencies_owners agency_to_titles t :
  index_wf agency_to_titles →
  default [] (PyDict.get (title_to_agencies agency_to_titles) t)
  = owners_of agency_to_titles t.
Proof.
  intros [Hkeys Hvals]. unfold title_to_agencies.
  rewrite title_to_agencies_owners_from; [done|].
  intros [ag titles] He. simpl. apply (Hvals ag).
  by apply PyDictFacts.get_elem_NoDup.
Qed.

Lemma owners_of_NoDup agency_to_titles t :
  index_wf agency_to_titles → NoDup (owners_of agency_to_titles t).
Proof.
  intros [Hkeys _]. unfold owners_of.
  apply (sublist_NoDup _ (PyDict.keys agency_to_titles)); [done|].
  unfold PyDict.keys. apply fmap_sublist, sublist_filter.
Qed.

(** The owner lists of every index the code builds are free of
    repetitions. *)
Lemma ownership_index_NoDup agencies t owners :
  PyDict.get (title_to_agencies (create_agency_title_mapping agencies)) t
  = Some owners →
  NoDup owners.
Proof.
  intros Hget.
  pose proof (title_to_agencies_owners (create_agency_title_mapping agencies)
                t (create_agency_title_mapping_wf agencies)) as Hown.
  rewrite Hget in Hown. simpl in Hown. rewrite Hown.
  apply owners_of_NoDup, create_agency_title_mapping_wf.
Qed.

(** What the index does record: the references of the top-level agencies
    and of their direct children. *)
Lemma set_add_elem (x y : pyval) s : y ∈ set_add x s ↔ y = x ∨ y ∈ s.
Proof.
  unfold set_add. case_decide as Hin.
  - split; [by right | by intros [-> | ?]].
  - rewrite elem_of_app, list_elem_of_singleton. tauto.
Qed.

Lemma add_reference_mono nm t (m : list (string * list pyval)) k x :
  x ∈ default [] (PyDict.get m k) →
  x ∈ default [] (PyDict.get (PyDict.update [] (set_add t) m nm) k).
Proof.
  intros Hx. unfold PyDict.update. destruct (decide (nm = k)) as [<- | Hne].
  - rewrite PyDictFacts.get_set_eq. simpl. apply set_add_elem. by right.
  - by rewrite PyDictFacts.get_set_ne.
Qed.

Lemma add_references_mono nm refs m k x :
  x ∈ default [] (PyDict.get m k) →
  x ∈ default [] (PyDict.get (add_references nm refs m) k).
Proof.
  revert m. induction refs as [|r refs IH]; intros m Hx; [done|].
  unfold add_references in *. cbn [fold_left]. apply IH.
  destruct (ref_title r); [by apply add_reference_mono | done].
Qed.

Lemma add_references_records nm refs m r t :
  r ∈ refs → ref_title r = Some t →
  t ∈ default [] (PyDict.get (add_references nm refs m) nm).
Proof.
  revert m. induction refs as [|r0 refs IH]; intros m Hr Ht.
  - by apply elem_of_nil in Hr.
  - apply elem_of_cons in Hr as [<- | Hr].
    + unfold add_references. cbn [fold_left]. rewrite Ht.
      apply (add_references_mono nm refs). unfold PyDict.update.
      rewrite PyDictFacts.get_set_eq. simpl. apply set_add_elem. by left.
    + unfold add_references in *. cbn [fold_left]. by apply IH.
Qed.

Lemma add_children_mono (cs : list agency) m k x :
  x ∈ default [] (PyDict.get m k) →
  x ∈ default []
        (PyDict.get
           (fold_left (λ m c, add_references (name c) (cfr_references c) m)
              cs m)
           k).
Proof.
  revert m. induction cs as [|c cs IH]; intros m Hx; [done|].
  cbn [fold_left]. apply IH. by apply add_references_mono.
Qed.

Lemma add_children_records (cs : list agency) m c r t :
  c ∈ cs → r ∈ cfr_references c → ref_title r = Some t →
  t ∈ default []
        (PyDict.get
           (fold_left (λ m c, add_references (name c) (cfr_references c) m)
              cs m)
           (name c)).
Proof.
  revert m. induction cs as [|c0 cs IH]; intros m Hc Hr Ht.
  - by apply elem_of_nil in Hc.
  - cbn [fold_left]. apply elem_of_cons in Hc as [<- | Hc]; [|by apply IH].
    apply add_children_mono. by eapply add_references_records.
Qed.

Lemma create_agency_title_mapping_from_mono agencies m k x :
  x ∈ default [] (PyDict.get m k) →
  x ∈ default []
        (PyDict.get
           (fold_left
              (λ m a,
                 let m1 := add_references (name a) (cfr_references a) m in
                 fold_left
                   (λ m c, add_references (name c) (cfr_references c) m)
                   (children a) m1)
              agencies m)
           k).
Proof.
  revert m. induction agencies as [|a agencies IH]; intros m Hx; [done|].
  cbn [fold_left]. apply IH. cbv zeta.
  by apply add_children_mono, add_references_mono.
Qed.

Lemma create_agency_title_mapping_depth_one agencies a r t :
  a ∈ agencies →
  (r ∈ cfr_references a → ref_title r = Some t →
   t ∈ default [] (PyDict.get (create_agency_title_mapping agencies) (name a)))
  ∧ (∀ c, c ∈ children a → r ∈ cfr_references c → ref_title r = Some t →
          t ∈ default []
                (PyDict.get (create_agency_title_mapping agencies) (name c))).
Proof.
  unfold create_agency_title_mapping. generalize (@nil (string * list pyval)).
  induction agencies as [|a0 agencies IH]; intros m Ha.
  - by apply elem_of_nil in Ha.
  - cbn [fold_left]. apply elem_of_cons in Ha as [<- | Ha]; [|by apply IH].
    split.
    + intros Hr Ht. apply create_agency_title_mapping_from_mono. cbv zeta.
      apply add_children_mono. by eapply add_references_records.
    + intros c Hc Hr Ht. apply create_agency_title_mapping_from_mono.
      cbv zeta. by eapply add_children_records.
Qed.

(** ** Word counter (C6) *)

Lemma count_words_in_xml_returns lib xml_content :
  ∃ n : nat, count_words_in_xml lib xml_content = Returned n.
Proof.
  destruct xml_content as [[|c s]|]; simpl; eauto.
  destruct (soup_get_text lib (String c s)); simpl; eauto.
Qed.

Example code_points_utf8 :
  code_points "naïve €" = [110; 97; 239; 118; 101; 32; 8364]%N
  ∧ utf8_encode (code_points "naïve €") = "naïve €".
Proof. split; vm_compute; reflexivity. Qed.

Example findall_words_runs lib :
  findall_words lib (code_points " hello  big_world 42!")
  = map code_points ["hello"; "big_world"; "42"].
Proof. vm_compute. reflexivity. Qed.

Example sub_tags_unclosed :
  sub_tags (code_points "<a>x<>y<b c='1'>z<d") = code_points " x<>y z<d".
Proof. vm_compute. reflexivity. Qed.

(** C6 (word counter totality and contract).  Whatever the parser does,
    [count_words_in_xml] returns a non-negative integer and never raises;
    it returns 0 on [None] and on the empty string, 2 on
    ["<a>hello world</a>"] (whose text the parser extracts); whenever the
    parser raises, the result is the number of maximal word runs left
    after every [<...>] run has been replaced by one space, e.g. 1 for the
    unclosed ["<a>hello"].  Word runs are runs of Unicode word characters:
    ["<p>naïve</p>"] counts one word when the parser raises. *)
Theorem count_words_in_xml_total (lib : library)
    (Hsoup : soup_get_text lib "<a>hello world</a>" = Returned "hello world") :
  (∀ xml_content,
     ∃ n : nat,
       count_words_in_xml lib xml_content = Returned n ∧ 0 <= Z.of_nat n)
  ∧ count_words_in_xml lib None = Returned 0%nat
  ∧ count_words_in_xml lib (Some "") = Returned 0%nat
  ∧ count_words_in_xml lib (Some "<a>hello world</a>") = Returned 2%nat
  ∧ (∀ s msg,
       soup_get_text lib s = Raised msg →
       count_words_in_xml lib (Some s)
       = Returned (length (findall_words lib (sub_tags (code_points s)))))
  ∧ (∀ msg,
       soup_get_text lib "<a>hello" = Raised msg →
       count_words_in_xml lib (Some "<a>hello") = Returned 1%nat)
  ∧ (∀ msg,
       unicode_alnum lib 239 = true →
       soup_get_text lib "<p>naïve</p>" = Raised msg →
       count_words_in_xml lib (Some "<p>naïve</p>") = Returned 1%nat).
Proof.
  split; [|split; [|split; [|split; [|split; [|split]]]]].
  - intros x. destruct (count_words_in_xml_returns lib x) as [n Hn].
    exists n. split; [done | lia].
  - reflexivity.
  - reflexivity.
  - cbn -[findall_words sub_tags code_points]. rewrite Hsoup.
    vm_compute. reflexivity.
  - intros [|c s] msg Hs; [reflexivity|].
    cbn -[findall_words sub_tags code_points]. by rewrite Hs.
  - intros msg Hs. cbn -[findall_words sub_tags code_points].
    rewrite Hs. vm_compute. reflexivity.
  - intros msg Hi Hs. cbn -[findall_words sub_tags code_points].
    rewrite Hs. destruct lib as [soup alnum repr]. cbn in Hi.
    vm_compute. rewrite Hi. reflexivity.
Qed.

Lemma count_words_in_xml_total_witness :
  soup_get_text one_document_library "<a>hello world</a>"
  = Returned "hello world"
  ∧ count_words_in_xml one_document_library (Some "<a>hello world</a>")
    = Returned 2%nat
  ∧ count_words_in_xml one_document_library (Some "<a>hello")
    = Returned 1%nat
  ∧ count_words_in_xml one_document_library (Some "<p>naïve</p>")
    = Returned 1%nat.
Proof.
  assert (H : soup_get_text one_document_library "<a>hello world</a>"
              = Returned "hello world")
    by (vm_compute; reflexivity).
  split; [exact H|].
  destruct (count_words_in_xml_total one_document_library H)
    as (_ & _ & _ & H2 & _ & H1 & Hu).
  split; [exact H2|].
  split; [exact (H1 "not well-formed" eq_refl)|].
  exact (Hu "not well-formed" eq_refl eq_refl).
Defined.

(** ** Session cache keys (C4) *)

(** C4 (session-cache key completeness).  The time-series key is the same
    for any two agency selections, although [agencies_key] is computed
    from the selection and tells the two selections below apart, and
    although the cached table [time_df] differs between them; the
    time-series and composition keys are also the same for any two
    throttle delays. *)
Theorem wordcount_time_key_ignores_selection :
  (∀ cfg sel1 sel2 start_year end_year max_titles target,
     wordcount_time_key cfg sel1 start_year end_year max_titles target
     = wordcount_time_key cfg sel2 start_year end_year max_titles target)
  ∧ wordcount_time_key default_config ["Agriculture Department"]
      2022 2024 5 "2025-01-01"
    = "wordcount_time_2022_2024_5_2025-01-01_True_240"
  ∧ wordcount_time_key default_config ["Commerce Department"]
      2022 2024 5 "2025-01-01"
    = "wordcount_time_2022_2024_5_2025-01-01_True_240"
  ∧ agencies_key ["Agriculture Department"] = "Agricultur"
  ∧ agencies_key ["Commerce Department"] = "Commerce_D"
  ∧ time_df two_agency_year ["Agriculture Department"]
    = [(2022, "Agriculture Department", 100)]
  ∧ time_df two_agency_year ["Commerce Department"]
    = [(2022, "Commerce Department", 50)]
  ∧ (∀ timeout skip caching delay1 delay2 sel start_year end_year max_titles
       target,
       wordcount_time_key
         {| request_timeout := timeout; skip_problematic_titles := skip;
            throttle_delay := delay1; cache_results := caching |}
         sel start_year end_year max_titles target
       = wordcount_time_key
           {| request_timeout := timeout; skip_problematic_titles := skip;
              throttle_delay := delay2; cache_results := caching |}
           sel start_year end_year max_titles target)
  ∧ (∀ timeout skip caching delay1 delay2 selected target,
       agency_composition_key
         {| request_timeout := timeout; skip_problematic_titles := skip;
            throttle_delay := delay1; cache_results := caching |}
         selected target
       = agency_composition_key
           {| request_timeout := timeout; skip_problematic_titles := skip;
              throttle_delay := delay2; cache_results := caching |}
           selected target).
Proof.
  split; [reflexivity|].
  repeat (split; [vm_compute; reflexivity|]).
  split; reflexivity.
Qed.

(** ** Skip list (C3) *)

Lemma get_title_content_skipped cfg net n d max_retries force_refresh w :
  skip_problematic_titles cfg = true → n ∈ skip_list →
  get_title_content cfg net n d max_retries force_refresh w
  = (cached cfg force_refresh (content_cache w !! title_cache_key n d), w).
Proof.
  intros Hskip Hin. unfold get_title_content.
  destruct (cached cfg force_refresh _) as [c|]; [done|].
  by rewrite Hskip, bool_decide_true.
Qed.

Example world_with_title_42_cache :
  content_cache world_with_title_42
    !! title_cache_key (PInt 42) "2025-01-01"
  = Some "<t>public health rules</t>".
Proof. vm_compute. reflexivity. Qed.

(** ** The title loops *)

Lemma count_words_in_xml_value lib content :
  count_words_in_xml lib content
  = Returned (word_count_of lib content).
Proof.
  unfold word_count_of.
  destruct (count_words_in_xml_returns lib content) as [n ->].
  reflexivity.
Qed.

Lemma process_title_step lib cfg net force_refresh target r t :
  process_title lib cfg net force_refresh target r t
  = Returned (title_step lib cfg net force_refresh target r t).
Proof.
  unfold process_title, title_step. destruct (reserved t); [done|].
  destruct (fetch_title cfg net force_refresh target t r) as [content r1].
  simpl. destruct (truthy content); [|done].
  by rewrite count_words_in_xml_value.
Qed.

Lemma for_each_process_title lib cfg net force_refresh target ts r :
  for_each (process_title lib cfg net force_refresh target) ts r
  = Returned (fold_left (title_step lib cfg net force_refresh target) ts r).
Proof.
  revert r. induction ts as [|t ts IH]; intros r; [done|].
  simpl. rewrite process_title_step. simpl. apply IH.
Qed.

Lemma process_title_composition_step lib cfg net target r t :
  process_title_composition lib cfg net target r t
  = if reserved t then r
    else
      let res := fetch_title cfg net (negb (cache_results cfg)) target t r in
      if truthy res.1
      then set_word_count (number t) (word_count_of lib res.1) res.2
      else set_fetch_error (number t) "No content received" res.2.
Proof.
  unfold process_title_composition. destruct (reserved t); [done|].
  destruct (fetch_title cfg net _ target t r) as [content r1].
  simpl. destruct (truthy content); [|done].
  by rewrite count_words_in_xml_value.
Qed.

(** Requests are only ever appended, and a content fetch only requests its
    own URL. *)
Lemma fetch_loop_requests fuel cfg net url key max_retries retries w :
  ∃ k : nat,
    requests (fetch_loop fuel cfg net url key max_retries retries w).2
    = requests w ++ replicate k url.
Proof.
  revert retries w. induction fuel as [|fuel IH]; intros retries w; simpl.
  - exists 0%nat. by rewrite app_nil_r.
  - destruct (retries <=? max_retries); [|exists 0%nat; by rewrite app_nil_r].
    assert (Hone : ∀ w' : world,
              requests w' = requests (log_request url w) →
              ∃ k : nat, requests w' = requests w ++ replicate k url).
    { intros w' ->. by exists 1%nat. }
    assert (Hretry :
              ∃ k : nat,
                requests
                  (if retries + 1 <=? max_retries
                   then fetch_loop fuel cfg net url key max_retries
                          (retries + 1) (log_request url w)
                   else (None, log_request url w)).2
                = requests w ++ replicate k url).
    { destruct (retries + 1 <=? max_retries); [|by apply Hone].
      destruct (IH (retries + 1) (log_request url w)) as [k Hk].
      exists (S k). rewrite Hk. simpl. by rewrite <- app_assoc. }
    destruct (get_title_xml net _ url _) as [status content| |msg];
      [|exact Hretry|by apply Hone].
    destruct (status =? 200).
    { apply Hone. by destruct (cache_results cfg). }
    destruct (status =? 504); [exact Hretry|].
    destruct (status =? 404); by apply Hone.
Qed.

(** The fuel given by [get_title_content] is enough: more fuel changes
    nothing. *)
Lemma fetch_loop_fuel fuel cfg net url key max_retries retries w :
  (Z.to_nat (max_retries + 1 - retries) <= fuel)%nat →
  fetch_loop fuel cfg net url key max_retries retries w
  = fetch_loop (Z.to_nat (max_retries + 1 - retries)) cfg net url key
      max_retries retries w.
Proof.
  revert retries w. induction fuel as [|fuel IH]; intros retries w Hfuel.
  - by replace (Z.to_nat (max_retries + 1 - retries)) with 0%nat by lia.
  - destruct (Z.leb_spec retries max_retries) as [Hle | Hgt].
    + replace (Z.to_nat (max_retries + 1 - retries))
        with (S (Z.to_nat (max_retries + 1 - (retries + 1)))) in * by lia.
      simpl. rewrite (IH (retries + 1)) by lia. done.
    + replace (Z.to_nat (max_retries + 1 - retries)) with 0%nat by lia.
      simpl. destruct (Z.leb_spec retries max_retries); [lia | done].
Qed.

Lemma get_title_content_requests cfg net n d max_retries force_refresh w :
  ∃ k : nat,
    requests (get_title_content cfg net n d max_retries force_refresh w).2
    = requests w ++ replicate k (title_url n d).
Proof.
  unfold get_title_content.
  destruct (cached cfg force_refresh _);
    [exists 0%nat; by rewrite app_nil_r|].
  destruct (_ && _); [exists 0%nat; by rewrite app_nil_r|].
  apply fetch_loop_requests.
Qed.

Lemma truthy_Some content :
  truthy content = true ↔ ∃ s, content = Some s ∧ s ≠ "".
Proof.
  destruct content as [[|c s]|]; simpl; split; try done.
  - intros (s & [= <-] & Hne). done.
  - intros _. by exists (String c s).
  - intros (s & [=] & _).
Qed.

Lemma run_inv_start lib cfg net force_refresh target listed w0 :
  run_inv lib cfg net force_refresh target listed w0 (start_run w0).
Proof.
  unfold run_inv, start_run; simpl. split; [|split; [|split]].
  - intros c Hc. by apply elem_of_nil in Hc.
  - exists []. split; [by rewrite app_nil_r|].
    intros url Hu. by apply elem_of_nil in Hu.
  - intros n. split.
    + intros Hn. by apply elem_of_nil in Hn.
    + intros (c & Hc & _). by apply elem_of_nil in Hc.
  - intros n wc [=].
Qed.

(** The invariant survives a fetch followed by the recording of its
    result, whatever else the body writes. *)
Lemma run_inv_fetch lib cfg net force_refresh target listed w0 r t r' :
  run_inv lib cfg net force_refresh target listed w0 r →
  listed t → reserved t = false →
  let res := fetch_title cfg net force_refresh target t r in
  calls r' = calls res.2 →
  run_world r' = run_world res.2 →
  title_word_counts r'
  = (if truthy res.1
     then PyDict.set (title_word_counts r) (number t) (word_count_of lib res.1)
     else title_word_counts r) →
  run_inv lib cfg net force_refresh target listed w0 r'.
Proof.
  intros (Hcalls & (new & Hreq & Hnew) & Hkeys & Hvals) Hl Hres res Hc' Hw' Htwc.
  unfold fetch_title in res. simpl in Hc', Hw', Htwc.
  set (d := date_str (use_date target t)) in *.
  set (got := get_title_content cfg net (number t) d 1 force_refresh
                (run_world r)) in *.
  set (c0 := {| fc_title := t; fc_date := d; fc_result := got.1 |}) in *.
  assert (Hin0 : c0 ∈ calls r').
  { rewrite Hc', elem_of_app, list_elem_of_singleton. by right. }
  assert (Hmono : ∀ c, c ∈ calls r → c ∈ calls r').
  { intros c Hc. rewrite Hc', elem_of_app. by left. }
  split; [|split; [|split]].
  - intros c. rewrite Hc', elem_of_app, list_elem_of_singleton.
    intros [Hc | ->]; [by apply Hcalls|].
    repeat split; try done. by exists (run_world r).
  - destruct (get_title_content_requests cfg net (number t) d 1 force_refresh
                (run_world r)) as [k Hk].
    exists (new ++ replicate k (title_url (number t) d)). split.
    + rewrite Hw'. fold got in Hk. rewrite Hk, Hreq. by rewrite app_assoc.
    + intros url. rewrite elem_of_app. intros [Hu | Hu].
      * destruct (Hnew url Hu) as (c & Hc & ->). eauto.
      * apply elem_of_replicate in Hu as [-> _]. by exists c0.
  - intros n. rewrite Htwc. destruct (truthy got.1) eqn:Htr.
    + rewrite PyDictFacts.keys_set, Hkeys. split.
      * intros [-> | (c & Hc & Hn & Ht)]; [by exists c0 | exists c; eauto].
      * intros (c & Hc & Hn & Ht). rewrite Hc' in Hc.
        apply elem_of_app in Hc as [Hc | Hc]; [right; eauto|].
        apply list_elem_of_singleton in Hc as ->. by left.
    + rewrite Hkeys. split.
      * intros (c & Hc & Hn & Ht). exists c; eauto.
      * intros (c & Hc & Hn & Ht). rewrite Hc' in Hc.
        apply elem_of_app in Hc as [Hc | Hc]; [eauto|].
        apply list_elem_of_singleton in Hc as ->. simpl in Ht. congruence.
  - intros n wc. rewrite Htwc. destruct (truthy got.1) eqn:Htr.
    + destruct (decide (number t = n)) as [<- | Hne].
      * rewrite PyDictFacts.get_set_eq. intros [= <-].
        apply truthy_Some in Htr as (content & Hgot & Hne).
        exists c0, content. repeat split; try done.
        rewrite <- Hgot. apply count_words_in_xml_value.
      * rewrite PyDictFacts.get_set_ne by done. intros Hg.
        destruct (Hvals n wc Hg) as (c & content & Hc & ?).
        exists c, content. split; [by apply Hmono | done].
    + intros Hg. destruct (Hvals n wc Hg) as (c & content & Hc & ?).
      exists c, content. split; [by apply Hmono | done].
Qed.

Lemma run_inv_title_step lib cfg net force_refresh target listed w0 r t :
  run_inv lib cfg net force_refresh target listed w0 r → listed t →
  run_inv lib cfg net force_refresh target listed w0
    (title_step lib cfg net force_refresh target r t).
Proof.
  intros Hinv Hl. unfold title_step.
  destruct (reserved t) eqn:Hres; [done|].
  eapply run_inv_fetch; try done.
  - by destruct (truthy _).
  - by destruct (truthy _).
  - by destruct (truthy _).
Qed.

Lemma run_inv_composition_step lib cfg net target listed w0 r t :
  run_inv lib cfg net (negb (cache_results cfg)) target listed w0 r →
  listed t →
  run_inv lib cfg net (negb (cache_results cfg)) target listed w0
    (process_title_composition lib cfg net target r t).
Proof.
  intros Hinv Hl. rewrite process_title_composition_step. cbv zeta.
  destruct (reserved t) eqn:Hres; [done|].
  eapply run_inv_fetch; try done.
  - by destruct (truthy _).
  - by destruct (truthy _).
  - by destruct (truthy _).
Qed.

Lemma run_inv_title_loop lib cfg net force_refresh target listed w0 ts r :
  run_inv lib cfg net force_refresh target listed w0 r → Forall listed ts →
  run_inv lib cfg net force_refresh target listed w0
    (fold_left (title_step lib cfg net force_refresh target) ts r).
Proof.
  revert r. induction ts as [|t ts IH]; intros r Hinv Hall; [done|].
  apply Forall_cons in Hall as [Ht Hall]. simpl.
  apply IH; [|done]. by apply run_inv_title_step.
Qed.

Lemma run_inv_composition_loop lib cfg net target listed w0 ts r :
  run_inv lib cfg net (negb (cache_results cfg)) target listed w0 r →
  Forall listed ts →
  run_inv lib cfg net (negb (cache_results cfg)) target listed w0
    (fold_left (process_title_composition lib cfg net target) ts r).
Proof.
  revert r. induction ts as [|t ts IH]; intros r Hinv Hall; [done|].
  apply Forall_cons in Hall as [Ht Hall]. simpl.
  apply IH; [|done]. by apply run_inv_composition_step.
Qed.

Lemma run_inv_unreserved lib cfg net force_refresh target titles_info w0 r :
  run_inv lib cfg net force_refresh target (λ t, t ∈ titles_info) w0 r →
  unreserved_run titles_info w0 r.
Proof.
  intros (Hcalls & (new & Hreq & Hnew) & Hkeys & Hvals).
  assert (Hk : ∀ n, n ∈ PyDict.keys (title_word_counts r) →
               ∃ t, t ∈ titles_info ∧ reserved t = false ∧ number t = n).
  { intros n Hn. apply Hkeys in Hn as (c & Hc & Hnum & _).
    destruct (Hcalls c Hc) as (? & ? & _). by exists (fc_title c). }
  split; [|split; [|split]]; [| |exact Hk|].
  - intros c Hc. destruct (Hcalls c Hc) as (? & ? & _). done.
  - exists new. split; [done|]. intros url Hu.
    destruct (Hnew url Hu) as (c & Hc & ->).
    destruct (Hcalls c Hc) as (? & ? & _).
    by exists (fc_title c), (fc_date c).
  - intros t Ht Hres Huniq Hin.
    destruct (Hk _ Hin) as (t' & Ht' & Hres' & Hnum).
    rewrite (Huniq t' Ht' Hnum) in Hres'. congruence.
Qed.

Lemma get_keys_Some {V} (d : list (pyval * V)) n :
  n ∈ PyDict.keys d → ∃ v, PyDict.get d n = Some v.
Proof.
  unfold PyDict.keys. induction d as [|[k v] d IH]; simpl.
  - by intros ?%elem_of_nil.
  - destruct (decide (n = k)) as [->|Hne]; [by eexists|].
    intros [?|Hin]%elem_of_cons; [done | by apply IH].
Qed.

Section Fetches.
Context (lib : library) (cfg : config) (net : network).
Context (force_refresh : bool) (target : date).
Context (step : run → title_info → run).
Hypothesis step_reserved : ∀ r t, reserved t = true → step r t = r.
Hypothesis step_fetch : ∀ r t,
  reserved t = false →
  let res :=
    get_title_content cfg net (number t) (date_str (use_date target t)) 1
      force_refresh (run_world r) in
  run_world (step r t) = res.2
  ∧ title_word_counts (step r t)
    = if truthy res.1
      then PyDict.set (title_word_counts r) (number t)
             (word_count_of lib res.1)
      else title_word_counts r.

Lemma loop_fetches ts : ∀ r,
  let f := fetches cfg net force_refresh target ts (run_world r) in
  let r' := fold_left step ts r in
  run_world r' = f.2
  ∧ (∀ n, n ∈ PyDict.keys (title_word_counts r')
          ↔ n ∈ PyDict.keys (title_word_counts r)
            ∨ ∃ t content,
                (t, Some content) ∈ f.1 ∧ number t = n ∧ content ≠ "")
  ∧ (∀ n wc,
        PyDict.get (title_word_counts r') n = Some wc →
        PyDict.get (title_word_counts r) n = Some wc
        ∨ ∃ t content,
            (t, Some content) ∈ f.1 ∧ number t = n ∧ content ≠ ""
            ∧ count_words_in_xml lib (Some content) = Returned wc).
Proof.
  induction ts as [|t ts IH]; intros r; cbn [fetches fold_left].
  - cbv zeta. cbn [fst snd]. split; [done|]. split.
    + intros n. split; [by left|].
      by intros [? | (? & ? & ?%elem_of_nil & _)].
    + intros n wc Hg. by left.
  - destruct (reserved t) eqn:Hres.
    { rewrite (step_reserved r t Hres). apply IH. }
    destruct (step_fetch r t Hres) as [Hw Htwc]. cbv zeta in Hw, Htwc.
    set (res := get_title_content cfg net (number t)
                  (date_str (use_date target t)) 1 force_refresh
                  (run_world r)) in *.
    destruct (IH (step r t)) as (IHw & IHk & IHv). cbv zeta in IHw, IHk, IHv.
    rewrite Hw in IHw, IHk, IHv. cbv zeta. cbn [fst snd].
    set (rest := fetches cfg net force_refresh target ts res.2) in *.
    split; [done|]. split.
    + intros n. rewrite IHk, Htwc. split.
      * intros [Hn | (t' & c & Hin & Hnum & Hne)].
        -- destruct (truthy res.1) eqn:Htr; [|by left].
           apply PyDictFacts.keys_set in Hn as [-> | Hn]; [|by left].
           apply truthy_Some in Htr as (c & Hc & Hne).
           right. exists t, c. rewrite <- Hc. split; [left | done].
        -- right. exists t', c. split; [by right | done].
      * intros [Hn | (t' & c & Hin & Hnum & Hne)].
        -- left. destruct (truthy res.1); [|done].
           apply PyDictFacts.keys_set. by right.
        -- apply elem_of_cons in Hin as [[= -> Hc] | Hin].
           ++ left. assert (truthy res.1 = true) as ->
                by (apply truthy_Some; by exists c).
              apply PyDictFacts.keys_set. by left.
           ++ right. by exists t', c.
    + intros n wc Hg. destruct (IHv n wc Hg) as [Hs | (t' & c & Hin & ?)].
      * rewrite Htwc in Hs. destruct (truthy res.1) eqn:Htr; [|by left].
        destruct (decide (number t = n)) as [<- | Hne].
        -- rewrite PyDictFacts.get_set_eq in Hs. injection Hs as <-.
           apply truthy_Some in Htr as (c & Hc & Hne).
           right. exists t, c. rewrite <- Hc.
           split; [left|]. split; [done|]. split; [done|].
           apply count_words_in_xml_value.
        -- rewrite PyDictFacts.get_set_ne in Hs by done. by left.
      * right. exists t', c. split; [by right | done].
Qed.

Lemma loop_truthy_entries ts w :
  truthy_entries lib cfg net force_refresh target ts w
    (fold_left step ts (start_run w)).
Proof.
  destruct (loop_fetches ts (start_run w)) as (Hw & Hk & Hv).
  cbv zeta in Hw, Hk, Hv. cbn [start_run run_world title_word_counts] in *.
  unfold truthy_entries. cbv zeta.
  assert (Hkeys : ∀ n,
            n ∈ PyDict.keys
                  (title_word_counts (fold_left step ts (start_run w)))
            ↔ ∃ t content,
                (t, Some content)
                ∈ (fetches cfg net force_refresh target ts w).1
                ∧ number t = n ∧ content ≠ "").
  { intros n. rewrite Hk. split; [|by right].
    by intros [?%elem_of_nil | ?]. }
  assert (Hvals : ∀ n wc,
            PyDict.get (title_word_counts (fold_left step ts (start_run w))) n
            = Some wc →
            ∃ t content,
              (t, Some content)
              ∈ (fetches cfg net force_refresh target ts w).1
              ∧ number t = n ∧ content ≠ ""
              ∧ count_words_in_xml lib (Some content) = Returned wc).
  { intros n wc Hg. by destruct (Hv n wc Hg) as [[=] | ?]. }
  split; [done|]. split; [done|]. split; [done|].
  intros t content Hin Hne Huniq.
  assert (Hn : number t
               ∈ PyDict.keys
                   (title_word_counts (fold_left step ts (start_run w))))
    by (apply Hkeys; by exists t, content).
  apply get_keys_Some in Hn as [wc Hg]. exists wc. split; [done|].
  destruct (Hvals _ _ Hg) as (t' & c' & Hin' & Hnum & Hne' & Hcount).
  by rewrite <- (Huniq t' c' Hin' Hnum Hne').
Qed.
End Fetches.

Lemma title_loop_truthy_entries lib cfg net force_refresh target ts w :
  truthy_entries lib cfg net force_refresh target ts w
    (fold_left (title_step lib cfg net force_refresh target) ts (start_run w)).
Proof.
  apply loop_truthy_entries.
  - intros r t Hres. unfold title_step. by rewrite Hres.
  - intros r t Hres. cbv zeta. unfold title_step. rewrite Hres.
    unfold fetch_title. cbn [fst snd].
    by destruct (truthy _).
Qed.

Lemma composition_loop_truthy_entries lib cfg net target ts w :
  truthy_entries lib cfg net (negb (cache_results cfg)) target ts w
    (fold_left (process_title_composition lib cfg net target) ts
       (start_run w)).
Proof.
  apply loop_truthy_entries.
  - intros r t Hres. rewrite process_title_composition_step. by rewrite Hres.
  - intros r t Hres. cbv zeta. rewrite process_title_composition_step.
    rewrite Hres. cbv zeta. unfold fetch_title. cbn [fst snd].
    by destruct (truthy _).
Qed.

Lemma capped_listed max_titles (titles_info : list title_info) :
  Forall (λ t, t ∈ titles_info) (capped max_titles titles_info).
Proof.
  apply Forall_forall. intros t Ht. unfold capped in Ht.
  by apply (subseteq_take _ titles_info) in Ht.
Qed.

Lemma snapshot_word_counts_inv lib cfg net target max_titles titles_info w :
  ∃ r,
    snapshot_word_counts lib cfg net target max_titles titles_info w
    = Returned r
    ∧ run_inv lib cfg net (negb (cache_results cfg)) target
        (λ t, t ∈ titles_info) w r.
Proof.
  unfold snapshot_word_counts. rewrite for_each_process_title.
  eexists. split; [done|].
  apply run_inv_title_loop; [apply run_inv_start | apply capped_listed].
Qed.

Lemma year_word_counts_inv lib cfg net yr max_titles titles_info w :
  ∃ r,
    year_word_counts lib cfg net yr max_titles titles_info w = Returned r
    ∧ run_inv lib cfg net false {| year := yr; month := 1; day := 1 |}
        (λ t, t ∈ titles_info) w r.
Proof.
  unfold year_word_counts. rewrite for_each_process_title.
  eexists. split; [done|].
  apply run_inv_title_loop; [apply run_inv_start | apply capped_listed].
Qed.

Lemma append_title_match_listed (titles_info : list title_info) owned acc :
  (∀ x, x ∈ acc → x ∈ titles_info) →
  ∀ x, x ∈ fold_left (append_title_match titles_info) owned acc →
       x ∈ titles_info.
Proof.
  revert acc. induction owned as [|o owned IH]; intros acc Hacc x; simpl;
    [apply Hacc|].
  apply IH. intros y. unfold append_title_match.
  destruct (list_find _ titles_info) as [[i found]|] eqn:Hfind; [|apply Hacc].
  rewrite elem_of_app, list_elem_of_singleton. intros [Hy | ->];
    [by apply Hacc|].
  apply list_find_Some in Hfind as (Hi & _).
  by apply list_elem_of_lookup_2 in Hi.
Qed.

Lemma relevant_titles_listed (titles_info : list title_info) owned :
  Forall (λ t, t ∈ titles_info) (relevant_titles titles_info owned).
Proof.
  apply Forall_forall. intros t. unfold relevant_titles.
  destruct (filter _ titles_info) as [|m ms] eqn:Hbm.
  - destruct (fold_left _ owned []) as [|b bs] eqn:Hbt.
    + intros Hx. by apply (subseteq_take 10 titles_info).
    + rewrite <- Hbt. apply append_title_match_listed.
      intros x Hx. by apply elem_of_nil in Hx.
  - rewrite <- Hbm. intros Hx. by apply list_elem_of_filter in Hx as [_ ?].
Qed.

Lemma analyze_composition_inv lib cfg net agencies titles_info selected target w :
  run_inv lib cfg net (negb (cache_results cfg)) target
    (λ t, t ∈ titles_info) w
    (comp_run
       (analyze_composition lib cfg net agencies titles_info selected target w)).
Proof.
  unfold analyze_composition.
  destruct (default [] _) as [|o owned]; simpl; [apply run_inv_start|].
  match goal with
  | |- context [fold_left ?f ?l ?s] =>
      assert (Hr : run_inv lib cfg net (negb (cache_results cfg)) target
                     (λ t, t ∈ titles_info) w (fold_left f l s))
        by (apply run_inv_composition_loop;
            [apply run_inv_start | apply relevant_titles_listed]);
      destruct (title_word_counts (fold_left f l s)); exact Hr
  end.
Qed.

Lemma over_years_calls lib cfg net idx titles_info max_titles years acc cs w :
  ∃ wcy newc new w',
    over_years lib cfg net idx titles_info max_titles years acc cs w
    = Returned (wcy, cs ++ newc, w')
    ∧ (∀ c, c ∈ newc →
            fc_title c ∈ titles_info ∧ reserved (fc_title c) = false)
    ∧ requests w' = requests w ++ new
    ∧ (∀ url, url ∈ new →
              ∃ t d, t ∈ titles_info ∧ reserved t = false
                     ∧ url = title_url (number t) d).
Proof.
  revert acc cs w. induction years as [|yr years IH]; intros acc cs w; simpl.
  - exists acc, [], [], w. rewrite !app_nil_r.
    split; [done|]. split; [|split; [done|]].
    + intros c Hc. by apply elem_of_nil in Hc.
    + intros url Hu. by apply elem_of_nil in Hu.
  - destruct (year_word_counts_inv lib cfg net yr max_titles titles_info w)
      as (r & -> & Hinv).
    apply run_inv_unreserved in Hinv as (Hc & (new1 & Hreq1 & Hnew1) & _).
    simpl.
    destruct (IH (PyDict.set acc yr
                    (agency_word_counts (title_word_counts r) idx))
                (cs ++ calls r) (run_world r))
      as (wcy & newc & new2 & w' & -> & Hc2 & Hreq2 & Hnew2).
    exists wcy, (calls r ++ newc), (new1 ++ new2), w'.
    rewrite <- app_assoc. split; [done|]. split; [|split].
    + intros c H.
      apply elem_of_app in H as [H | H]; [by apply Hc | by apply Hc2].
    + by rewrite Hreq2, Hreq1, app_assoc.
    + intros url Hu.
      apply elem_of_app in Hu as [Hu | Hu]; [by apply Hnew1 | by apply Hnew2].
Qed.

(** ** Reserved titles (C8) *)

(** C8 (reserved-title exclusion).  In the snapshot, in every year of the
    time series and in the composition, for any date, configuration,
    network behaviour and session state: the title loop returns, every
    call of [get_title_content] and every URL requested is for a
    non-reserved title of the catalog, and every key of the word-count map
    (from which alone the per-agency totals are computed) is the number of
    a non-reserved title; a reserved title whose number is unique in the
    catalog is not in the map. *)
Theorem reserved_titles_never_fetched lib cfg net agencies titles_info w :
  (∀ target max_titles,
     ∃ r,
       snapshot_word_counts lib cfg net target max_titles titles_info w
       = Returned r
       ∧ unreserved_run titles_info w r)
  ∧ (∀ yr max_titles,
       ∃ r,
         year_word_counts lib cfg net yr max_titles titles_info w = Returned r
         ∧ unreserved_run titles_info w r)
  ∧ (∀ years max_titles,
       ∃ word_counts_by_year cs new w',
         calculate_word_counts_over_time lib cfg net agencies titles_info
           years max_titles w
         = Returned (word_counts_by_year, cs, w')
         ∧ (∀ c, c ∈ cs →
                 fc_title c ∈ titles_info ∧ reserved (fc_title c) = false)
         ∧ requests w' = requests w ++ new
         ∧ (∀ url, url ∈ new →
                   ∃ t d, t ∈ titles_info ∧ reserved t = false
                          ∧ url = title_url (number t) d))
  ∧ (∀ selected_agency target,
       unreserved_run titles_info w
         (comp_run
            (analyze_composition lib cfg net agencies titles_info
               selected_agency target w))).
Proof.
  split; [|split; [|split]].
  - intros target max_titles.
    destruct (snapshot_word_counts_inv lib cfg net target max_titles
                titles_info w) as (r & Hr & Hinv).
    exists r. split; [done|]. by eapply run_inv_unreserved.
  - intros yr max_titles.
    destruct (year_word_counts_inv lib cfg net yr max_titles titles_info w)
      as (r & Hr & Hinv).
    exists r. split; [done|]. by eapply run_inv_unreserved.
  - intros years max_titles. unfold calculate_word_counts_over_time.
    destruct (over_years_calls lib cfg net
                (title_to_agencies (create_agency_title_mapping agencies))
                titles_info max_titles years [] [] w)
      as (wcy & newc & new & w' & Hr & Hc & Hreq & Hnew).
    exists wcy, newc, new, w'. done.
  - intros selected target. eapply run_inv_unreserved.
    apply analyze_composition_inv.
Qed.

(** ** Truthy contents (C10) *)

(** C10 (only non-empty contents are counted).  In the snapshot, in a year
    of the time series and in the composition alike, the loop fetches
    every non-reserved title of its list, each in the session left by the
    fetch before it, and a title number is a key of the run's word-count
    map if and only if [get_title_content] returned, for a listed title of
    that number, a content that is neither [None] nor empty.  Every
    recorded count is the word count of such a content, and a title whose
    content is non-empty is recorded with the count of that very content
    unless another fetch of its number returned a different one.  An empty
    text, like a missing one, never yields an entry. *)
Theorem word_count_map_truthy lib cfg net agencies titles_info w :
  (∀ target max_titles,
     ∃ r,
       snapshot_word_counts lib cfg net target max_titles titles_info w
       = Returned r
       ∧ truthy_entries lib cfg net (negb (cache_results cfg)) target
           (capped max_titles titles_info) w r)
  ∧ (∀ yr max_titles,
       ∃ r,
         year_word_counts lib cfg net yr max_titles titles_info w = Returned r
         ∧ truthy_entries lib cfg net false
             {| year := yr; month := 1; day := 1 |}
             (capped max_titles titles_info) w r)
  ∧ (∀ selected_agency target,
       let c :=
         analyze_composition lib cfg net agencies titles_info
           selected_agency target w in
       truthy_entries lib cfg net (negb (cache_results cfg)) target
         (comp_titles c) w (comp_run c)).
Proof.
  split; [|split].
  - intros target max_titles. unfold snapshot_word_counts.
    rewrite for_each_process_title. eexists. split; [done|].
    apply title_loop_truthy_entries.
  - intros yr max_titles. unfold year_word_counts.
    rewrite for_each_process_title. eexists. split; [done|].
    apply title_loop_truthy_entries.
  - intros selected target. cbv zeta. unfold analyze_composition.
    destruct (default [] _) as [|o owned]; cbv zeta.
    { apply (composition_loop_truthy_entries lib cfg net target [] w). }
    match goal with
    | |- context [fold_left ?f ?l ?s] =>
        pose proof (composition_loop_truthy_entries lib cfg net target l w)
          as Hr;
        destruct (title_word_counts (fold_left f l s)); exact Hr
    end.
Qed.

(** In a fresh session the snapshot of the sample catalog counts titles 1,
    26, 27 and 28; title 30, whose content holds markup only, is counted
    with 0 words; the skipped title 42 and the reserved title 35 have no
    entry. *)
Example word_count_map_sample :
  snapshot_word_counts sample_library default_config sample_network
    (mk_date 2025 1 1) 50 sample_titles empty_world
  = Returned
      (fold_left
         (title_step sample_library default_config sample_network false
            (mk_date 2025 1 1))
         sample_titles (start_run empty_world))
  ∧ title_word_counts
      (fold_left
         (title_step sample_library default_config sample_network false
            (mk_date 2025 1 1))
         sample_titles (start_run empty_world))
    = [(PInt 1, 2%nat); (PInt 26, 1%nat); (PInt 27, 1%nat);
       (PInt 28, 1%nat); (PInt 30, 0%nat)].
Proof. split; vm_compute; reflexivity. Qed.

(** ** Skip list and the content cache (C3) *)

(** C3, as the code has it.  For a title on the skip list with skipping
    enabled, [get_title_content] never issues a request and leaves the
    session as it was, for every date, retry setting and session: it
    returns the cached content when caching is on, [force_refresh] is off
    and the session holds an entry for the title and date, and [None]
    otherwise.  Whenever it returns [None], the loop bodies add nothing to
    the word-count map. *)
Theorem skipped_title_no_request cfg net n
    (Hskip : skip_problematic_titles cfg = true) (Hin : n ∈ skip_list) :
  (∀ d max_retries force_refresh w,
     get_title_content cfg net n d max_retries force_refresh w
     = (if negb force_refresh && cache_results cfg
        then content_cache w !! title_cache_key n d
        else None,
        w))
  ∧ (∀ lib force_refresh target t r,
       number t = n →
       (get_title_content cfg net n (date_str (use_date target t)) 1
          force_refresh (run_world r)).1 = None →
       ∃ r',
         process_title lib cfg net force_refresh target r t = Returned r'
         ∧ title_word_counts r' = title_word_counts r
         ∧ run_world r' = run_world r)
  ∧ (∀ lib target t r,
       number t = n →
       (get_title_content cfg net n (date_str (use_date target t)) 1
          (negb (cache_results cfg)) (run_world r)).1 = None →
       let r' := process_title_composition lib cfg net target r t in
       title_word_counts r' = title_word_counts r
       ∧ run_world r' = run_world r).
Proof.
  split; [|split].
  - intros d max_retries force_refresh w.
    by rewrite get_title_content_skipped.
  - intros lib force_refresh target t r Hn Hnone.
    rewrite process_title_step. eexists. split; [done|].
    unfold title_step. destruct (reserved t); [done|].
    unfold fetch_title. simpl. rewrite Hn, Hnone. simpl.
    by rewrite get_title_content_skipped.
  - intros lib target t r Hn Hnone. cbv zeta.
    rewrite process_title_composition_step.
    destruct (reserved t); [done|].
    unfold fetch_title. simpl. rewrite Hn, Hnone. simpl.
    by rewrite get_title_content_skipped.
Qed.

Lemma skipped_title_no_request_witness :
  skip_problematic_titles default_config = true
  ∧ PInt 42 ∈ skip_list
  ∧ get_title_content default_config sample_network (PInt 42) "2025-01-01" 1
      false empty_world
    = (None, empty_world).
Proof.
  assert (Hskip : skip_problematic_titles default_config = true)
    by reflexivity.
  assert (Hin : PInt 42 ∈ skip_list)
    by (apply (bool_decide_unpack _); vm_compute; exact I).
  split; [exact Hskip|]. split; [exact Hin|].
  exact (proj1 (skipped_title_no_request default_config sample_network
                  (PInt 42) Hskip Hin)
           "2025-01-01" 1 false empty_world).
Defined.

(** C3 as stated fails: with skipping enabled, title 42 on the skip list
    and its content cached by an earlier fetch made with skipping off, the
    cache lookup comes first; [get_title_content] returns the cached
    content, not [None], and the snapshot records title 42 with its three
    words. *)
Lemma skip_list_precedence_counterexample :
  skip_problematic_titles default_config = true
  ∧ PInt 42 ∈ skip_list
  ∧ (get_title_content default_config sample_network (PInt 42) "2025-01-01"
       1 false world_with_title_42).1
    = Some "<t>public health rules</t>"
  ∧ ∃ r,
      snapshot_word_counts sample_library default_config sample_network
        (mk_date 2025 1 1) 50 sample_titles world_with_title_42
      = Returned r
      ∧ title_word_counts r
        = [(PInt 1, 2%nat); (PInt 26, 1%nat); (PInt 27, 1%nat);
           (PInt 28, 1%nat); (PInt 30, 0%nat); (PInt 42, 3%nat)].
Proof.
  split; [reflexivity|].
  split; [apply (bool_decide_unpack _); vm_compute; exact I|].
  split; [vm_compute; reflexivity|].
  eexists. split; [vm_compute; reflexivity|]. vm_compute. reflexivity.
Qed.

(** ** Composition scope (C7) *)

Lemma append_title_match_sound (titles_info : list title_info)
    (P : title_info → Prop) owned acc :
  (∀ x, x ∈ acc → P x) →
  (∀ o t, o ∈ owned → t ∈ titles_info →
          py_str (number t) = py_str o → P t) →
  ∀ x, x ∈ fold_left (append_title_match titles_info) owned acc → P x.
Proof.
  revert acc. induction owned as [|o owned IH]; intros acc Hacc Hown x; simpl;
    [apply Hacc|].
  apply IH.
  - intros y. unfold append_title_match.
    destruct (list_find _ titles_info) as [[i found]|] eqn:Hfind;
      [|apply Hacc].
    rewrite elem_of_app, list_elem_of_singleton. intros [Hy | ->];
      [by apply Hacc|].
    apply list_find_Some in Hfind as (Hi & Heq & _).
    apply (Hown o); [left | by apply list_elem_of_lookup_2 in Hi | done].
  - intros o' t Ho'. apply Hown. by right.
Qed.

Lemma append_title_match_mono (titles_info : list title_info) owned acc :
  ∀ x, x ∈ acc → x ∈ fold_left (append_title_match titles_info) owned acc.
Proof.
  revert acc. induction owned as [|o owned IH]; intros acc x Hx; simpl;
    [done|].
  apply IH. unfold append_title_match.
  destruct (list_find _ titles_info) as [[i found]|]; [|done].
  rewrite elem_of_app. by left.
Qed.

Lemma append_title_match_complete (titles_info : list title_info) owned acc :
  ∀ n t, n ∈ owned → t ∈ titles_info → py_str (number t) = py_str n →
         ∃ t', t' ∈ fold_left (append_title_match titles_info) owned acc
               ∧ py_str (number t') = py_str n.
Proof.
  revert acc. induction owned as [|o owned IH]; intros acc n t Hn Ht Heq.
  - by apply elem_of_nil in Hn.
  - simpl. apply elem_of_cons in Hn as [-> | Hn]; [|by eapply IH].
    destruct (list_find_elem_of
                (λ t, py_str (number t) = py_str o) titles_info t Ht Heq)
      as [[i found] Hfind].
    exists found. split.
    + apply append_title_match_mono. unfold append_title_match.
      rewrite Hfind, elem_of_app, list_elem_of_singleton. by right.
    + by apply list_find_Some in Hfind as (_ & ? & _).
Qed.

Lemma analyze_composition_titles lib cfg net agencies titles_info selected
    target w :
  comp_titles
    (analyze_composition lib cfg net agencies titles_info selected target w)
  = match
      default [] (PyDict.get (create_agency_title_mapping agencies) selected)
    with
    | [] => []
    | (_ :: _) as owned => relevant_titles titles_info owned
    end.
Proof.
  unfold analyze_composition.
  destruct (default [] _) as [|o owned]; [done|].
  simpl. by destruct (title_word_counts _).
Qed.

Lemma analyze_composition_calls lib cfg net agencies titles_info selected
    target w :
  let c :=
    analyze_composition lib cfg net agencies titles_info selected target w in
  ∀ call, call ∈ calls (comp_run c) → fc_title call ∈ comp_titles c.
Proof.
  unfold analyze_composition.
  destruct (default [] _) as [|o owned]; simpl.
  { intros call Hc. by apply elem_of_nil in Hc. }
  match goal with
  | |- context [fold_left ?f ?l ?s] =>
      assert (Hr : run_inv lib cfg net (negb (cache_results cfg)) target
                     (λ t, t ∈ l) w (fold_left f l s))
        by (apply run_inv_composition_loop;
            [apply run_inv_start | by apply Forall_forall]);
      destruct Hr as (Hc & _);
      destruct (title_word_counts (fold_left f l s));
      simpl; intros call Hcall; by destruct (Hc call Hcall)
  end.
Qed.

Lemma relevant_titles_sound (titles_info : list title_info) owned :
  (∃ t n, t ∈ titles_info ∧ n ∈ owned ∧ py_str (number t) = py_str n) →
  ∀ t, t ∈ relevant_titles titles_info owned →
       t ∈ titles_info ∧ ∃ n, n ∈ owned ∧ py_str (number t) = py_str n.
Proof.
  intros (t0 & n0 & Ht0 & Hn0 & Heq0) t. unfold relevant_titles.
  destruct (filter _ titles_info) as [|m ms] eqn:Hbm.
  - destruct (append_title_match_complete titles_info owned [] n0 t0)
      as (t' & Ht' & _); [done..|].
    destruct (fold_left _ owned []) as [|b bs] eqn:Hbt;
      [by apply elem_of_nil in Ht'|].
    rewrite <- Hbt.
    apply (append_title_match_sound titles_info
             (λ t, t ∈ titles_info
                   ∧ ∃ n, n ∈ owned ∧ py_str (number t) = py_str n)).
    + intros x Hx. by apply elem_of_nil in Hx.
    + intros o x Ho Hx Heq. split; [done|]. by exists o.
  - rewrite <- Hbm. intros Ht. apply list_elem_of_filter in Ht as [Hin Ht].
    split; [done|]. by exists (PStr (py_str (number t))).
Qed.

Lemma relevant_titles_complete (titles_info : list title_info) owned :
  (∀ n, n ∈ owned → ∃ z, n = PInt z) →
  ∀ n t, n ∈ owned → t ∈ titles_info → py_str (number t) = py_str n →
         ∃ t', t' ∈ relevant_titles titles_info owned
               ∧ py_str (number t') = py_str n.
Proof.
  intros Hint n t Hn Ht Heq. unfold relevant_titles.
  destruct (filter _ titles_info) as [|m ms] eqn:Hbm.
  - destruct (append_title_match_complete titles_info owned [] n t)
      as (t' & Ht' & Heq'); [done..|].
    destruct (fold_left _ owned []) as [|b bs] eqn:Hbt;
      [by apply elem_of_nil in Ht'|].
    by exists t'.
  - assert (Hm : m ∈ filter
                   (λ t, PStr (py_str (number t)) ∈ owned) titles_info)
      by (rewrite Hbm; left).
    apply list_elem_of_filter in Hm as [Hm _].
    destruct (Hint _ Hm) as [z [=]].
Qed.

Lemma relevant_titles_fallback (titles_info : list title_info) owned :
  (∀ t n, t ∈ titles_info → n ∈ owned → py_str (number t) ≠ py_str n) →
  relevant_titles titles_info owned = take 10 titles_info.
Proof.
  intros Hno. unfold relevant_titles.
  destruct (filter _ titles_info) as [|m ms] eqn:Hbm.
  - destruct (fold_left _ owned []) as [|b bs] eqn:Hbt; [done|].
    exfalso.
    apply (append_title_match_sound titles_info (λ _, False) owned [])
      with (x := b).
    + intros x Hx. by apply elem_of_nil in Hx.
    + intros o t Ho Ht Heq. by apply (Hno t o).
    + rewrite Hbt. left.
  - exfalso.
    assert (Hm : m ∈ filter
                   (λ t, PStr (py_str (number t)) ∈ owned) titles_info)
      by (rewrite Hbm; left).
    apply list_elem_of_filter in Hm as [Hm Hin].
    by apply (Hno m (PStr (py_str (number m)))).
Qed.

(** C7, as the code has it.  The composition has no title cap; it only
    fetches titles of its own title list.  If some catalog title carries
    the number of an owned reference (compared as text), every title of
    that list is a catalog title with the number of an owned reference,
    and, the references being integers, every owned reference that occurs
    in the catalog is in the list.  If the agency owns references but none
    of them occurs in the catalog, the list is the first ten titles of the
    catalog. *)
Theorem composition_scope lib cfg net agencies titles_info selected target w :
  let owned :=
    default [] (PyDict.get (create_agency_title_mapping agencies) selected) in
  let c :=
    analyze_composition lib cfg net agencies titles_info selected target w in
  (∀ call, call ∈ calls (comp_run c) → fc_title call ∈ comp_titles c)
  ∧ ((∃ t n, t ∈ titles_info ∧ n ∈ owned ∧ py_str (number t) = py_str n) →
     (∀ t, t ∈ comp_titles c →
           t ∈ titles_info
           ∧ ∃ n, n ∈ owned ∧ py_str (number t) = py_str n)
     ∧ ((∀ n, n ∈ owned → ∃ z, n = PInt z) →
        ∀ n t, n ∈ owned → t ∈ titles_info →
               py_str (number t) = py_str n →
               ∃ t', t' ∈ comp_titles c ∧ py_str (number t') = py_str n))
  ∧ (owned ≠ [] →
     (∀ t n, t ∈ titles_info → n ∈ owned → py_str (number t) ≠ py_str n) →
     comp_titles c = take 10 titles_info).
Proof.
  intros owned c. split; [apply analyze_composition_calls|].
  subst c. rewrite analyze_composition_titles. fold owned.
  split.
  - intros Hsome.
    destruct owned as [|o owned'] eqn:Ho.
    { destruct Hsome as (_ & n & _ & Hn & _). by apply elem_of_nil in Hn. }
    split.
    + by apply relevant_titles_sound.
    + intros Hint. by apply relevant_titles_complete.
  - intros Hne Hno. destruct owned as [|o owned'] eqn:Ho; [done|].
    by apply relevant_titles_fallback.
Qed.

(** The Health Bureau owns titles 42 and 1, both in the catalog: its
    composition processes exactly these two. *)
Lemma composition_scope_witness :
  (∃ t n,
     t ∈ sample_titles
     ∧ n ∈ default []
             (PyDict.get (create_agency_title_mapping sample_agencies)
                "Health Bureau")
     ∧ py_str (number t) = py_str n)
  ∧ map number
      (comp_titles
         (analyze_composition sample_library default_config sample_network
            sample_agencies sample_titles "Health Bureau" (mk_date 2025 1 1)
            empty_world))
    ≡ₚ [PInt 1; PInt 42]
  ∧ ∀ t,
      t ∈ comp_titles
            (analyze_composition sample_library default_config sample_network
               sample_agencies sample_titles "Health Bureau"
               (mk_date 2025 1 1) empty_world) →
      t ∈ sample_titles
      ∧ ∃ n,
          n ∈ default []
                (PyDict.get (create_agency_title_mapping sample_agencies)
                   "Health Bureau")
          ∧ py_str (number t) = py_str n.
Proof.
  assert (Hsome :
            ∃ t n,
              t ∈ sample_titles
              ∧ n ∈ default []
                      (PyDict.get
                         (create_agency_title_mapping sample_agencies)
                         "Health Bureau")
              ∧ py_str (number t) = py_str n).
  { exists {| number := PInt 1; title_name := "General Provisions";
              latest_amended_on := mk_date 2024 6 1; reserved := false |},
      (PInt 1).
    split; [left|]. split; [|reflexivity].
    vm_compute. right. left. }
  split; [exact Hsome|]. split; [vm_compute; apply perm_swap|].
  exact (proj1 (proj1 (proj2 (composition_scope sample_library default_config
                                sample_network sample_agencies sample_titles
                                "Health Bureau" (mk_date 2025 1 1)
                                empty_world))
                  Hsome)).
Defined.

(** C7 as stated fails: the Board owns title 99 only, which is not in the
    catalog; its composition falls back to the first ten catalog titles
    and fetches and counts titles the Board does not own. *)
Lemma composition_scope_counterexample :
  PyDict.get (create_agency_title_mapping sample_agencies) "Board"
  = Some [PInt 99]
  ∧ comp_titles
      (analyze_composition sample_library default_config sample_network
         sample_agencies sample_titles "Board" (mk_date 2025 1 1)
         empty_world)
    = sample_titles
  ∧ map (λ call, (number (fc_title call), fc_date call))
      (calls
         (comp_run
            (analyze_composition sample_library default_config sample_network
               sample_agencies sample_titles "Board" (mk_date 2025 1 1)
               empty_world)))
    = [(PInt 1, "2024-06-01"); (PInt 26, "2025-01-01");
       (PInt 27, "2025-01-01"); (PInt 28, "2025-01-01");
       (PInt 30, "2025-01-01"); (PInt 42, "2025-01-01")]
  ∧ title_word_counts
      (comp_run
         (analyze_composition sample_library default_config sample_network
            sample_agencies sample_titles "Board" (mk_date 2025 1 1)
            empty_world))
    = [(PInt 1, 2%nat); (PInt 26, 1%nat); (PInt 27, 1%nat); (PInt 28, 1%nat);
       (PInt 30, 0%nat)].
Proof. repeat split; vm_compute; reflexivity. Qed.

(** ** Composition percentages (C9) *)

Lemma analyze_composition_data lib cfg net agencies titles_info selected
    target w :
  let c :=
    analyze_composition lib cfg net agencies titles_info selected target w in
  has_data c = true →
  total_words c = list_sum (PyDict.values (title_word_counts (comp_run c)))
  ∧ composition_df c
    = merge_sort by_percentage_desc
        (composition_data titles_info (title_word_counts (comp_run c))
           (total_words c)).
Proof.
  unfold analyze_composition.
  destruct (default [] _) as [|o owned]; simpl; [done|].
  destruct (title_word_counts _) as [|item counts] eqn:Hc; simpl; [done|].
  intros _. by rewrite Hc.
Qed.

(** What binary64 makes of two shares: a third of 100 is rounded to the
    float nearest 33.33, and 23 words out of 160, whose exact share is
    14.375, come out as 14.374999999999998 and are rounded down to the
    float nearest 14.37. *)
Example percentage_binary64 :
  round2 (percentage 1 3) = int_true_div 3333 100
  ∧ percentage 23 160 = S754_finite false 8092405580431359 (-49)
  ∧ (float_value (percentage 23 160) < 14375 # 1000)%Q
  ∧ round2 (percentage 23 160) = int_true_div 1437 100.
Proof. repeat split; vm_compute; reflexivity. Qed.

Lemma Qsum_Permutation (l l' : list Q) : l ≡ₚ l' → (Qsum l == Qsum l')%Q.
Proof.
  induction 1 as [|x l l' _ IH|x y l|l l' l'' _ IH1 _ IH2]; simpl.
  - reflexivity.
  - by rewrite IH.
  - ring.
  - by rewrite IH1.
Qed.

Lemma Qsum_shares (T : Q) (counts : list (pyval * nat)) :
  ¬ (T == 0)%Q →
  (Qsum (map (λ item : pyval * nat, inject_Z (Z.of_nat item.2) / T * 100)
           counts)
   == inject_Z (Z.of_nat (list_sum (PyDict.values counts))) / T * 100)%Q.
Proof.
  intros HT. unfold PyDict.values.
  induction counts as [|[t wc] counts IH]; simpl.
  - field. done.
  - rewrite IH, Nat2Z.inj_add, inject_Z_plus. field. done.
Qed.

Lemma Qsum_map_ext {A} (f g : A → Q) (l : list A) :
  (∀ x, x ∈ l → (f x == g x)%Q) → (Qsum (map f l) == Qsum (map g l))%Q.
Proof.
  induction l as [|x l IH]; intros Hfg; simpl; [reflexivity|].
  rewrite (Hfg x) by left. rewrite IH; [reflexivity|].
  intros y Hy. apply Hfg. by right.
Qed.

(** C9, as the code has it.  In a composition run that obtained at least
    one count, the agency total is the sum of the obtained counts only;
    the table has one row per obtained count, whose Percentage is the
    float [round((wc / total) * 100, 2)], computed in binary64, when the
    total is positive, and 0 when the total is 0.  The column sums to 100
    exactly when the total is positive and no row is rounded, that is,
    when every stored Percentage is the exact share of its title; nothing
    else makes it sum to 100, as each row is rounded to two decimals on
    its own. *)
Theorem composition_percentages lib cfg net agencies titles_info selected
    target w
    (Hdata :
       has_data
         (analyze_composition lib cfg net agencies titles_info selected
            target w) = true) :
  let c :=
    analyze_composition lib cfg net agencies titles_info selected target w in
  let counts := title_word_counts (comp_run c) in
  total_words c = list_sum (PyDict.values counts)
  ∧ map (λ row, (row_title_number row, row_word_count row)) (composition_df c)
    ≡ₚ counts
  ∧ (∀ row, row ∈ composition_df c →
        row_percentage row
        = round2
            (if (0 <? total_words c)%nat
             then float_mul
                    (int_true_div (Z.of_nat (row_word_count row))
                       (Z.of_nat (total_words c)))
                    (float_of_int 100)
             else float_zero))
  ∧ ((0 < total_words c)%nat →
     (∀ row, row ∈ composition_df c →
        (float_value (row_percentage row)
         == inject_Z (Z.of_nat (row_word_count row))
            / inject_Z (Z.of_nat (total_words c)) * 100)%Q) →
     (Qsum (map (λ row, float_value (row_percentage row)) (composition_df c))
      == 100)%Q)
  ∧ (total_words c = 0%nat →
     ∀ row, row ∈ composition_df c → row_percentage row = float_zero).
Proof.
  intros c counts.
  destruct (analyze_composition_data lib cfg net agencies titles_info
              selected target w Hdata) as [Htotal Hdf].
  fold c in Htotal, Hdf. fold counts in Htotal, Hdf.
  assert (Hperm : composition_df c
                  ≡ₚ composition_data titles_info counts (total_words c))
    by (rewrite Hdf; apply merge_sort_Permutation).
  assert (Hrows : ∀ row, row ∈ composition_df c →
            row_percentage row
            = round2 (percentage (row_word_count row) (total_words c))).
  { intros row Hrow. rewrite Hperm in Hrow. unfold composition_data in Hrow.
    apply list_elem_of_fmap in Hrow as (item & -> & _). done. }
  assert (Hcounts : map (λ row, (row_title_number row, row_word_count row))
                      (composition_df c) ≡ₚ counts).
  { rewrite Hperm. unfold composition_data. rewrite map_map. simpl.
    clear. induction counts as [|[t wc] counts IH]; simpl; [done|].
    by constructor. }
  split; [done|]. split; [done|]. split; [exact Hrows|]. split.
  - intros Hpos Hexact.
    rewrite (Qsum_map_ext _
               (λ row, inject_Z (Z.of_nat (row_word_count row))
                       / inject_Z (Z.of_nat (total_words c)) * 100)%Q)
      by exact Hexact.
    assert (HT : ¬ (inject_Z (Z.of_nat (total_words c)) == 0)%Q).
    { intros H. unfold Qeq in H. simpl in H. lia. }
    assert (Hmap : map (λ row, inject_Z (Z.of_nat (row_word_count row))
                               / inject_Z (Z.of_nat (total_words c)) * 100)%Q
                     (composition_df c)
                   ≡ₚ map (λ item : pyval * nat,
                             inject_Z (Z.of_nat item.2)
                             / inject_Z (Z.of_nat (total_words c)) * 100)%Q
                        counts).
    { rewrite <- Hcounts, map_map. done. }
    rewrite (Qsum_Permutation _ _ Hmap), Qsum_shares by done.
    rewrite <- Htotal. field. done.
  - intros Hzero row Hrow. rewrite (Hrows row Hrow).
    unfold percentage. by rewrite Hzero.
Qed.

(** The Tax Office owns three titles of one word each; the total is 3.
    Without skipping, the Health Bureau owns title 42 with 3 words and
    title 1 with 2 words: the shares 60 and 40 are floats, no row is
    rounded and the column sums to 100. *)
Lemma composition_percentages_witness :
  has_data
    (analyze_composition sample_library default_config sample_network
       sample_agencies sample_titles "Tax Office" (mk_date 2025 1 1)
       empty_world) = true
  ∧ total_words
      (analyze_composition sample_library default_config sample_network
         sample_agencies sample_titles "Tax Office" (mk_date 2025 1 1)
         empty_world)
    = list_sum
        (PyDict.values
           (title_word_counts
              (comp_run
                 (analyze_composition sample_library default_config
                    sample_network sample_agencies sample_titles "Tax Office"
                    (mk_date 2025 1 1) empty_world))))
  ∧ has_data
      (analyze_composition sample_library no_skip_config sample_network
         sample_agencies sample_titles "Health Bureau" (mk_date 2025 1 1)
         empty_world) = true
  ∧ (Qsum (map (λ row, float_value (row_percentage row))
             (composition_df
                (analyze_composition sample_library no_skip_config
                   sample_network sample_agencies sample_titles
                   "Health Bureau" (mk_date 2025 1 1) empty_world)))
     == 100)%Q.
Proof.
  assert (Hdata :
            has_data
              (analyze_composition sample_library default_config
                 sample_network sample_agencies sample_titles "Tax Office"
                 (mk_date 2025 1 1) empty_world) = true)
    by (vm_compute; reflexivity).
  assert (Hdata' :
            has_data
              (analyze_composition sample_library no_skip_config
                 sample_network sample_agencies sample_titles "Health Bureau"
                 (mk_date 2025 1 1) empty_world) = true)
    by (vm_compute; reflexivity).
  split; [exact Hdata|].
  split.
  { exact (proj1 (composition_percentages sample_library default_config
                    sample_network sample_agencies sample_titles "Tax Office"
                    (mk_date 2025 1 1) empty_world Hdata)). }
  split; [exact Hdata'|].
  destruct (composition_percentages sample_library no_skip_config
              sample_network sample_agencies sample_titles "Health Bureau"
              (mk_date 2025 1 1) empty_world Hdata')
    as (_ & _ & _ & Hsum & _).
  apply Hsum.
  - apply Nat.ltb_lt. vm_compute. reflexivity.
  - apply Forall_forall. vm_compute.
    repeat (constructor; [vm_compute; reflexivity|]). constructor.
Defined.

(** C9 as stated fails.  The Tax Office owns three titles of one word
    each and nothing fails: every Percentage is the float nearest 33.33,
    and the column sums to 99.99 up to the last bits of the three floats,
    a hundredth away from 100.  The Mining Office owns one title whose
    content holds no word: a count of 0 is obtained, nothing fails, the
    total is 0 and the only Percentage is 0. *)
Lemma composition_percentages_counterexample :
  (let c :=
     analyze_composition sample_library default_config sample_network
       sample_agencies sample_titles "Tax Office" (mk_date 2025 1 1)
       empty_world in
   has_data c = true
   ∧ title_fetch_errors (comp_run c) = []
   ∧ title_word_counts (comp_run c)
     = [(PInt 26, 1%nat); (PInt 27, 1%nat); (PInt 28, 1%nat)]
   ∧ map row_percentage (composition_df c)
     = [int_true_div 3333 100; int_true_div 3333 100; int_true_div 3333 100]
   ∧ (Qabs (Qsum (map (λ row, float_value (row_percentage row))
                    (composition_df c))
            - (9999 # 100))
      <= 1 # 1000000000000)%Q
   ∧ ¬ (Qabs (Qsum (map (λ row, float_value (row_percentage row))
                      (composition_df c))
              - 100)
        <= 1 # 1000000)%Q)
  ∧ (let c :=
       analyze_composition sample_library default_config sample_network
         sample_agencies sample_titles "Mining Office" (mk_date 2025 1 1)
         empty_world in
     has_data c = true
     ∧ title_fetch_errors (comp_run c) = []
     ∧ title_word_counts (comp_run c) = [(PInt 30, 0%nat)]
     ∧ map row_percentage (composition_df c) = [float_zero]).
Proof.
  split; cbv zeta; repeat split; try (vm_compute; reflexivity).
  - vm_compute. discriminate.
  - vm_compute. intros H. apply H. reflexivity.
Qed.

(** ** Cache keys of title contents *)

Lemma append_underscore_inj s1 s2 r1 r2 :
  underscore_free s1 = true → underscore_free s2 = true →
  s1 +:+ String "_" r1 = s2 +:+ String "_" r2 → s1 = s2 ∧ r1 = r2.
Proof.
  revert s2. induction s1 as [|c s1 IH]; intros [|c2 s2]; simpl.
  - intros _ _ [= ->]. done.
  - intros _ Hs2 [= <- _]. done.
  - intros Hs1 _ [= -> _]. done.
  - intros Hs1 Hs2 [= -> Heq].
    apply andb_true_iff in Hs1 as [_ Hs1].
    apply andb_true_iff in Hs2 as [_ Hs2].
    destruct (IH s2 Hs1 Hs2 Heq) as [-> ->]. done.
Qed.

Lemma string_of_uint_underscore_free d :
  underscore_free (NilEmpty.string_of_uint d) = true.
Proof. induction d; simpl; done. Qed.

Lemma str_of_int_underscore_free z : underscore_free (str_of_int z) = true.
Proof.
  unfold str_of_int.
  destruct (Z.to_int z) as [d|d]; simpl.
  - destruct d; try done; apply (string_of_uint_underscore_free (_ d)).
  - destruct d; try done; apply (string_of_uint_underscore_free (_ d)).
Qed.

Lemma str_of_int_inj a b : str_of_int a = str_of_int b → a = b.
Proof.
  unfold str_of_int. intros Heq.
  assert (Hnn : ∀ z, Z.to_int z ≠ Decimal.Pos Decimal.Nil
                     ∧ Z.to_int z ≠ Decimal.Neg Decimal.Nil).
  { intros [|p|p]; simpl; split; try done.
    - intros [= H]. by apply DecimalPos.Unsigned.to_uint_nonnil in H.
    - intros [= H]. by apply DecimalPos.Unsigned.to_uint_nonnil in H. }
  apply DecimalZ.to_int_inj.
  assert (Some (Z.to_int a) = Some (Z.to_int b)) as [= ->]; [|done].
  rewrite <- (NilZero.isi (Z.to_int a)), <- (NilZero.isi (Z.to_int b));
    try apply Hnn.
  by rewrite Heq.
Qed.

Lemma title_cache_key_inj a b d d' :
  title_cache_key (PInt a) d = title_cache_key (PInt b) d' → a = b ∧ d = d'.
Proof.
  unfold title_cache_key. simpl. intros [= Heq].
  apply append_underscore_inj in Heq as [Hab ->];
    try apply str_of_int_underscore_free.
  split; [by apply str_of_int_inj | done].
Qed.

(** ** Cache transparency of the snapshot (C5) *)

Section Transparency.
Context (cfg : config) (net : network).
Hypothesis Hcache : cache_results cfg = true.
Hypothesis Hstable : stable net.

Lemma coherent_same_caches w w' :
  content_cache w' = content_cache w →
  agencies_cache w' = agencies_cache w →
  titles_cache w' = titles_cache w →
  coherent cfg net w → coherent cfg net w'.
Proof.
  intros Hc Ha Ht (HA & HT & HC). unfold coherent.
  rewrite Hc, Ha, Ht. done.
Qed.

(** With a stable upstream the content returned by the fetch loop does
    not depend on the session or on the caching switch. *)
Lemma fetch_loop_result_stable fuel url key key' max_retries retries w w' :
  (fetch_loop fuel cfg net url key max_retries retries w).1
  = (fetch_loop fuel (caching_off cfg) net url key' max_retries retries w').1.
Proof.
  destruct Hstable as (_ & _ & Hxml).
  revert retries w w'. induction fuel as [|fuel IH]; intros retries w w';
    simpl; [done|].
  destruct (retries <=? max_retries); [|done].
  rewrite (Hxml (length (requests w)) (length (requests w'))).
  assert (Hretry :
            (if retries + 1 <=? max_retries
             then fetch_loop fuel cfg net url key max_retries (retries + 1)
                    (log_request url w)
             else (None, log_request url w)).1
            = (if retries + 1 <=? max_retries
               then fetch_loop fuel (caching_off cfg) net url key' max_retries
                      (retries + 1) (log_request url w')
               else (None, log_request url w')).1).
  { destruct (retries + 1 <=? max_retries); [apply IH | done]. }
  destruct (get_title_xml net _ url _) as [status content| |msg];
    [|exact Hretry|done].
  destruct (status =? 200); [done|].
  destruct (status =? 504); [exact Hretry|].
  by destruct (status =? 404).
Qed.

(** The fetch loop leaves the cached lists alone, and adds at most the
    content it returns, which is what the upstream serves. *)
Lemma fetch_loop_world fuel url key max_retries retries w :
  let res := fetch_loop fuel cfg net url key max_retries retries w in
  agencies_cache res.2 = agencies_cache w
  ∧ titles_cache res.2 = titles_cache w
  ∧ (content_cache res.2 = content_cache w
     ∨ ∃ content,
         content_cache res.2 = <[key := content]> (content_cache w)
         ∧ ∀ i, get_title_xml net i url (request_timeout cfg)
                = Response 200 content).
Proof.
  destruct Hstable as (_ & _ & Hxml).
  revert retries w. induction fuel as [|fuel IH]; intros retries w; simpl;
    [by auto|].
  destruct (retries <=? max_retries); [|by auto].
  assert (Hretry :
            let res :=
              if retries + 1 <=? max_retries
              then fetch_loop fuel cfg net url key max_retries (retries + 1)
                     (log_request url w)
              else (None, log_request url w) in
            agencies_cache res.2 = agencies_cache w
            ∧ titles_cache res.2 = titles_cache w
            ∧ (content_cache res.2 = content_cache w
               ∨ ∃ content,
                   content_cache res.2 = <[key := content]> (content_cache w)
                   ∧ ∀ i, get_title_xml net i url (request_timeout cfg)
                          = Response 200 content)).
  { destruct (retries + 1 <=? max_retries); [|by auto].
    apply (IH (retries + 1) (log_request url w)). }
  destruct (get_title_xml net _ url _) as [status content| |msg] eqn:Hresp;
    [|exact Hretry|by auto].
  destruct (status =? 200) eqn:H200.
  - apply Z.eqb_eq in H200 as ->. rewrite Hcache. simpl.
    split; [done|]. split; [done|]. right. exists content. split; [done|].
    intros i. rewrite <- Hresp. apply Hxml.
  - destruct (status =? 504); [exact Hretry|].
    destruct (status =? 404); by auto.
Qed.

Lemma fetch_loop_served fuel url key max_retries w content :
  (∀ i, get_title_xml net i url (request_timeout cfg) = Response 200 content) →
  0 <= max_retries →
  (fetch_loop (S fuel) (caching_off cfg) net url key max_retries 0 w).1
  = Some content.
Proof.
  intros Hserved Hmr. simpl.
  destruct (Z.leb_spec 0 max_retries) as [_|?]; [|lia].
  by rewrite Hserved.
Qed.

Lemma get_title_content_transparent z d w w' :
  coherent cfg net w →
  (get_title_content cfg net (PInt z) d 1 false w).1
  = (get_title_content (caching_off cfg) net (PInt z) d 1 true w').1
  ∧ coherent cfg net (get_title_content cfg net (PInt z) d 1 false w).2.
Proof.
  intros Hcoh. pose proof Hcoh as (HA & HT & HC).
  unfold get_title_content, cached. rewrite Hcache.
  change (Z.to_nat (1 + 1)) with 2%nat.
  change (skip_problematic_titles (caching_off cfg))
    with (skip_problematic_titles cfg).
  change (cache_results (caching_off cfg)) with false.
  cbn [negb andb].
  destruct (content_cache w !! title_cache_key (PInt z) d) as [content|]
    eqn:Hlook.
  - split; [|done]. destruct (HC z d content Hlook) as [Hserved Hskip].
    cbn [fst].
    assert (skip_problematic_titles cfg && bool_decide (PInt z ∈ skip_list)
            = false) as ->.
    { destruct (skip_problematic_titles cfg); [|done].
      by rewrite bool_decide_false by auto. }
    symmetry. apply fetch_loop_served; [done | lia].
  - destruct (skip_problematic_titles cfg && bool_decide (PInt z ∈ skip_list))
      eqn:Hskip; [done|].
    split; [apply fetch_loop_result_stable|].
    destruct (fetch_loop_world 2 (title_url (PInt z) d)
                (title_cache_key (PInt z) d) 1 0 w)
      as (Hag & Hti & [Hsame | (content & Hnew & Hserved)]).
    + by apply (coherent_same_caches w).
    + split; [|split].
      * intros agencies. rewrite Hag. apply HA.
      * intros titles. rewrite Hti. apply HT.
      * intros z' d' content'. rewrite Hnew.
        destruct (decide (title_cache_key (PInt z) d
                          = title_cache_key (PInt z') d')) as [Heq | Hne].
        -- rewrite <- Heq, lookup_insert_eq. intros [= <-].
           apply title_cache_key_inj in Heq as [<- <-].
           split; [done|]. intros Hsk. rewrite Hsk in Hskip. simpl in Hskip.
           by apply bool_decide_eq_false in Hskip.
        -- rewrite lookup_insert_ne by done. apply HC.
Qed.

Lemma title_step_transparent lib target t r_on r_off :
  (∃ z, number t = PInt z) →
  title_word_counts r_on = title_word_counts r_off →
  coherent cfg net (run_world r_on) →
  title_word_counts (title_step lib cfg net false target r_on t)
  = title_word_counts (title_step lib (caching_off cfg) net true target r_off t)
  ∧ coherent cfg net (run_world (title_step lib cfg net false target r_on t)).
Proof.
  intros [z Hz] Htwc Hcoh. unfold title_step.
  destruct (reserved t); [done|].
  unfold fetch_title. rewrite Hz. cbn [fst snd run_world].
  destruct (get_title_content_transparent z
              (date_str (use_date target t)) (run_world r_on)
              (run_world r_off) Hcoh) as [Hres Hcoh'].
  rewrite <- Hres.
  destruct (truthy _); simpl; [by rewrite Htwc | done].
Qed.

Lemma title_loop_transparent lib target ts r_on r_off :
  int_numbered ts →
  title_word_counts r_on = title_word_counts r_off →
  coherent cfg net (run_world r_on) →
  title_word_counts (fold_left (title_step lib cfg net false target) ts r_on)
  = title_word_counts
      (fold_left (title_step lib (caching_off cfg) net true target) ts r_off)
  ∧ coherent cfg net
      (run_world (fold_left (title_step lib cfg net false target) ts r_on)).
Proof.
  revert r_on r_off. induction ts as [|t ts IH]; intros r_on r_off Hint Htwc Hcoh;
    [done|].
  simpl.
  destruct (title_step_transparent lib target t r_on r_off) as [Htwc' Hcoh'];
    [apply Hint; left | done | done |].
  apply IH; [|done..]. intros t' Ht'. apply Hint. by right.
Qed.

Lemma get_agencies_transparent w w' :
  coherent cfg net w →
  (get_agencies cfg net false w).1
  = (get_agencies (caching_off cfg) net true w').1
  ∧ coherent cfg net (get_agencies cfg net false w).2.
Proof.
  intros Hcoh. pose proof Hcoh as (HA & HT & HC).
  destruct Hstable as (Hag & _ & _).
  unfold get_agencies, cached. rewrite Hcache.
  change (cache_results (caching_off cfg)) with false.
  change (request_timeout (caching_off cfg)) with (request_timeout cfg).
  cbn [negb andb].
  destruct (agencies_cache w) as [agencies|] eqn:Hlook.
  - split; [|done]. by rewrite (HA agencies eq_refl).
  - rewrite (Hag (length (requests w')) (length (requests w))).
    destruct (get_agencies_json net _ _) as [status agencies| |msg] eqn:Hresp;
      [|split; [done|]; by apply (coherent_same_caches w)..].
    destruct (status =? 200) eqn:H200;
      [|split; [done|]; by apply (coherent_same_caches w)].
    split; [done|]. apply Z.eqb_eq in H200 as ->.
    split; [|split]; simpl; [|done..].
    intros ? [= <-] i. rewrite <- Hresp. apply Hag.
Qed.

Lemma get_titles_transparent w w' :
  coherent cfg net w →
  (get_titles cfg net false w).1
  = (get_titles (caching_off cfg) net true w').1
  ∧ coherent cfg net (get_titles cfg net false w).2.
Proof.
  intros Hcoh. pose proof Hcoh as (HA & HT & HC).
  destruct Hstable as (_ & Hti & _).
  unfold get_titles, cached. rewrite Hcache.
  change (cache_results (caching_off cfg)) with false.
  change (request_timeout (caching_off cfg)) with (request_timeout cfg).
  cbn [negb andb].
  destruct (titles_cache w) as [titles|] eqn:Hlook.
  - split; [|done]. by rewrite (HT titles eq_refl).
  - rewrite (Hti (length (requests w')) (length (requests w))).
    destruct (get_titles_json net _ _) as [status titles| |msg] eqn:Hresp;
      [|split; [done|]; by apply (coherent_same_caches w)..].
    destruct (status =? 200) eqn:H200;
      [|split; [done|]; by apply (coherent_same_caches w)].
    split; [done|]. apply Z.eqb_eq in H200 as ->.
    split; [|split]; simpl; [done| |done].
    intros ? [= <-] i. rewrite <- Hresp. apply Hti.
Qed.

Lemma get_titles_int_numbered w :
  (∀ i titles_info,
      get_titles_json net i (request_timeout cfg) = Response 200 titles_info →
      int_numbered titles_info) →
  coherent cfg net w →
  int_numbered (get_titles cfg net false w).1.
Proof.
  intros Hint (_ & HT & _). unfold get_titles, cached. rewrite Hcache.
  cbn [negb andb].
  destruct (titles_cache w) as [titles|] eqn:Hlook.
  - apply (Hint 0%nat). by apply HT.
  - destruct (get_titles_json net _ _) as [status titles| |msg] eqn:Hresp;
      [|by intros t Ht; apply elem_of_nil in Ht..].
    destruct (status =? 200) eqn:H200;
      [|by intros t Ht; apply elem_of_nil in Ht].
    apply Z.eqb_eq in H200 as ->. by apply (Hint _ _ Hresp).
Qed.

Lemma agency_analysis_transparent lib target max_titles s s' :
  (∀ i titles_info,
      get_titles_json net i (request_timeout cfg) = Response 200 titles_info →
      int_numbered titles_info) →
  coherent cfg net (sess_world s) →
  agency_analysis_key lib cfg max_titles (date_str target) ∉ session_keys s →
  ∃ tables s1 s3,
    agency_analysis lib cfg net target max_titles s
    = Returned (Some tables, s1)
    ∧ agency_analysis lib (caching_off cfg) net target max_titles s'
      = Returned (Some tables, s3)
    ∧ coherent cfg net (sess_world s1)
    ∧ session_keys s1 = session_keys s.
Proof.
  intros Hint Hcoh Hkey. unfold agency_analysis.
  change (cache_results (caching_off cfg)) with false.
  rewrite Hcache, bool_decide_false by done. cbn [negb andb].
  destruct (get_agencies_transparent (sess_world s) (sess_world s') Hcoh)
    as [Hag Hcoh1].
  destruct (get_agencies cfg net false (sess_world s)) as [agencies w1].
  destruct (get_agencies (caching_off cfg) net true (sess_world s'))
    as [agencies' w1'].
  simpl in Hag, Hcoh1. subst agencies'.
  destruct (get_titles_transparent w1 w1' Hcoh1) as [Hti Hcoh2].
  pose proof (get_titles_int_numbered w1 Hint Hcoh1) as Hnum.
  destruct (get_titles cfg net false w1) as [titles_info w2].
  destruct (get_titles (caching_off cfg) net true w1') as [titles_info' w2'].
  simpl in Hti, Hcoh2, Hnum. subst titles_info'.
  unfold snapshot_word_counts. rewrite !for_each_process_title.
  change (cache_results (caching_off cfg)) with false.
  rewrite Hcache. cbn [negb].
  destruct (title_loop_transparent lib target (capped max_titles titles_info)
              (start_run w2) (start_run w2')) as [Htwc Hcoh3];
    [|done|done|].
  { intros t Ht. apply Hnum. unfold capped in Ht.
    by apply (subseteq_take _ titles_info) in Ht. }
  rewrite <- Htwc. do 3 eexists. split; [done|]. split; [done|]. done.
Qed.
End Transparency.

(** C5, as the code has it.  With caching enabled, a stable upstream that
    numbers its titles by integers, and a session that agrees with the
    upstream (every cached list or content is what the upstream serves,
    nothing is cached for a title the configuration skips, the snapshot
    key is not a session key), the snapshot returns tables, returns the
    same tables when it is run again on the session it left, and the run
    with caching disabled, from any session, returns the same tables. *)
Theorem snapshot_cache_transparent lib cfg net target max_titles s s'
    (Hcache : cache_results cfg = true)
    (Hstable : stable net)
    (Hint : ∀ i titles_info,
        get_titles_json net i (request_timeout cfg) = Response 200 titles_info →
        int_numbered titles_info)
    (Hcoh : coherent cfg net (sess_world s))
    (Hkey : agency_analysis_key lib cfg max_titles (date_str target)
            ∉ session_keys s) :
  ∃ tables s1 s2 s3,
    agency_analysis lib cfg net target max_titles s
    = Returned (Some tables, s1)
    ∧ agency_analysis lib cfg net target max_titles s1
      = Returned (Some tables, s2)
    ∧ agency_analysis lib (caching_off cfg) net target max_titles s'
      = Returned (Some tables, s3).
Proof.
  destruct (agency_analysis_transparent cfg net Hcache Hstable lib target
              max_titles s s' Hint Hcoh Hkey)
    as (tables & s1 & s3 & Hrun1 & Hoff & Hcoh1 & Hkeys1).
  rewrite <- Hkeys1 in Hkey.
  destruct (agency_analysis_transparent cfg net Hcache Hstable lib target
              max_titles s1 s' Hint Hcoh1 Hkey)
    as (tables2 & s2 & s3' & Hrun2 & Hoff2 & _ & _).
  rewrite Hoff in Hoff2. injection Hoff2 as <- <-.
  by exists tables, s1, s2, s3.
Qed.

Lemma sample_network_stable : stable sample_network.
Proof. by repeat split. Qed.

Lemma sample_titles_int_numbered i titles_info :
  get_titles_json sample_network i (request_timeout default_config)
  = Response 200 titles_info →
  int_numbered titles_info.
Proof.
  simpl. intros [= <-] t Ht.
  apply list_elem_of_In in Ht. simpl in Ht.
  repeat (destruct Ht as [<- | Ht]; [by eexists|]). done.
Qed.

Lemma empty_world_coherent cfg net : coherent cfg net empty_world.
Proof. by repeat split. Qed.

(** A new session with the sidebar defaults: the snapshot, its repetition
    and the run without caching agree. *)
Lemma snapshot_cache_transparent_witness :
  cache_results default_config = true
  ∧ stable sample_network
  ∧ (∀ i titles_info,
       get_titles_json sample_network i (request_timeout default_config)
       = Response 200 titles_info →
       int_numbered titles_info)
  ∧ coherent default_config sample_network (sess_world new_session)
  ∧ (agency_analysis_key sample_library default_config 50
       (date_str (mk_date 2025 1 1))
     ∉ session_keys new_session)
  ∧ ∃ tables s1 s2 s3,
      agency_analysis sample_library default_config sample_network
        (mk_date 2025 1 1) 50 new_session
      = Returned (Some tables, s1)
      ∧ agency_analysis sample_library default_config sample_network
          (mk_date 2025 1 1) 50 s1
        = Returned (Some tables, s2)
      ∧ agency_analysis sample_library (caching_off default_config)
          sample_network (mk_date 2025 1 1) 50 new_session
        = Returned (Some tables, s3).
Proof.
  assert (Hkey : agency_analysis_key sample_library default_config 50
                   (date_str (mk_date 2025 1 1))
                 ∉ session_keys new_session)
    by apply not_elem_of_empty.
  split; [reflexivity|]. split; [exact sample_network_stable|].
  split; [exact sample_titles_int_numbered|].
  split; [apply empty_world_coherent|]. split; [exact Hkey|].
  exact (snapshot_cache_transparent sample_library default_config
           sample_network (mk_date 2025 1 1) 50 new_session new_session
           eq_refl sample_network_stable sample_titles_int_numbered
           (empty_world_coherent _ _) Hkey).
Defined.

(** C5 as stated fails.  In the session left by a snapshot computed with
    skipping off, the content of title 42 is cached.  With skipping on,
    the run with caching enabled reads it from the cache and counts title
    42, while the run with caching disabled skips the title: same
    parameters, same upstream, different tables. *)
Lemma cache_transparency_counterexample :
  ∃ tables_on s_on tables_off s_off,
    agency_analysis sample_library default_config sample_network
      (mk_date 2025 1 1) 50 session_after_unskipped_run
    = Returned (Some tables_on, s_on)
    ∧ agency_analysis sample_library (caching_off default_config)
        sample_network (mk_date 2025 1 1) 50 session_after_unskipped_run
      = Returned (Some tables_off, s_off)
    ∧ snap_title_word_counts tables_on
      = [(PInt 1, 2%nat); (PInt 26, 1%nat); (PInt 27, 1%nat);
         (PInt 28, 1%nat); (PInt 30, 0%nat); (PInt 42, 3%nat)]
    ∧ snap_title_word_counts tables_off
      = [(PInt 1, 2%nat); (PInt 26, 1%nat); (PInt 27, 1%nat);
         (PInt 28, 1%nat); (PInt 30, 0%nat)]
    ∧ all_agencies_df tables_on
      ≡ₚ [("Tax Office", 3); ("Health Bureau", 2); ("Department of Health", 1);
          ("Archives", 1); ("Mining Office", 0)]
    ∧ all_agencies_df tables_off
      ≡ₚ [("Tax Office", 3); ("Health Bureau", 1); ("Archives", 1);
          ("Mining Office", 0)]
    ∧ tables_on ≠ tables_off.
Proof.
  do 4 eexists.
  split; [vm_compute; reflexivity|].
  split; [vm_compute; reflexivity|].
  repeat (split; [vm_compute; reflexivity|]).
  intros Heq. apply (f_equal snap_title_word_counts) in Heq.
  vm_compute in Heq. discriminate Heq.
Qed.

(** * Further properties *)

(** ** Choice of the retrieval date *)

Lemma date_lt_irrefl a : date_lt a a = false.
Proof.
  unfold date_lt.
  rewrite !Z.ltb_irrefl, !Z.eqb_refl. reflexivity.
Qed.

Lemma date_lt_asym a b : date_lt a b = true → date_lt b a = false.
Proof.
  unfold date_lt. intros H.
  destruct (Z.ltb_spec (year a) (year b)), (Z.ltb_spec (year b) (year a)),
    (Z.eqb_spec (year a) (year b)), (Z.eqb_spec (year b) (year a)),
    (Z.ltb_spec (month a) (month b)), (Z.ltb_spec (month b) (month a)),
    (Z.eqb_spec (month a) (month b)), (Z.eqb_spec (month b) (month a)),
    (Z.ltb_spec (day a) (day b)), (Z.ltb_spec (day b) (day a));
    simpl in *; try done; lia.
Qed.

(** X1 (date selection).  The date a title is requested for is the target
    date or the title's latest amendment date, and it is after neither of
    them: the earlier of the two. *)
Theorem use_date_earliest target t :
  (use_date target t = target ∨ use_date target t = latest_amended_on t)
  ∧ date_lt target (use_date target t) = false
  ∧ date_lt (latest_amended_on t) (use_date target t) = false.
Proof.
  unfold use_date.
  destruct (date_lt (latest_amended_on t) target) eqn:Hlt.
  - split; [by right|]. split; [by apply date_lt_asym | apply date_lt_irrefl].
  - split; [by left|]. split; [apply date_lt_irrefl | done].
Qed.

(** ** Retrieval of a title's content *)

Lemma fetch_loop_effect fuel cfg net url key max_retries retries w :
  let res := fetch_loop fuel cfg net url key max_retries retries w in
  ∃ k : nat,
    (k <= fuel)%nat
    ∧ requests res.2 = requests w ++ replicate k url
    ∧ agencies_cache res.2 = agencies_cache w
    ∧ titles_cache res.2 = titles_cache w
    ∧ content_cache res.2
      = match res.1 with
        | Some content =>
            if cache_results cfg
            then <[key := content]> (content_cache w)
            else content_cache w
        | None => content_cache w
        end.
Proof.
  revert retries w. induction fuel as [|fuel IH]; intros retries w; simpl.
  { exists 0%nat. by rewrite app_nil_r. }
  destruct (retries <=? max_retries);
    [|exists 0%nat; rewrite app_nil_r; repeat split; lia].
  assert (Hone : ∃ k : nat,
            (k <= S fuel)%nat
            ∧ requests (log_request url w) = requests w ++ replicate k url
            ∧ agencies_cache (log_request url w) = agencies_cache w
            ∧ titles_cache (log_request url w) = titles_cache w
            ∧ content_cache (log_request url w) = content_cache w).
  { exists 1%nat. repeat split; lia. }
  assert (Hretry :
            let res :=
              if retries + 1 <=? max_retries
              then fetch_loop fuel cfg net url key max_retries (retries + 1)
                     (log_request url w)
              else (None, log_request url w) in
            ∃ k : nat,
              (k <= S fuel)%nat
              ∧ requests res.2 = requests w ++ replicate k url
              ∧ agencies_cache res.2 = agencies_cache w
              ∧ titles_cache res.2 = titles_cache w
              ∧ content_cache res.2
                = match res.1 with
                  | Some content =>
                      if cache_results cfg
                      then <[key := content]> (content_cache w)
                      else content_cache w
                  | None => content_cache w
                  end).
  { destruct (retries + 1 <=? max_retries); [|exact Hone].
    destruct (IH (retries + 1) (log_request url w))
      as (k & Hk & Hreq & Hag & Hti & Hco).
    exists (S k). split; [lia|]. split; [|done].
    rewrite Hreq. simpl. by rewrite <- app_assoc. }
  destruct (get_title_xml net _ url _) as [status content| |msg];
    [|exact Hretry|exact Hone].
  destruct (status =? 200).
  { exists 1%nat. simpl. split; [lia|]. by destruct (cache_results cfg). }
  destruct (status =? 504); [exact Hretry|].
  destruct (status =? 404); exact Hone.
Qed.

Lemma get_title_content_effect cfg net n d max_retries force_refresh w :
  let res := get_title_content cfg net n d max_retries force_refresh w in
  ∃ k : nat,
    (k <= Z.to_nat (max_retries + 1))%nat
    ∧ requests res.2 = requests w ++ replicate k (title_url n d)
    ∧ agencies_cache res.2 = agencies_cache w
    ∧ titles_cache res.2 = titles_cache w
    ∧ content_cache res.2
      = match res.1 with
        | Some content =>
            if cache_results cfg
            then <[title_cache_key n d := content]> (content_cache w)
            else content_cache w
        | None => content_cache w
        end.
Proof.
  unfold get_title_content, cached.
  destruct (negb force_refresh && cache_results cfg) eqn:Hguard.
  - destruct (content_cache w !! title_cache_key n d) as [content|] eqn:Hlook.
    + exists 0%nat. simpl. rewrite app_nil_r.
      apply andb_true_iff in Hguard as [_ ->].
      split; [lia|]. repeat split. by rewrite insert_id.
    + destruct (skip_problematic_titles cfg && bool_decide (n ∈ skip_list)).
      * exists 0%nat. simpl. rewrite app_nil_r. split; [lia | done].
      * apply fetch_loop_effect.
  - destruct (skip_problematic_titles cfg && bool_decide (n ∈ skip_list)).
    + exists 0%nat. simpl. rewrite app_nil_r. split; [lia | done].
    + apply fetch_loop_effect.
Qed.

(** X2 (bounded retries).  One call of [get_title_content] issues at most
    [max_retries + 1] requests (none when [max_retries] is negative), all
    of them for the URL of its own title and date, whatever the upstream
    answers. *)
Theorem get_title_content_request_bound cfg net n d max_retries force_refresh w :
  ∃ k : nat,
    (k <= Z.to_nat (max_retries + 1))%nat
    ∧ requests
        (get_title_content cfg net n d max_retries force_refresh w).2
      = requests w ++ replicate k (title_url n d).
Proof.
  destruct (get_title_content_effect cfg net n d max_retries force_refresh w)
    as (k & Hk & Hreq & _).
  by exists k.
Qed.

(** X3 (only successes are cached).  [get_title_content] never touches the
    cached agency and title lists.  When it returns [None] the content
    cache is unchanged; when it returns a content, the cache afterwards
    holds exactly that content under the key of the title and date if
    caching is on, and is unchanged if caching is off. *)
Theorem get_title_content_cache_effect cfg net n d max_retries force_refresh w :
  let res := get_title_content cfg net n d max_retries force_refresh w in
  agencies_cache res.2 = agencies_cache w
  ∧ titles_cache res.2 = titles_cache w
  ∧ (res.1 = None → content_cache res.2 = content_cache w)
  ∧ (cache_results cfg = false → content_cache res.2 = content_cache w)
  ∧ (∀ content,
       res.1 = Some content → cache_results cfg = true →
       content_cache res.2
       = <[title_cache_key n d := content]> (content_cache w)).
Proof.
  destruct (get_title_content_effect cfg net n d max_retries force_refresh w)
    as (k & _ & _ & Hag & Hti & Hco).
  cbv zeta. split; [done|]. split; [done|]. split; [|split].
  - intros Hnone. by rewrite Hnone in Hco.
  - intros Hoff. rewrite Hoff in Hco. by destruct (_.1).
  - intros content Hsome Hon. by rewrite Hsome, Hon in Hco.
Qed.

(** X4 (content round trip).  With caching on, once [get_title_content]
    has returned a content, asking again for the same title and date
    without [force_refresh] returns the same content from the session,
    issues no request and leaves the session as it is, whatever the retry
    setting and the skip policy. *)
Theorem get_title_content_round_trip cfg net n d max_retries force_refresh w
    content w'
    (Hcache : cache_results cfg = true)
    (Hfirst : get_title_content cfg net n d max_retries force_refresh w
              = (Some content, w')) :
  ∀ max_retries',
    get_title_content cfg net n d max_retries' false w' = (Some content, w').
Proof.
  intros max_retries'.
  destruct (get_title_content_effect cfg net n d max_retries force_refresh w)
    as (k & _ & _ & _ & _ & Hco).
  rewrite Hfirst, Hcache in Hco. simpl in Hco.
  unfold get_title_content, cached. rewrite Hcache. simpl.
  by rewrite Hco, lookup_insert_eq.
Qed.

Lemma get_title_content_round_trip_witness :
  cache_results no_skip_config = true
  ∧ get_title_content no_skip_config sample_network (PInt 42) "2025-01-01" 1
      false empty_world
    = (Some "<t>public health rules</t>", world_with_title_42)
  ∧ get_title_content no_skip_config sample_network (PInt 42) "2025-01-01" 5
      false world_with_title_42
    = (Some "<t>public health rules</t>", world_with_title_42).
Proof.
  assert (Hfirst :
            get_title_content no_skip_config sample_network (PInt 42)
              "2025-01-01" 1 false empty_world
            = (Some "<t>public health rules</t>", world_with_title_42))
    by (vm_compute; reflexivity).
  split; [reflexivity|]. split; [exact Hfirst|].
  exact (get_title_content_round_trip no_skip_config sample_network (PInt 42)
           "2025-01-01" 1 false empty_world "<t>public health rules</t>"
           world_with_title_42 eq_refl Hfirst 5).
Defined.

Lemma fetch_loop_gives_up cfg net url key max_retries :
  (∀ i, get_title_xml net i url (request_timeout cfg) = TimeoutExc
        ∨ ∃ body, get_title_xml net i url (request_timeout cfg)
                  = Response 504 body) →
  ∀ fuel retries w,
    fuel = Z.to_nat (max_retries + 1 - retries) →
    (fetch_loop fuel cfg net url key max_retries retries w).1 = None
    ∧ requests (fetch_loop fuel cfg net url key max_retries retries w).2
      = requests w ++ replicate fuel url.
Proof.
  intros Hfail. induction fuel as [|fuel IH]; intros retries w Hfuel; simpl.
  { by rewrite app_nil_r. }
  destruct (Z.leb_spec retries max_retries) as [Hle | Hgt]; [|lia].
  assert (Hretry :
            (if retries + 1 <=? max_retries
             then fetch_loop fuel cfg net url key max_retries (retries + 1)
                    (log_request url w)
             else (None, log_request url w)).1 = None
            ∧ requests
                (if retries + 1 <=? max_retries
                 then fetch_loop fuel cfg net url key max_retries
                        (retries + 1) (log_request url w)
                 else (None, log_request url w)).2
              = requests w ++ url :: replicate fuel url).
  { destruct (Z.leb_spec (retries + 1) max_retries) as [Hle' | Hgt'].
    - destruct (IH (retries + 1) (log_request url w)) as [Hnone Hreq]; [lia|].
      split; [done|]. rewrite Hreq. simpl. by rewrite <- app_assoc.
    - replace fuel with 0%nat by lia. done. }
  destruct (Hfail (length (requests w))) as [-> | [body ->]]; [done|].
  simpl. exact Hretry.
Qed.

(** X5 (giving up).  When the session cache does not answer, the title is
    not skipped and every attempt ends in a timeout or a gateway timeout
    (504), [get_title_content] makes exactly [max_retries + 1] requests,
    returns [None] and caches nothing. *)
Theorem get_title_content_gives_up cfg net n d max_retries force_refresh w
    (Hretries : 0 <= max_retries)
    (Hmiss : cached cfg force_refresh
               (content_cache w !! title_cache_key n d) = None)
    (Hskip : skip_problematic_titles cfg && bool_decide (n ∈ skip_list)
             = false)
    (Hfail : ∀ i,
        get_title_xml net i (title_url n d) (request_timeout cfg) = TimeoutExc
        ∨ ∃ body, get_title_xml net i (title_url n d) (request_timeout cfg)
                  = Response 504 body) :
  let res := get_title_content cfg net n d max_retries force_refresh w in
  res.1 = None
  ∧ requests res.2
    = requests w ++ replicate (Z.to_nat (max_retries + 1)) (title_url n d)
  ∧ content_cache res.2 = content_cache w.
Proof.
  cbv zeta.
  destruct (get_title_content_effect cfg net n d max_retries force_refresh w)
    as (_ & _ & _ & _ & _ & Hco).
  revert Hco. unfold get_title_content. rewrite Hmiss, Hskip.
  destruct (fetch_loop_gives_up cfg net (title_url n d) (title_cache_key n d)
              max_retries Hfail (Z.to_nat (max_retries + 1)) 0 w)
    as [Hnone Hreq]; [f_equal; lia|].
  rewrite Hnone. done.
Qed.

Lemma get_title_content_gives_up_witness :
  let res :=
    get_title_content default_config timeout_network (PInt 1) "2024-06-01" 1
      false empty_world in
  res.1 = None
  ∧ requests res.2
    = requests empty_world
      ++ replicate (Z.to_nat (1 + 1)) (title_url (PInt 1) "2024-06-01")
  ∧ content_cache res.2 = content_cache empty_world.
Proof.
  apply (get_title_content_gives_up default_config timeout_network
           (PInt 1) "2024-06-01" 1 false empty_world).
  - lia.
  - reflexivity.
  - reflexivity.
  - intros i. left. reflexivity.
Defined.

(** X6 (no retry on other failures).  When the session cache does not
    answer and the title is not skipped, a first answer that is an
    exception other than a timeout, or a status other than 200 and 504
    (404 for instance), ends the call at once: exactly one request,
    [None], nothing cached. *)
Theorem get_title_content_no_retry cfg net n d max_retries force_refresh w
    (Hretries : 0 <= max_retries)
    (Hmiss : cached cfg force_refresh
               (content_cache w !! title_cache_key n d) = None)
    (Hskip : skip_problematic_titles cfg && bool_decide (n ∈ skip_list)
             = false)
    (Hfail :
       (∃ msg,
          get_title_xml net (length (requests w)) (title_url n d)
            (request_timeout cfg) = OtherExc msg)
       ∨ ∃ status body,
           get_title_xml net (length (requests w)) (title_url n d)
             (request_timeout cfg) = Response status body
           ∧ status ≠ 200 ∧ status ≠ 504) :
  get_title_content cfg net n d max_retries force_refresh w
  = (None, log_request (title_url n d) w).
Proof.
  unfold get_title_content. rewrite Hmiss, Hskip.
  destruct (Z.to_nat (max_retries + 1)) as [|fuel] eqn:Hfuel; [lia|].
  simpl. destruct (Z.leb_spec 0 max_retries) as [_|?]; [|lia].
  destruct Hfail as [[msg ->] | (status & body & -> & H200 & H504)]; [done|].
  destruct (Z.eqb_spec status 200); [done|].
  destruct (Z.eqb_spec status 504); [done|].
  by destruct (status =? 404).
Qed.

(** Title 99 does not exist upstream: one request, then [None]. *)
Lemma get_title_content_no_retry_witness :
  get_title_content default_config sample_network (PInt 99) "2025-01-01" 1
    false empty_world
  = (None, log_request (title_url (PInt 99) "2025-01-01") empty_world).
Proof.
  apply (get_title_content_no_retry default_config sample_network (PInt 99)
           "2025-01-01" 1 false empty_world).
  - lia.
  - reflexivity.
  - reflexivity.
  - right. exists 404, "". split; [vm_compute; reflexivity | split; done].
Defined.

(** ** Retrieval of the agency and title lists *)

(** X7 (list round trip).  With caching on, a list that the upstream
    serves with status 200 is returned and stored, with one request; the
    next call without [force_refresh] returns the same list from the
    session and issues no request.  This holds for [get_agencies] and for
    [get_titles]. *)
Theorem list_fetch_round_trip cfg net force_refresh w
    (Hcache : cache_results cfg = true) :
  (∀ agencies,
     cached cfg force_refresh (agencies_cache w) = None →
     get_agencies_json net (length (requests w)) (request_timeout cfg)
     = Response 200 agencies →
     ∃ w',
       get_agencies cfg net force_refresh w = (agencies, w')
       ∧ requests w'
         = requests w ++ [BASE_URL +:+ "/api/admin/v1/agencies.json"]
       ∧ get_agencies cfg net false w' = (agencies, w'))
  ∧ (∀ titles_info,
       cached cfg force_refresh (titles_cache w) = None →
       get_titles_json net (length (requests w)) (request_timeout cfg)
       = Response 200 titles_info →
       ∃ w',
         get_titles cfg net force_refresh w = (titles_info, w')
         ∧ requests w'
           = requests w ++ [BASE_URL +:+ "/api/versioner/v1/titles.json"]
         ∧ get_titles cfg net false w' = (titles_info, w')).
Proof.
  split.
  - intros agencies Hmiss Hresp. unfold get_agencies at 1.
    rewrite Hmiss, Hresp, Hcache. simpl. eexists. split; [done|].
    split; [done|]. unfold get_agencies, cached. by rewrite Hcache.
  - intros titles_info Hmiss Hresp. unfold get_titles at 1.
    rewrite Hmiss, Hresp, Hcache. simpl. eexists. split; [done|].
    split; [done|]. unfold get_titles, cached. by rewrite Hcache.
Qed.

Lemma list_fetch_round_trip_witness :
  cache_results default_config = true
  ∧ ∃ w',
      get_agencies default_config sample_network false empty_world
      = (sample_agencies, w')
      ∧ requests w'
        = requests empty_world
          ++ [BASE_URL +:+ "/api/admin/v1/agencies.json"]
      ∧ get_agencies default_config sample_network false w'
        = (sample_agencies, w').
Proof.
  split; [reflexivity|].
  exact (proj1 (list_fetch_round_trip default_config sample_network false
                  empty_world eq_refl)
           sample_agencies eq_refl eq_refl).
Defined.

(** X8 (failed list fetches).  When the session does not answer and the
    upstream answers with anything but status 200 (another status, a
    timeout, any exception), [get_agencies] and [get_titles] return the
    empty list, log one request and store nothing, so the failure is not
    remembered. *)
Theorem list_fetch_failure cfg net force_refresh w :
  (cached cfg force_refresh (agencies_cache w) = None →
   (∀ agencies,
      get_agencies_json net (length (requests w)) (request_timeout cfg)
      ≠ Response 200 agencies) →
   get_agencies cfg net force_refresh w
   = ([], log_request (BASE_URL +:+ "/api/admin/v1/agencies.json") w))
  ∧ (cached cfg force_refresh (titles_cache w) = None →
     (∀ titles_info,
        get_titles_json net (length (requests w)) (request_timeout cfg)
        ≠ Response 200 titles_info) →
     get_titles cfg net force_refresh w
     = ([], log_request (BASE_URL +:+ "/api/versioner/v1/titles.json") w)).
Proof.
  split.
  - intros Hmiss Hresp. unfold get_agencies. rewrite Hmiss.
    destruct (get_agencies_json net _ _) as [status agencies| |msg];
      [|done..].
    destruct (Z.eqb_spec status 200) as [-> | _]; [|done].
    by destruct (Hresp agencies).
  - intros Hmiss Hresp. unfold get_titles. rewrite Hmiss.
    destruct (get_titles_json net _ _) as [status titles| |msg];
      [|done..].
    destruct (Z.eqb_spec status 200) as [-> | _]; [|done].
    by destruct (Hresp titles).
Qed.

Lemma list_fetch_failure_witness :
  get_titles default_config timeout_network false empty_world
  = ([], log_request (BASE_URL +:+ "/api/versioner/v1/titles.json")
           empty_world).
Proof.
  apply (proj2 (list_fetch_failure default_config timeout_network false
                  empty_world)).
  - reflexivity.
  - intros titles_info. discriminate.
Defined.

(** ** The calls of a run *)

Lemma title_loop_calls lib cfg net force_refresh target ts r :
  map (λ c, (fc_title c, fc_date c))
    (calls (fold_left (title_step lib cfg net force_refresh target) ts r))
  = map (λ c, (fc_title c, fc_date c)) (calls r)
    ++ map (λ t, (t, date_str (use_date target t)))
         (filter (λ t, reserved t = false) ts).
Proof.
  revert r. induction ts as [|t ts IH]; intros r.
  - simpl. by rewrite app_nil_r.
  - cbn [fold_left]. rewrite IH, filter_cons. unfold title_step.
    destruct (reserved t) eqn:Hres.
    + by rewrite decide_False by done.
    + rewrite decide_True by done.
      assert (Hc : calls
                     (if truthy (fetch_title cfg net force_refresh target t r).1
                      then set_word_count (number t)
                             (word_count_of lib
                                (fetch_title cfg net force_refresh target t r).1)
                             (fetch_title cfg net force_refresh target t r).2
                      else (fetch_title cfg net force_refresh target t r).2)
                   = calls r
                     ++ [{| fc_title := t;
                            fc_date := date_str (use_date target t);
                            fc_result :=
                              (fetch_title cfg net force_refresh target t r).1
                         |}])
        by (by destruct (truthy _)).
      rewrite Hc, map_app. simpl. by rewrite <- app_assoc.
Qed.

Lemma composition_loop_calls lib cfg net target ts r :
  map (λ c, (fc_title c, fc_date c))
    (calls (fold_left (process_title_composition lib cfg net target) ts r))
  = map (λ c, (fc_title c, fc_date c)) (calls r)
    ++ map (λ t, (t, date_str (use_date target t)))
         (filter (λ t, reserved t = false) ts).
Proof.
  revert r. induction ts as [|t ts IH]; intros r.
  - simpl. by rewrite app_nil_r.
  - cbn [fold_left]. rewrite IH, filter_cons, process_title_composition_step.
    destruct (reserved t) eqn:Hres.
    + by rewrite decide_False by done.
    + rewrite decide_True by done. cbv zeta.
      set (res := fetch_title cfg net (negb (cache_results cfg)) target t r).
      assert (Hc : calls
                     (if truthy res.1
                      then set_word_count (number t)
                             (word_count_of lib res.1) res.2
                      else set_fetch_error (number t) "No content received"
                             res.2)
                   = calls r
                     ++ [{| fc_title := t;
                            fc_date := date_str (use_date target t);
                            fc_result := res.1 |}])
        by (by destruct (truthy _)).
      rewrite Hc, map_app. simpl. by rewrite <- app_assoc.
Qed.

Lemma capped_length max_titles (titles_info : list title_info) :
  (length (capped max_titles titles_info) <= max_titles)%nat.
Proof. unfold capped. rewrite length_take. lia. Qed.

(** X9 (one fetch per listed title).  The snapshot and each year of the
    time series call [get_title_content] exactly once for every
    non-reserved title among the first [max_titles] titles of the catalog,
    in catalog order and for that title's retrieval date, and for nothing
    else: at most [max_titles] calls.  The composition does the same for
    the non-reserved titles of its own title list. *)
Theorem one_fetch_per_listed_title lib cfg net agencies titles_info w :
  (∀ target max_titles,
     ∃ r,
       snapshot_word_counts lib cfg net target max_titles titles_info w
       = Returned r
       ∧ map (λ c, (fc_title c, fc_date c)) (calls r)
         = map (λ t, (t, date_str (use_date target t)))
             (filter (λ t, reserved t = false)
                (take max_titles titles_info))
       ∧ (length (calls r) <= max_titles)%nat)
  ∧ (∀ yr max_titles,
       ∃ r,
         year_word_counts lib cfg net yr max_titles titles_info w = Returned r
         ∧ map (λ c, (fc_title c, fc_date c)) (calls r)
           = map (λ t, (t, date_str (use_date (mk_date yr 1 1) t)))
               (filter (λ t, reserved t = false)
                  (take max_titles titles_info))
         ∧ (length (calls r) <= max_titles)%nat)
  ∧ (∀ selected_agency target,
       let c :=
         analyze_composition lib cfg net agencies titles_info selected_agency
           target w in
       map (λ c, (fc_title c, fc_date c)) (calls (comp_run c))
       = map (λ t, (t, date_str (use_date target t)))
           (filter (λ t, reserved t = false) (comp_titles c))).
Proof.
  assert (Hcap : ∀ max_titles,
            capped max_titles titles_info = take max_titles titles_info).
  { intros max_titles. unfold capped.
    destruct (Nat.le_ge_cases max_titles (length titles_info)).
    - by rewrite Nat.min_l.
    - rewrite Nat.min_r by done. by rewrite !take_ge by lia. }
  assert (Hlen : ∀ (r : run) target max_titles,
            map (λ c, (fc_title c, fc_date c)) (calls r)
            = map (λ t, (t, date_str (use_date target t)))
                (filter (λ t, reserved t = false)
                   (take max_titles titles_info)) →
            (length (calls r) <= max_titles)%nat).
  { intros r target max_titles Hmap.
    apply (f_equal length) in Hmap. rewrite !length_map in Hmap.
    rewrite Hmap.
    etransitivity; [apply length_filter|]. rewrite length_take. lia. }
  split; [|split].
  - intros target max_titles. unfold snapshot_word_counts.
    rewrite for_each_process_title. eexists. split; [done|].
    rewrite title_loop_calls, Hcap. simpl. split; [done|].
    apply (Hlen _ target). by rewrite title_loop_calls.
  - intros yr max_titles. unfold year_word_counts.
    rewrite for_each_process_title. eexists. split; [done|].
    rewrite title_loop_calls, Hcap. simpl. split; [done|].
    apply (Hlen _ (mk_date yr 1 1)). by rewrite title_loop_calls.
  - intros selected target. unfold analyze_composition.
    destruct (default [] _) as [|o owned]; [done|].
    cbv zeta.
    match goal with
    | |- context [fold_left ?f ?l ?s] =>
        pose proof (composition_loop_calls lib cfg net target l s) as Hc;
        destruct (title_word_counts (fold_left f l s)); exact Hc
    end.
Qed.

(** ** The error log of the composition *)

Lemma error_log_inv_step lib cfg net target r t :
  error_log_inv r →
  error_log_inv (process_title_composition lib cfg net target r t).
Proof.
  intros [Hkeys Hvals]. rewrite process_title_composition_step.
  destruct (reserved t); [done|]. cbv zeta.
  set (res := fetch_title cfg net (negb (cache_results cfg)) target t r).
  set (c0 := {| fc_title := t; fc_date := date_str (use_date target t);
                fc_result := res.1 |}).
  assert (Hcalls : calls res.2 = calls r ++ [c0]) by done.
  assert (Herr : title_fetch_errors res.2 = title_fetch_errors r) by done.
  destruct (truthy res.1) eqn:Htr.
  - split.
    + intros n. simpl. rewrite Hkeys. split.
      * intros (c & Hc & Hn & Hf). exists c. split; [|done].
        apply elem_of_app. by left.
      * intros (c & Hc & Hn & Hf).
        apply elem_of_app in Hc as [Hc | Hc]; [by exists c|].
        apply list_elem_of_singleton in Hc as ->.
        change (truthy res.1 = false) in Hf. congruence.
    + intros n msg. simpl. apply Hvals.
  - split.
    + intros n. simpl. rewrite PyDictFacts.keys_set, Hkeys. split.
      * intros [-> | (c & Hc & Hn & Hf)].
        -- exists c0. split; [|done]. apply elem_of_app. right. left.
        -- exists c. split; [|done]. apply elem_of_app. by left.
      * intros (c & Hc & Hn & Hf).
        apply elem_of_app in Hc as [Hc | Hc]; [right; by exists c|].
        apply list_elem_of_singleton in Hc as ->. by left.
    + intros n msg. simpl. destruct (decide (number t = n)) as [<- | Hne].
      * rewrite PyDictFacts.get_set_eq. by intros [= <-].
      * rewrite PyDictFacts.get_set_ne by done. apply Hvals.
Qed.

Lemma analyze_composition_error_log lib cfg net agencies titles_info selected
    target w :
  error_log_inv
    (comp_run
       (analyze_composition lib cfg net agencies titles_info selected target w)).
Proof.
  assert (Hstart : error_log_inv (start_run w)).
  { split; simpl.
    - intros n. split.
      + intros Hn. by apply elem_of_nil in Hn.
      + intros (c & Hc & _). by apply elem_of_nil in Hc.
    - intros n msg [=]. }
  unfold analyze_composition.
  destruct (default [] _) as [|o owned]; [done|]. cbv zeta.
  match goal with
  | |- context [fold_left ?f ?l ?s] =>
      assert (Hr : error_log_inv (fold_left f l s));
      [|destruct (title_word_counts (fold_left f l s)); exact Hr]
  end.
  generalize (start_run w) Hstart.
  induction (relevant_titles titles_info (o :: owned)) as [|t ts IH];
    intros r Hr; [done|].
  cbn [fold_left]. apply IH. by apply error_log_inv_step.
Qed.

(** X10 (every fetch is accounted for).  In a composition run, each call
    of [get_title_content] leaves its title either in the word-count map
    (content neither [None] nor empty) or in the error log (otherwise);
    the error log holds only such titles, always with the message
    ["No content received"]. *)
Theorem composition_accounts_for_every_fetch lib cfg net agencies titles_info
    selected_agency target w :
  let r :=
    comp_run
      (analyze_composition lib cfg net agencies titles_info selected_agency
         target w) in
  (∀ call, call ∈ calls r →
     if truthy (fc_result call)
     then number (fc_title call) ∈ PyDict.keys (title_word_counts r)
     else number (fc_title call) ∈ PyDict.keys (title_fetch_errors r))
  ∧ (∀ n, n ∈ PyDict.keys (title_fetch_errors r) →
          ∃ call, call ∈ calls r ∧ number (fc_title call) = n
                  ∧ truthy (fc_result call) = false)
  ∧ (∀ n msg,
       PyDict.get (title_fetch_errors r) n = Some msg →
       msg = "No content received").
Proof.
  intros r.
  destruct (analyze_composition_error_log lib cfg net agencies titles_info
              selected_agency target w) as [Hekeys Hevals].
  destruct (analyze_composition_inv lib cfg net agencies titles_info
              selected_agency target w) as (_ & _ & Hkeys & _).
  fold r in Hekeys, Hevals, Hkeys.
  split; [|split; [|exact Hevals]].
  - intros call Hcall. destruct (truthy (fc_result call)) eqn:Htr.
    + apply Hkeys. by exists call.
    + apply Hekeys. by exists call.
  - intros n Hn. by apply Hekeys.
Qed.

(** ** The years of the time series *)

Lemma keys_set_fresh {V} (d : list (Z * V)) k v :
  k ∉ PyDict.keys d → PyDict.keys (PyDict.set d k v) = PyDict.keys d ++ [k].
Proof.
  unfold PyDict.keys. induction d as [|[k' v'] d IH]; simpl; intros Hk;
    [done|].
  apply not_elem_of_cons in Hk as [Hne Hk].
  rewrite decide_False by done. simpl. by rewrite IH.
Qed.

Lemma over_years_keys lib cfg net idx titles_info max_titles years acc cs w :
  ∃ wcy cs' w',
    over_years lib cfg net idx titles_info max_titles years acc cs w
    = Returned (wcy, cs', w')
    ∧ (NoDup (PyDict.keys acc ++ years) →
       PyDict.keys wcy = PyDict.keys acc ++ years).
Proof.
  revert acc cs w. induction years as [|yr years IH]; intros acc cs w; simpl.
  - exists acc, cs, w. split; [done|]. by rewrite app_nil_r.
  - destruct (year_word_counts_inv lib cfg net yr max_titles titles_info w)
      as (r & -> & _).
    simpl.
    destruct (IH (PyDict.set acc yr
                    (agency_word_counts (title_word_counts r) idx))
                (cs ++ calls r) (run_world r))
      as (wcy & cs' & w' & -> & Hkeys).
    exists wcy, cs', w'. split; [done|]. intros Hnd.
    assert (Hfresh : yr ∉ PyDict.keys acc).
    { apply NoDup_app in Hnd as (_ & Hdisj & _). intros Hin.
      apply (Hdisj yr Hin). left. }
    rewrite Hkeys; rewrite keys_set_fresh by done.
    + by rewrite <- app_assoc.
    + by rewrite <- app_assoc.
Qed.

(** X11 (one entry per year).  For [start_year <= end_year] the years
    analysed are exactly [start_year], ..., [end_year], and
    [calculate_word_counts_over_time] returns a table with exactly one
    entry per year, in that order, whatever the upstream does. *)
Theorem time_series_years lib cfg net agencies titles_info max_titles w
    start_year end_year (Hrange : start_year <= end_year) :
  ∃ years,
    years_to_analyze start_year end_year = Some years
    ∧ (∀ y, y ∈ years ↔ start_year <= y <= end_year)
    ∧ length years = Z.to_nat (end_year - start_year + 1)
    ∧ ∃ word_counts_by_year cs w',
        calculate_word_counts_over_time lib cfg net agencies titles_info
          years max_titles w
        = Returned (word_counts_by_year, cs, w')
        ∧ PyDict.keys word_counts_by_year = years.
Proof.
  exists (seqZ start_year (end_year + 1 - start_year)).
  unfold years_to_analyze.
  destruct (Z.ltb_spec end_year start_year) as [?|_]; [lia|].
  split; [done|]. split; [|split].
  - intros y. rewrite elem_of_seqZ. lia.
  - rewrite length_seqZ. f_equal. lia.
  - unfold calculate_word_counts_over_time.
    destruct (over_years_keys lib cfg net
                (title_to_agencies (create_agency_title_mapping agencies))
                titles_info max_titles
                (seqZ start_year (end_year + 1 - start_year)) [] [] w)
      as (wcy & cs' & w' & Hrun & Hkeys).
    exists wcy, cs', w'. split; [done|].
    apply Hkeys. simpl. apply NoDup_seqZ.
Qed.

Lemma time_series_years_witness :
  2022 <= 2024
  ∧ ∃ years,
      years_to_analyze 2022 2024 = Some years
      ∧ (∀ y, y ∈ years ↔ 2022 <= y <= 2024)
      ∧ length years = Z.to_nat (2024 - 2022 + 1)
      ∧ ∃ word_counts_by_year cs w',
          calculate_word_counts_over_time sample_library default_config
            sample_network sample_agencies sample_titles years 5 empty_world
          = Returned (word_counts_by_year, cs, w')
          ∧ PyDict.keys word_counts_by_year = years.
Proof.
  assert (Hrange : 2022 <= 2024) by lia.
  split; [exact Hrange|].
  exact (time_series_years sample_library default_config sample_network
           sample_agencies sample_titles 5 empty_world 2022 2024 Hrange).
Defined.

(** ** Per-agency totals *)

Lemma agency_word_counts_total_from idx twc ag : ∀ acc,
  (∀ t owners, PyDict.get idx t = Some owners → NoDup owners) →
  Binary64.total_of (fold_left (Binary64.attribute_title idx) twc acc) ag
  = fold_left
      (λ total (item : pyval * nat),
         let owners := default [] (PyDict.get idx item.1) in
         if decide (ag ∈ owners)
         then float_add total (Binary64.count_per_agency item.2 owners)
         else total)
      twc (Binary64.total_of acc ag).
Proof.
  induction twc as [|item twc IH]; intros acc Hidx; [done|].
  cbn [fold_left]. rewrite IH by done.
  by rewrite attribute_title_total by done.
Qed.

(** X12 (an agency's total in closed form).  For an index whose owner
    lists have no repetition, the total attributed to an agency is what
    the float additions give, starting from 0 and in the order of the
    word-count map, of the float [wc / k] of each counted title the agency
    owns with [k - 1] others; titles it does not own leave its total
    untouched, whatever is credited to other agencies in between. *)
Theorem agency_total_closed_form (title_word_counts : list (pyval * nat))
    (idx : list (pyval * list string)) (ag : string)
    (Hidx : ∀ t owners, PyDict.get idx t = Some owners → NoDup owners) :
  Binary64.total_of (Binary64.agency_word_counts title_word_counts idx) ag
  = fold_left
      (λ total (item : pyval * nat),
         let owners := default [] (PyDict.get idx item.1) in
         if decide (ag ∈ owners)
         then float_add total
                (int_true_div (Z.of_nat item.2) (Z.of_nat (length owners)))
         else total)
      title_word_counts float_zero.
Proof.
  unfold Binary64.agency_word_counts.
  by rewrite agency_word_counts_total_from by done.
Qed.

(** Titles 1 (owned by A and B) and 2 (owned by B): B receives 10/2 + 7. *)
Lemma agency_total_closed_form_witness :
  Binary64.total_of
    (Binary64.agency_word_counts [(PInt 1, 10%nat); (PInt 2, 7%nat)]
       [(PInt 1, ["A"; "B"]); (PInt 2, ["B"])])
    "B"
  = float_of_int 12.
Proof.
  rewrite (agency_total_closed_form [(PInt 1, 10%nat); (PInt 2, 7%nat)]
             [(PInt 1, ["A"; "B"]); (PInt 2, ["B"])] "B").
  - vm_compute. reflexivity.
  - intros t owners. simpl.
    repeat case_decide; intros [= <-]; apply (bool_decide_unpack _);
      vm_compute; exact I.
Defined.

(** ** Rows of the per-agency table *)

Lemma credit_keys x owners (acc : list (string * Q)) ag :
  ag ∈ PyDict.keys (credit x owners acc) ↔ ag ∈ PyDict.keys acc ∨ ag ∈ owners.
Proof.
  revert acc. induction owners as [|o owners IH]; intros acc.
  - simpl. split; [by left | intros [?|H]; [done | by apply elem_of_nil in H]].
  - change (credit x (o :: owners) acc)
      with (credit x owners (PyDict.update 0%Q (λ v, (v + x)%Q) acc o)).
    rewrite IH. unfold PyDict.update. rewrite PyDictFacts.keys_set.
    rewrite elem_of_cons. tauto.
Qed.

Lemma credit_nonneg x owners (acc : list (string * Q)) :
  (0 <= x)%Q →
  (∀ k v, PyDict.get acc k = Some v → (0 <= v)%Q) →
  ∀ k v, PyDict.get (credit x owners acc) k = Some v → (0 <= v)%Q.
Proof.
  intros Hx. revert acc. induction owners as [|o owners IH]; intros acc Hacc;
    [done|].
  change (credit x (o :: owners) acc)
    with (credit x owners (PyDict.update 0%Q (λ v, (v + x)%Q) acc o)).
  apply IH. intros k v. unfold PyDict.update.
  destruct (decide (o = k)) as [<- | Hne].
  - rewrite PyDictFacts.get_set_eq. intros [= <-].
    destruct (PyDict.get acc o) as [old|] eqn:Hold; simpl.
    + pose proof (Hacc o old Hold). lra.
    + lra.
  - rewrite PyDictFacts.get_set_ne by done. apply Hacc.
Qed.

Lemma count_per_agency_nonneg wc (owners : list string) :
  (0 <= count_per_agency wc owners)%Q.
Proof.
  unfold count_per_agency. destruct owners as [|o owners].
  - simpl. unfold Qdiv, Qinv. simpl. rewrite Qmult_0_r. apply Qle_refl.
  - apply Qle_shift_div_l.
    + unfold Qlt. simpl. lia.
    + rewrite Qmult_0_l. unfold Qle. simpl. lia.
Qed.

(** X13 (rows of the per-agency table).  An agency has an entry in the
    attribution result exactly when it is an owner of some counted title:
    titles without owners produce no entry, agencies that own no counted
    title are absent.  No total is negative. *)
Theorem agency_word_counts_rows (title_word_counts : list (pyval * nat))
    (idx : list (pyval * list string)) :
  (∀ ag,
     ag ∈ PyDict.keys (agency_word_counts title_word_counts idx)
     ↔ ∃ item,
         item ∈ title_word_counts
         ∧ ag ∈ default [] (PyDict.get idx item.1))
  ∧ (∀ ag total,
       PyDict.get (agency_word_counts title_word_counts idx) ag = Some total →
       (0 <= total)%Q).
Proof.
  unfold agency_word_counts.
  assert (Hgen : ∀ twc acc,
            (∀ ag,
               ag ∈ PyDict.keys (fold_left (attribute_title idx) twc acc)
               ↔ ag ∈ PyDict.keys acc
                 ∨ ∃ item, item ∈ twc
                           ∧ ag ∈ default [] (PyDict.get idx item.1))
            ∧ ((∀ k v, PyDict.get acc k = Some v → (0 <= v)%Q) →
               ∀ k v,
                 PyDict.get (fold_left (attribute_title idx) twc acc) k
                 = Some v →
                 (0 <= v)%Q)).
  { induction twc as [|item twc IH]; intros acc.
    - split; [|done]. intros ag. simpl. split; [by left|].
      intros [?|(item & Hi & _)]; [done | by apply elem_of_nil in Hi].
    - cbn [fold_left]. destruct (IH (attribute_title idx acc item))
        as [IHk IHv].
      assert (Hstep : ∀ ag,
                ag ∈ PyDict.keys (attribute_title idx acc item)
                ↔ ag ∈ PyDict.keys acc
                  ∨ ag ∈ default [] (PyDict.get idx item.1)).
      { intros ag. unfold attribute_title.
        destruct (default [] (PyDict.get idx item.1)) as [|o owners].
        - split; [by left | intros [?|H]; [done | by apply elem_of_nil in H]].
        - apply credit_keys. }
      split.
      + intros ag. rewrite IHk, Hstep. split.
        * intros [[?|?] | (i & Hi & ?)]; [by left | right | right].
          -- exists item. split; [left | done].
          -- exists i. split; [by right | done].
        * intros [? | (i & Hi & ?)]; [by left; left|].
          apply elem_of_cons in Hi as [-> | Hi];
            [left; by right | right; by exists i].
      + intros Hacc. apply IHv. unfold attribute_title.
        destruct (default [] (PyDict.get idx item.1)) as [|o owners];
          [done|].
        apply credit_nonneg; [apply count_per_agency_nonneg | done]. }
  destruct (Hgen title_word_counts []) as [Hk Hv]. split.
  - intros ag. rewrite Hk. split.
    + intros [H | ?]; [by apply elem_of_nil in H | done].
    + by right.
  - apply Hv. intros k v [=].
Qed.

(** ** The ownership index and its inverse *)

Lemma get_Some_elem_of {K V} `{EqDecision K} (d : list (K * V)) k v :
  PyDict.get d k = Some v → (k, v) ∈ d.
Proof.
  induction d as [|[k' v'] d IH]; simpl; [done|].
  destruct (decide (k = k')) as [->|Hne].
  - intros [= ->]. left.
  - intros Hg. right. by apply IH.
Qed.

Lemma add_references_elem nm refs m k t :
  t ∈ default [] (PyDict.get (add_references nm refs m) k)
  ↔ t ∈ default [] (PyDict.get m k)
    ∨ (k = nm ∧ ∃ r, r ∈ refs ∧ ref_title r = Some t).
Proof.
  revert m. induction refs as [|r refs IH]; intros m.
  - simpl. split; [by left|].
    intros [? | (_ & r & Hr & _)]; [done | by apply elem_of_nil in Hr].
  - unfold add_references in *. cbn [fold_left]. rewrite IH.
    destruct (ref_title r) as [t0|] eqn:Hr.
    + unfold PyDict.update. destruct (decide (nm = k)) as [<- | Hne].
      * rewrite PyDictFacts.get_set_eq. cbn [from_option id].
        rewrite set_add_elem. split.
        -- intros [[-> | ?] | (_ & r' & Hr' & Ht)].
           ++ right. split; [done|]. exists r. split; [left | done].
           ++ by left.
           ++ right. split; [done|]. exists r'. split; [by right | done].
        -- intros [? | (_ & r' & Hr' & Ht)]; [left; by right|].
           apply elem_of_cons in Hr' as [-> | Hr'].
           ++ left. left. congruence.
           ++ right. split; [done|]. by exists r'.
      * rewrite PyDictFacts.get_set_ne by done. split.
        -- intros [? | (-> & _)]; [by left | done].
        -- intros [? | (-> & _)]; [by left | done].
    + split.
      * intros [? | (-> & r' & Hr' & Ht)]; [by left|].
        right. split; [done|]. exists r'. split; [by right | done].
      * intros [? | (-> & r' & Hr' & Ht)]; [by left|].
        apply elem_of_cons in Hr' as [-> | Hr']; [congruence|].
        right. split; [done|]. by exists r'.
Qed.

Lemma create_agency_title_mapping_flat agencies :
  create_agency_title_mapping agencies
  = fold_left (λ m a, add_references (name a) (cfr_references a) m)
      (indexed_agencies agencies) [].
Proof.
  unfold create_agency_title_mapping, indexed_agencies.
  generalize (@nil (string * list pyval)).
  induction agencies as [|a agencies IH]; intros m; [done|].
  cbn [fold_left flat_map]. rewrite fold_left_app. cbn [fold_left].
  by rewrite IH.
Qed.

Lemma add_references_fold_elem nm t (l : list agency) : ∀ m,
  t ∈ default []
        (PyDict.get
           (fold_left (λ m a, add_references (name a) (cfr_references a) m)
              l m)
           nm)
  ↔ t ∈ default [] (PyDict.get m nm)
    ∨ ∃ a r, a ∈ l ∧ name a = nm ∧ r ∈ cfr_references a ∧ ref_title r = Some t.
Proof.
  induction l as [|a l IH]; intros m.
  - simpl. split; [by left|].
    intros [? | (a & _ & Ha & _)]; [done | by apply elem_of_nil in Ha].
  - cbn [fold_left]. rewrite IH, add_references_elem. split.
    + intros [[? | (-> & r & Hr & Ht)] | (a' & r & Ha' & ?)].
      * by left.
      * right. exists a, r. split; [left | done].
      * right. exists a', r. split; [by right | done].
    + intros [? | (a' & r & Ha' & Hn & Hr & Ht)]; [left; by left|].
      apply elem_of_cons in Ha' as [-> | Ha'].
      * left. right. split; [done|]. by exists r.
      * right. by exists a', r.
Qed.

Lemma create_agency_title_mapping_elem agencies nm t :
  t ∈ default [] (PyDict.get (create_agency_title_mapping agencies) nm)
  → ∃ a r,
      a ∈ indexed_agencies agencies ∧ name a = nm
      ∧ r ∈ cfr_references a ∧ ref_title r = Some t.
Proof.
  rewrite create_agency_title_mapping_flat, add_references_fold_elem.
  intros [H | ?]; [by apply elem_of_nil in H | done].
Qed.

(** X14 (what the index records).  A title number is recorded under a
    name exactly when some top-level agency or some direct child of a
    top-level agency bears that name and lists the title in its own
    references; agencies that share a name share one entry. *)
Theorem create_agency_title_mapping_entries agencies nm t :
  t ∈ default [] (PyDict.get (create_agency_title_mapping agencies) nm)
  ↔ ∃ a r,
      a ∈ indexed_agencies agencies ∧ name a = nm
      ∧ r ∈ cfr_references a ∧ ref_title r = Some t.
Proof.
  rewrite create_agency_title_mapping_flat, add_references_fold_elem.
  simpl. split.
  - intros [H | ?]; [by apply elem_of_nil in H | done].
  - by right.
Qed.

(** X15 (the reverse mapping is the inverse).  For the index built from
    any agency list, an agency name is among the owners of a title in
    [title_to_agencies] exactly when the title is in that name's set in
    the forward map; every owner is a key of the forward map, and no owner
    list has a repetition. *)
Theorem title_to_agencies_inverse agencies t ag :
  let forward := create_agency_title_mapping agencies in
  let owners := default [] (PyDict.get (title_to_agencies forward) t) in
  (ag ∈ owners ↔ t ∈ default [] (PyDict.get forward ag))
  ∧ (ag ∈ owners → ag ∈ PyDict.keys forward)
  ∧ NoDup owners.
Proof.
  intros forward owners.
  pose proof (create_agency_title_mapping_wf agencies) as Hwf.
  fold forward in Hwf.
  assert (Hown : owners = owners_of forward t)
    by by apply title_to_agencies_owners.
  assert (Hiff : ag ∈ owners ↔ t ∈ default [] (PyDict.get forward ag)).
  { rewrite Hown. unfold owners_of. rewrite list_elem_of_fmap. split.
    - intros ([ag' titles] & -> & Hin).
      apply list_elem_of_filter in Hin as [Ht Hin]. simpl in *.
      by rewrite (PyDictFacts.get_elem_NoDup forward ag' titles (proj1 Hwf) Hin).
    - intros Ht. destruct (PyDict.get forward ag) as [titles|] eqn:Hget;
        [|by apply elem_of_nil in Ht].
      exists (ag, titles). split; [done|].
      apply list_elem_of_filter. split; [done|]. by apply get_Some_elem_of. }
  split; [exact Hiff|]. split.
  - intros Hag. apply Hiff in Hag.
    destruct (PyDict.get forward ag) as [titles|] eqn:Hget;
      [|by apply elem_of_nil in Hag].
    apply get_Some_elem_of in Hget. unfold PyDict.keys.
    apply list_elem_of_fmap. by exists (ag, titles).
  - rewrite Hown. by apply owners_of_NoDup.
Qed.

(** ** The snapshot cache key *)

Lemma underscore_free_app s1 s2 :
  underscore_free (s1 +:+ s2) = underscore_free s1 && underscore_free s2.
Proof.
  induction s1 as [|c s1 IH]; simpl; [done|].
  rewrite IH. by rewrite andb_assoc.
Qed.

Lemma pad2_underscore_free n : underscore_free (pad2 n) = true.
Proof.
  unfold pad2. destruct (n <? 10).
  - rewrite underscore_free_app, str_of_int_underscore_free. done.
  - apply str_of_int_underscore_free.
Qed.

Lemma date_str_underscore_free d : underscore_free (date_str d) = true.
Proof.
  unfold date_str.
  rewrite !underscore_free_app, str_of_int_underscore_free,
    !pad2_underscore_free.
  done.
Qed.

Lemma py_bool_underscore_free b : underscore_free (py_bool b) = true.
Proof. by destruct b. Qed.

(** X16 (the snapshot key tells its parameters apart).  Two snapshot
    requests with the same cache key have the same number of titles, the
    same target date text, the same skip flag, the same timeout and the
    same rendering of the throttle delay. *)
Theorem agency_analysis_key_inj lib cfg cfg' max_titles max_titles' target
    target'
    (Hkey : agency_analysis_key lib cfg max_titles (date_str target)
            = agency_analysis_key lib cfg' max_titles' (date_str target')) :
  max_titles = max_titles'
  ∧ date_str target = date_str target'
  ∧ skip_problematic_titles cfg = skip_problematic_titles cfg'
  ∧ request_timeout cfg = request_timeout cfg'
  ∧ float_repr lib (throttle_delay cfg) = float_repr lib (throttle_delay cfg').
Proof.
  unfold agency_analysis_key in Hkey. simpl in Hkey.
  injection Hkey as Hkey.
  apply append_underscore_inj in Hkey as [Hm Hkey];
    try apply str_of_int_underscore_free.
  apply append_underscore_inj in Hkey as [Hd Hkey];
    try apply date_str_underscore_free.
  apply append_underscore_inj in Hkey as [Hs Hkey];
    try apply py_bool_underscore_free.
  apply append_underscore_inj in Hkey as [Ht Hkey];
    try apply str_of_int_underscore_free.
  apply str_of_int_inj, Nat2Z.inj in Hm. apply str_of_int_inj in Ht.
  repeat split; try done.
  by destruct (skip_problematic_titles cfg), (skip_problematic_titles cfg').
Qed.

Lemma agency_analysis_key_inj_witness :
  agency_analysis_key sample_library default_config 5
    (date_str (mk_date 2025 1 1))
  = agency_analysis_key sample_library default_config 5
      (date_str (mk_date 2025 1 1))
  ∧ 5%nat = 5%nat
  ∧ date_str (mk_date 2025 1 1) = date_str (mk_date 2025 1 1).
Proof.
  split; [reflexivity|].
  destruct (agency_analysis_key_inj sample_library default_config
              default_config 5 5 (mk_date 2025 1 1) (mk_date 2025 1 1)
              eq_refl) as (Hm & Hd & _).
  split; [exact Hm | exact Hd].
Defined.

(** ** Agency hierarchy *)

Lemma agency_tree_ind (P : agency → Prop)
    (Hnode : ∀ n s r cs, Forall P cs → P (Agency n s r cs)) :
  ∀ a, P a.
Proof.
  fix IH 1. intros [n s r cs]. apply Hnode.
  revert cs. fix IHcs 1.
  intros [|c cs]; constructor; [apply IH | apply IHcs].
Qed.

Lemma elem_of_flat_map {A B} (f : A → list B) (l : list A) (y : B) :
  y ∈ flat_map f l ↔ ∃ x, x ∈ l ∧ y ∈ f x.
Proof.
  induction l as [|x l IH]; simpl.
  - split; [by intros ?%elem_of_nil | by intros (? & ?%elem_of_nil & _)].
  - rewrite elem_of_app, IH. split.
    + intros [Hy | (x' & Hx' & Hy)].
      * exists x. split; [left | done].
      * exists x'. split; [by right | done].
    + intros (x' & Hx' & Hy). apply elem_of_cons in Hx' as [-> | Hx'].
      * by left.
      * right. by exists x'.
Qed.

Lemma flat_map_ext_Forall {A B} (f g : A → list B) (l : list A) :
  Forall (λ x, f x = g x) l → flat_map f l = flat_map g l.
Proof. induction 1 as [|x l Hx _ IH]; simpl; [done | by rewrite Hx, IH]. Qed.

Lemma map_flat_map {A B C} (h : B → C) (f : A → list B) (l : list A) :
  map h (flat_map f l) = flat_map (λ x, map h (f x)) l.
Proof.
  induction l as [|x l IH]; simpl; [done|]. by rewrite map_app, IH.
Qed.

Lemma length_flat_map {A B} (f : A → list B) (l : list A) :
  length (flat_map f l) = foldr Nat.add 0%nat (map (λ x, length (f x)) l).
Proof.
  induction l as [|x l IH]; simpl; [done|]. by rewrite length_app, IH.
Qed.

Lemma fold_left_append {A B} (f : list B → A → list B) (g : A → list B)
    (l : list A) :
  Forall (λ x, ∀ acc, f acc x = acc ++ g x) l →
  ∀ acc, fold_left f l acc = acc ++ flat_map g l.
Proof.
  induction 1 as [|x l Hx _ IH]; intros acc; simpl.
  - by rewrite app_nil_r.
  - by rewrite Hx, IH, app_assoc.
Qed.

Lemma fold_left_append2 {A B C}
    (f : list B * list C → A → list B * list C)
    (g1 : A → list B) (g2 : A → list C) (l : list A) :
  Forall (λ x, ∀ st, f st x = (st.1 ++ g1 x, st.2 ++ g2 x)) l →
  ∀ st, fold_left f l st = (st.1 ++ flat_map g1 l, st.2 ++ flat_map g2 l).
Proof.
  induction 1 as [|x l Hx _ IH]; intros [ns es]; simpl.
  - by rewrite !app_nil_r.
  - rewrite Hx, IH. simpl. by rewrite !app_assoc.
Qed.

Lemma extract_process_agency_closed short_name a :
  ∀ parent st,
    extract_process_agency short_name a parent st
    = (st.1 ++ map (hierarchy_node_of short_name) (agency_subtree a),
       st.2 ++ hierarchy_edges_of parent a).
Proof.
  induction a as [n s r cs IH] using agency_tree_ind. intros parent st.
  cbn [extract_process_agency agency_subtree hierarchy_edges_of children slug].
  rewrite (fold_left_append2 _
             (λ c, map (hierarchy_node_of short_name) (agency_subtree c))
             (hierarchy_edges_of (Some s)) cs).
  - cbn [fst snd map]. rewrite map_flat_map, <- !app_assoc. simpl.
    f_equal.
    destruct parent as [p|]; [destruct (decide (p = ""))|]; simpl;
      by rewrite <- ?app_assoc.
  - eapply Forall_impl; [exact IH|]. intros c Hc st'. apply Hc.
Qed.

Lemma extract_agency_hierarchy_closed short_name agencies :
  extract_agency_hierarchy short_name agencies
  = (map (hierarchy_node_of short_name) (agency_forest agencies),
     flat_map (hierarchy_edges_of None) agencies).
Proof.
  unfold extract_agency_hierarchy, agency_forest.
  rewrite (fold_left_append2 _
             (λ c, map (hierarchy_node_of short_name) (agency_subtree c))
             (hierarchy_edges_of None) agencies).
  - simpl. by rewrite map_flat_map.
  - apply Forall_forall. intros a _ st. apply extract_process_agency_closed.
Qed.

Lemma collect_agency_names_of_subtree a :
  collect_agency_names_of a = map name (agency_subtree a).
Proof.
  induction a as [n s r cs IH] using agency_tree_ind.
  cbn [collect_agency_names_of agency_subtree children name map].
  f_equal. rewrite map_flat_map. by apply flat_map_ext_Forall.
Qed.

Lemma collect_agency_names_forest agencies :
  collect_agency_names agencies = map name (agency_forest agencies).
Proof.
  unfold collect_agency_names, agency_forest. rewrite map_flat_map.
  apply flat_map_ext_Forall, Forall_forall. intros a _.
  apply collect_agency_names_of_subtree.
Qed.

(** X17 (one node per agency).  [extract_agency_hierarchy] emits exactly
    one node for every agency of the response at any depth, parents before
    their children; the node names are the names that
    [collect_agency_names] offers, in the same order, and a node is flagged
    as a parent exactly when its agency has at least one child. *)
Theorem extract_agency_hierarchy_nodes short_name agencies :
  let nodes := (extract_agency_hierarchy short_name agencies).1 in
  nodes = map (hierarchy_node_of short_name) (agency_forest agencies)
  ∧ map node_name nodes = collect_agency_names agencies
  ∧ Forall2 (λ node a, node_id node = slug a
                       ∧ (node_is_parent node = true ↔ children a ≠ []))
      nodes (agency_forest agencies).
Proof.
  intros nodes. unfold nodes.
  rewrite extract_agency_hierarchy_closed. cbn [fst].
  split; [done|]. split.
  - rewrite collect_agency_names_forest, map_map. done.
  - apply Forall2_fmap_l, Forall_Forall2_diag, Forall_forall.
    intros a _. split; [done|]. simpl.
    rewrite bool_decide_eq_true. destruct (children a); simpl; [|split; [done|lia]].
    split; [lia|done].
Qed.

Lemma hierarchy_edges_of_elem a :
  ∀ parent e,
    e ∈ hierarchy_edges_of parent a
    ↔ (∃ p, parent = Some p ∧ p ≠ "" ∧ e = (p, slug a))
      ∨ (∃ b ch, b ∈ agency_subtree a ∧ ch ∈ children b
                 ∧ slug b ≠ "" ∧ e = (slug b, slug ch)).
Proof.
  induction a as [n s r cs IH] using agency_tree_ind. intros parent e.
  cbn [hierarchy_edges_of agency_subtree children slug].
  rewrite elem_of_app, elem_of_flat_map.
  rewrite Forall_forall in IH. split.
  - intros [He | (c & Hc & He)].
    + left. destruct parent as [p|]; [|by apply elem_of_nil in He].
      destruct (decide (p = "")); [by apply elem_of_nil in He|].
      apply list_elem_of_singleton in He. by exists p.
    + right. apply (IH c Hc) in He as [(p & [= <-] & Hp & ->) | (b & ch & Hb & Hch & Hs & ->)].
      * exists (Agency n s r cs), c. split; [left|done].
      * exists b, ch. split; [|done]. right.
        apply elem_of_flat_map. by exists c.
  - intros [(p & -> & Hp & ->) | (b & ch & Hb & Hch & Hs & ->)].
    + left. destruct (decide (p = "")); [done|]. left.
    + right. apply elem_of_cons in Hb as [-> | Hb].
      * exists ch. split; [done|]. apply (IH ch Hch). left. by exists s.
      * apply elem_of_flat_map in Hb as (c & Hc & Hb). exists c.
        split; [done|]. apply (IH c Hc). right. by exists b, ch.
Qed.

Lemma flat_map_length_le {A B C} (f : A → list B) (g : A → list C)
    (l : list A) :
  Forall (λ x, (length (f x) ≤ length (g x))%nat) l →
  (length (flat_map f l) ≤ length (flat_map g l))%nat.
Proof.
  induction 1 as [|x l Hx _ IH]; simpl; [done|]. rewrite !length_app. lia.
Qed.

Lemma flat_map_length_eq {A B C} (f : A → list B) (g : A → list C)
    (l : list A) :
  Forall (λ x, length (f x) = length (g x)) l →
  length (flat_map f l) = length (flat_map g l).
Proof.
  induction 1 as [|x l Hx _ IH]; simpl; [done|]. rewrite !length_app. lia.
Qed.

Lemma hierarchy_edges_of_length a :
  ∀ p, (length (hierarchy_edges_of (Some p) a)
        ≤ length (agency_subtree a))%nat.
Proof.
  induction a as [n s r cs IH] using agency_tree_ind. intros p.
  cbn [hierarchy_edges_of agency_subtree children slug].
  rewrite length_app. cbn [length].
  assert (length (flat_map (hierarchy_edges_of (Some s)) cs)
          ≤ length (flat_map agency_subtree cs))%nat as Hle.
  { apply flat_map_length_le. eapply Forall_impl; [exact IH|]. naive_solver. }
  destruct (decide (p = "")); simpl; lia.
Qed.

Lemma hierarchy_edges_of_length_eq a :
  Forall (λ b, children b ≠ [] → slug b ≠ "") (agency_subtree a) →
  ∀ p, p ≠ "" →
    length (hierarchy_edges_of (Some p) a) = length (agency_subtree a).
Proof.
  induction a as [n s r cs IH] using agency_tree_ind. intros Hslug p Hp.
  cbn [hierarchy_edges_of agency_subtree children slug] in *.
  apply Forall_cons in Hslug as [Hs Hsub]. cbn [children slug] in Hs.
  rewrite length_app. destruct (decide (p = "")); [done|]. cbn [length].
  f_equal. destruct cs as [|c cs]; [done|].
  apply flat_map_length_eq. rewrite Forall_forall in IH, Hsub.
  apply Forall_forall. intros c' Hc'. apply (IH c' Hc'); [|by apply Hs].
  apply Forall_forall. intros b Hb. apply Hsub.
  apply elem_of_flat_map. by exists c'.
Qed.

(** X18 (the edges are the parent links).  A pair is an edge of
    [extract_agency_hierarchy] exactly when it joins the slug of some
    agency of the response, at any depth, to the slug of one of its
    children and the parent's slug is not empty; top-level agencies have
    no incoming edge, so edges and top-level agencies together never
    outnumber the nodes. *)
Theorem extract_agency_hierarchy_edges short_name agencies :
  let result := extract_agency_hierarchy short_name agencies in
  (∀ p c,
     (p, c) ∈ result.2
     ↔ p ≠ "" ∧ ∃ a ch, a ∈ agency_forest agencies ∧ ch ∈ children a
                        ∧ slug a = p ∧ slug ch = c)
  ∧ (length result.2 + length agencies ≤ length result.1)%nat.
Proof.
  intros result. unfold result. clear result.
  rewrite extract_agency_hierarchy_closed. cbn [fst snd]. split.
  - intros p c. rewrite elem_of_flat_map. split.
    + intros (a & Ha & He).
      apply hierarchy_edges_of_elem in He
        as [(? & [=] & _) | (b & ch & Hb & Hch & Hs & [= -> ->])].
      split; [done|]. exists b, ch. split; [|done].
      apply elem_of_flat_map. by exists a.
    + intros (Hp & a & ch & Ha & Hch & <- & <-).
      apply elem_of_flat_map in Ha as (top & Htop & Ha).
      exists top. split; [done|]. apply hierarchy_edges_of_elem. right.
      by exists a, ch.
  - rewrite length_map. unfold agency_forest.
    induction agencies as [|[n s r cs] agencies IH]; [done|].
    cbn [flat_map hierarchy_edges_of agency_subtree children slug length
         app].
    rewrite !length_app. cbn [length].
    assert (length (flat_map (hierarchy_edges_of (Some s)) cs)
            ≤ length (flat_map agency_subtree cs))%nat as Hle.
    { apply flat_map_length_le, Forall_forall. intros c _.
      apply hierarchy_edges_of_length. }
    lia.
Qed.

(** X19 (the hierarchy is a forest).  When every agency that has children
    has a non-empty slug, each agency below the top level has exactly one
    incoming edge: the number of edges plus the number of top-level
    agencies is the number of nodes. *)
Theorem extract_agency_hierarchy_forest short_name agencies
    (Hslug : Forall (λ a, children a ≠ [] → slug a ≠ "")
               (agency_forest agencies)) :
  let result := extract_agency_hierarchy short_name agencies in
  (length result.2 + length agencies = length result.1)%nat.
Proof.
  intros result. unfold result. clear result.
  rewrite extract_agency_hierarchy_closed. cbn [fst snd].
  rewrite length_map. unfold agency_forest in *.
  induction agencies as [|[n s r cs] agencies IH]; [done|].
  cbn [flat_map] in Hslug. apply Forall_app in Hslug as [Ha Hrest].
  specialize (IH Hrest).
  cbn [flat_map hierarchy_edges_of agency_subtree children slug length app]
    in *.
  rewrite !length_app. cbn [length].
  apply Forall_cons in Ha as [Hs Hsub]. cbn [children slug] in Hs.
  assert (length (flat_map (hierarchy_edges_of (Some s)) cs)
          = length (flat_map agency_subtree cs)) as Heq.
  { destruct cs as [|c cs]; [done|].
    apply flat_map_length_eq. rewrite Forall_forall in Hsub.
    apply Forall_forall. intros c' Hc'.
    apply hierarchy_edges_of_length_eq; [|by apply Hs].
    apply Forall_forall. intros b Hb. apply Hsub.
    apply elem_of_flat_map. by exists c'. }
  lia.
Qed.

Lemma extract_agency_hierarchy_forest_witness :
  let result := extract_agency_hierarchy (λ _, "") three_levels in
  (length result.2 + length three_levels = length result.1)%nat.
Proof.
  apply (extract_agency_hierarchy_forest (λ _, "") three_levels).
  repeat constructor; done.
Defined.

Lemma filter_flat_map {A B} (P : B → Prop) `{∀ x, Decision (P x)}
    (f : A → list B) (l : list A) :
  filter P (flat_map f l) = flat_map (λ x, filter P (f x)) l.
Proof.
  induction l as [|x l IH]; simpl; [done|]. by rewrite filter_app, IH.
Qed.

Lemma find_parent_agencies_in_closed a :
  ∀ acc,
    find_parent_agencies_in a acc
    = acc ++ filter (λ b, 0 < length (children b))%nat (agency_subtree a).
Proof.
  induction a as [n s r cs IH] using agency_tree_ind. intros acc.
  cbn [find_parent_agencies_in agency_subtree children].
  destruct cs as [|c cs].
  - simpl. rewrite filter_cons_False; [|simpl; lia].
    by rewrite filter_nil, app_nil_r.
  - rewrite filter_cons_True by (simpl; lia).
    rewrite (fold_left_append _
               (λ c, filter (λ b, 0 < length (children b))%nat
                       (agency_subtree c))).
    + by rewrite filter_flat_map, <- app_assoc.
    + eapply Forall_impl; [exact IH|]. naive_solver.
Qed.

Lemma find_parent_agencies_all_depths_lemma agencies :
  find_parent_agencies agencies
  = filter (λ a, 0 < length (children a))%nat (agency_forest agencies).
Proof.
  unfold find_parent_agencies, agency_forest.
  rewrite (fold_left_append _
             (λ c, filter (λ b, 0 < length (children b))%nat
                     (agency_subtree c))).
  - by rewrite filter_flat_map.
  - apply Forall_forall. intros a _ acc. apply find_parent_agencies_in_closed.
Qed.

(** X20 (the dropdown lists every parent).  [find_parent_agencies]
    returns, parents before children and in the order of the response,
    exactly the agencies that have at least one child, at every depth of
    the hierarchy; the dropdown offers the two fixed labels followed by
    their names. *)
Theorem find_parent_agencies_all_depths agencies :
  find_parent_agencies agencies
  = filter (λ a, 0 < length (children a))%nat (agency_forest agencies)
  ∧ dropdown_options (find_parent_agencies agencies)
    = "All Agencies" :: "Agencies Without Parent"
      :: map name
           (filter (λ a, 0 < length (children a))%nat
              (agency_forest agencies)).
Proof.
  unfold dropdown_options.
  by rewrite find_parent_agencies_all_depths_lemma.
Qed.

Lemma set_add_elem_of {A} `{EqDecision A} (x y : A) s :
  y ∈ set_add x s ↔ y = x ∨ y ∈ s.
Proof.
  unfold set_add. case_decide as Hin.
  - split; [by right | by intros [-> | ?]].
  - rewrite elem_of_app, list_elem_of_singleton. tauto.
Qed.

Lemma set_add_NoDup_of {A} `{EqDecision A} (x : A) s :
  NoDup s → NoDup (set_add x s).
Proof.
  unfold set_add. case_decide as Hin; [done|]. intros Hnd.
  apply NoDup_app. split; [done|]. split; [|apply NoDup_singleton].
  intros y Hy ->%list_elem_of_singleton. done.
Qed.

Lemma add_child_slugs_elem cs : ∀ s0 s,
  s ∈ fold_left (λ s' child, set_add (slug child) s') cs s0
  ↔ s ∈ s0 ∨ ∃ c, c ∈ cs ∧ slug c = s.
Proof.
  induction cs as [|c cs IH]; intros s0 s; simpl.
  - split; [by left | by intros [? | (? & ?%elem_of_nil & _)]].
  - rewrite IH, set_add_elem_of. split.
    + intros [[-> | Hs] | (c' & Hc' & Hs)].
      * right. exists c. split; [left | done].
      * by left.
      * right. exists c'. split; [by right | done].
    + intros [Hs | (c' & Hc' & Hs)]; [by left; right|].
      apply elem_of_cons in Hc' as [-> | Hc'].
      * left. by left.
      * right. by exists c'.
Qed.

Lemma add_child_slugs_NoDup cs : ∀ s0,
  NoDup s0 → NoDup (fold_left (λ s' child, set_add (slug child) s') cs s0).
Proof.
  induction cs as [|c cs IH]; intros s0 Hnd; simpl; [done|].
  by apply IH, set_add_NoDup_of.
Qed.

Lemma all_child_slugs_elem agencies s :
  s ∈ all_child_slugs agencies
  ↔ ∃ a c, a ∈ agencies ∧ c ∈ children a ∧ slug c = s.
Proof.
  unfold all_child_slugs.
  assert (Hgen : ∀ l s0,
            s ∈ fold_left
                  (λ s1 a, fold_left (λ s' child, set_add (slug child) s')
                             (children a) s1) l s0
            ↔ s ∈ s0 ∨ ∃ a c, a ∈ l ∧ c ∈ children a ∧ slug c = s).
  { induction l as [|a l IH]; intros s0; simpl.
    - split; [by left | by intros [? | (? & ? & ?%elem_of_nil & _)]].
    - rewrite IH, add_child_slugs_elem. split.
      + intros [[Hs | (c & Hc & Hs)] | (a' & c & Ha' & Hc & Hs)].
        * by left.
        * right. exists a, c. split; [left | done].
        * right. exists a', c. split; [by right | done].
      + intros [Hs | (a' & c & Ha' & Hc & Hs)]; [by left; left|].
        apply elem_of_cons in Ha' as [-> | Ha'].
        * left. right. by exists c.
        * right. by exists a', c. }
  rewrite Hgen. split; [|by right].
  by intros [?%elem_of_nil | ?].
Qed.

Lemma all_child_slugs_NoDup agencies : NoDup (all_child_slugs agencies).
Proof.
  unfold all_child_slugs. generalize (NoDup_nil_2 (A := string)).
  generalize (@nil string).
  induction agencies as [|a agencies IH]; intros s0 Hnd; simpl; [done|].
  by apply IH, add_child_slugs_NoDup.
Qed.

Lemma find_independent_agencies_in_closed child_slugs a :
  ∀ acc,
    find_independent_agencies_in child_slugs a acc
    = acc ++ filter (λ b, length (children b) = 0%nat
                          ∧ slug b ∉ child_slugs)
               (agency_subtree a).
Proof.
  induction a as [n s r cs IH] using agency_tree_ind. intros acc.
  cbn [find_independent_agencies_in agency_subtree children slug].
  destruct cs as [|c cs].
  - cbn [flat_map]. destruct (decide (s ∈ child_slugs)) as [Hin | Hin].
    + rewrite filter_cons_False by (simpl; tauto).
      by rewrite filter_nil, app_nil_r.
    + by rewrite filter_cons_True by (simpl; tauto).
  - rewrite filter_cons_False by (simpl; intros [? _]; lia).
    rewrite (fold_left_append _
               (λ c, filter (λ b, length (children b) = 0%nat
                                  ∧ slug b ∉ child_slugs)
                       (agency_subtree c))).
    + by rewrite filter_flat_map.
    + eapply Forall_impl; [exact IH|]. naive_solver.
Qed.

(** X21 (who counts as independent).  [all_child_slugs] holds, without
    repetition, the slugs of the direct children of the top-level agencies
    and nothing else.  [find_independent_agencies] returns exactly the
    agencies without children, at any depth, whose slug is not in that
    set: a top-level agency without children is listed unless it shares a
    slug with a direct child, a direct child is never listed, and an
    agency without children further down is listed whenever its slug is
    not also a direct child's. *)
Theorem find_independent_agencies_spec agencies :
  (∀ s, s ∈ all_child_slugs agencies
        ↔ ∃ a c, a ∈ agencies ∧ c ∈ children a ∧ slug c = s)
  ∧ NoDup (all_child_slugs agencies)
  ∧ find_independent_agencies agencies
    = filter (λ a, length (children a) = 0%nat
                   ∧ slug a ∉ all_child_slugs agencies)
        (agency_forest agencies).
Proof.
  split; [apply all_child_slugs_elem|].
  split; [apply all_child_slugs_NoDup|].
  unfold find_independent_agencies, agency_forest.
  rewrite (fold_left_append _
             (λ c, filter (λ b, length (children b) = 0%nat
                                ∧ slug b ∉ all_child_slugs agencies)
                     (agency_subtree c))).
  - by rewrite filter_flat_map.
  - apply Forall_forall. intros a _ acc.
    apply find_independent_agencies_in_closed.
Qed.

(** X22 (what the agency count leaves out).  [total_agencies] counts the
    top-level agencies and their direct children; together with the
    agencies further down it gives the number of nodes of
    [extract_agency_hierarchy], so the displayed total falls short by
    exactly the agencies more than one level below the top. *)
Theorem total_agencies_two_levels short_name agencies :
  total_agencies agencies = length (indexed_agencies agencies)
  ∧ (total_agencies agencies + length (below_children agencies)
     = length (extract_agency_hierarchy short_name agencies).1)%nat.
Proof.
  rewrite extract_agency_hierarchy_closed. cbn [fst]. rewrite length_map.
  unfold total_agencies, indexed_agencies, below_children, agency_forest.
  assert (Hsub : ∀ cs : list agency,
            length (flat_map agency_subtree cs)
            = (length cs
               + length (flat_map (λ c, flat_map agency_subtree (children c))
                           cs))%nat).
  { induction cs as [|[n s r cs'] cs IH]; [done|].
    cbn [flat_map agency_subtree children length app].
    rewrite !length_app, IH. lia. }
  induction agencies as [|[n s r cs] agencies [IH1 IH2]]; [done|].
  cbn [flat_map agency_subtree children length app map foldr] in *.
  rewrite !length_app, Hsub. cbn [length]. split; lia.
Qed.

Lemma sunburst_process_agency_closed a :
  ∀ parent data,
    sunburst_process_agency a parent true data
    = data ++ sunburst_rows_of parent a.
Proof.
  induction a as [n s r cs IH] using agency_tree_ind. intros parent data.
  cbn [sunburst_process_agency sunburst_rows_of children slug negb].
  rewrite (fold_left_append _ (sunburst_rows_of s)).
  - by rewrite <- app_assoc.
  - eapply Forall_impl; [exact IH|]. naive_solver.
Qed.

Lemma sunburst_rows_of_ids a :
  ∀ parent, map row_id (sunburst_rows_of parent a)
            = map slug (agency_subtree a).
Proof.
  induction a as [n s r cs IH] using agency_tree_ind. intros parent.
  cbn [sunburst_rows_of agency_subtree children slug map]. f_equal.
  rewrite !map_flat_map. apply flat_map_ext_Forall.
  eapply Forall_impl; [exact IH|]. naive_solver.
Qed.

Lemma parents_precede_app seen rows1 : ∀ rows2,
  parents_precede seen (rows1 ++ rows2)
  ↔ parents_precede seen rows1
    ∧ parents_precede (seen ++ map row_id rows1) rows2.
Proof.
  revert seen. induction rows1 as [|row rows1 IH]; intros seen rows2; simpl.
  - rewrite app_nil_r. tauto.
  - rewrite IH, <- app_assoc. simpl. tauto.
Qed.

Lemma parents_precede_mono rows : ∀ seen seen',
  seen ⊆ seen' → parents_precede seen rows → parents_precede seen' rows.
Proof.
  induction rows as [|row rows IH]; intros seen seen' Hsub; simpl; [done|].
  intros [Hp Hrest]. split; [by apply Hsub|].
  apply (IH (seen ++ [row_id row])); [|done].
  intros x. rewrite !elem_of_app. intros [?|?]; [left; by apply Hsub | by right].
Qed.

Lemma sunburst_rows_of_precede a :
  ∀ parent seen,
    parent ∈ seen → parents_precede seen (sunburst_rows_of parent a).
Proof.
  induction a as [n s r cs IH] using agency_tree_ind. intros parent seen Hp.
  cbn [sunburst_rows_of parents_precede sunburst_row_of row_parent row_id
       children slug].
  split; [done|].
  assert (Hs : s ∈ seen ++ [s]) by (apply elem_of_app; right; left).
  revert Hs. generalize (seen ++ [s]). clear Hp.
  induction IH as [|c cs Hc _ IHcs]; intros seen' Hs; [done|].
  cbn [flat_map]. apply parents_precede_app. split; [by apply Hc|].
  apply IHcs. apply elem_of_app. by left.
Qed.

(** X23 (the sunburst frame is a tree under the root).  Whatever option is
    selected and whatever lists are passed, the frame of
    [build_sunburst_data] starts with the root row, whose parent is the
    empty string, and the parent of every later row is the id of a row
    before it. *)
Theorem build_sunburst_data_rooted agencies independent_agencies
    parent_agencies selected_option :
  ∃ rows,
    build_sunburst_data agencies independent_agencies parent_agencies
      selected_option
    = sunburst_root :: rows
    ∧ parents_precede ["root"] rows.
Proof.
  unfold build_sunburst_data.
  destruct (decide (selected_option = "All Agencies")) as [_|_];
    [|destruct (decide (selected_option = "Agencies Without Parent"))
        as [_|_]].
  - rewrite (fold_left_append _ (sunburst_rows_of "root")).
    + eexists. split; [reflexivity|].
      generalize (list_elem_of_here "root" []).
      generalize ["root"].
      induction agencies as [|a agencies IH]; intros seen Hroot; [done|].
      cbn [flat_map]. apply parents_precede_app.
      split; [by apply sunburst_rows_of_precede|].
      apply IH, elem_of_app. by left.
    + apply Forall_forall. intros a _ data.
      apply sunburst_process_agency_closed.
  - rewrite (fold_left_append _ (λ a, [sunburst_row_of a "independent"])).
    + eexists. split; [reflexivity|]. simpl. split; [left|].
      assert (Hin : "independent" ∈ ["root"; "independent"])
        by (right; left).
      revert Hin. generalize ["root"; "independent"].
      induction independent_agencies as [|a l IH]; intros seen Hin; [done|].
      simpl. split; [done|]. apply IH, elem_of_app. by left.
    + by apply Forall_forall.
  - destruct (find _ parent_agencies) as [a|].
    + rewrite sunburst_process_agency_closed. eexists.
      split; [reflexivity|]. apply sunburst_rows_of_precede. left.
    + by exists [].
Qed.

(** X24 (what the two fixed options show).  Under "All Agencies" the
    frame has, after the root, one row per node of
    [extract_agency_hierarchy] with the same ids in the same order; under
    "Agencies Without Parent" it has the root, the virtual parent and one
    row per independent agency, each placed directly under the virtual
    parent. *)
Theorem build_sunburst_data_fixed_options short_name agencies
    independent_agencies parent_agencies :
  map row_id
    (build_sunburst_data agencies independent_agencies parent_agencies
       "All Agencies")
  = "root" :: map node_id (extract_agency_hierarchy short_name agencies).1
  ∧ ∃ virtual,
      row_id virtual = "independent" ∧ row_parent virtual = "root"
      ∧ build_sunburst_data agencies independent_agencies parent_agencies
          "Agencies Without Parent"
        = sunburst_root :: virtual
          :: map (λ a, sunburst_row_of a "independent")
               independent_agencies.
Proof.
  unfold build_sunburst_data. split.
  - rewrite decide_True by done.
    rewrite (fold_left_append _ (sunburst_rows_of "root")).
    + rewrite extract_agency_hierarchy_closed. cbn [fst map app].
      f_equal. rewrite map_map, map_flat_map. unfold agency_forest.
      rewrite map_flat_map. apply flat_map_ext_Forall, Forall_forall.
      intros a _. apply sunburst_rows_of_ids.
    + apply Forall_forall. intros a _ data.
      apply sunburst_process_agency_closed.
  - rewrite decide_False by done. rewrite decide_True by done.
    rewrite (fold_left_append _ (λ a, [sunburst_row_of a "independent"]))
      by by apply Forall_forall.
    cbn [app]. eexists. split; [|split]; [| |do 2 f_equal]; [done..|].
    induction independent_agencies as [|a l IH]; [done|].
    simpl. by rewrite <- IH.
Qed.

Lemma find_name_Some (l : list agency) selected a :
  find (λ a, bool_decide (name a = selected)) l = Some a →
  a ∈ l ∧ name a = selected.
Proof.
  induction l as [|b l IH]; simpl; [done|].
  case_bool_decide as Hb.
  - intros [= <-]. split; [left | done].
  - intros Hf. destruct (IH Hf). split; [by right | done].
Qed.

Lemma find_name_is_Some (l : list agency) selected :
  selected ∈ map name l →
  is_Some (find (λ a, bool_decide (name a = selected)) l).
Proof.
  induction l as [|b l IH]; simpl; [by intros ?%elem_of_nil|].
  intros Hin. case_bool_decide as Hb; [done|].
  apply elem_of_cons in Hin as [-> | Hin]; [done | by apply IH].
Qed.

(** X25 (choosing a parent agency).  When the selected option is the name
    of a parent agency found by [find_parent_agencies] and is neither of
    the two fixed labels, the frame shows one agency with that name that
    has children, placed under the root, followed by all agencies below
    it. *)
Theorem build_sunburst_data_selected agencies independent_agencies
    selected_option
    (Hall : selected_option ≠ "All Agencies")
    (Hwithout : selected_option ≠ "Agencies Without Parent")
    (Hoption : selected_option
               ∈ dropdown_options (find_parent_agencies agencies)) :
  ∃ a,
    a ∈ agency_forest agencies ∧ children a ≠ []
    ∧ name a = selected_option
    ∧ build_sunburst_data agencies independent_agencies
        (find_parent_agencies agencies) selected_option
      = sunburst_root :: sunburst_rows_of "root" a
    ∧ map row_id (sunburst_rows_of "root" a) = map slug (agency_subtree a).
Proof.
  unfold dropdown_options in Hoption.
  apply elem_of_app in Hoption as [Hfixed | Hname].
  { apply elem_of_cons in Hfixed as [-> | Hfixed]; [done|].
    by apply list_elem_of_singleton in Hfixed. }
  apply find_name_is_Some in Hname as [a Hfind].
  pose proof (find_name_Some _ _ _ Hfind) as [Hin Hnm].
  rewrite find_parent_agencies_all_depths_lemma in Hin.
  apply list_elem_of_filter in Hin as [Hch Hin].
  exists a. split; [done|]. split; [intros Hnil; rewrite Hnil in Hch; simpl in Hch; lia|].
  split; [done|]. split; [|apply sunburst_rows_of_ids].
  unfold build_sunburst_data. rewrite !decide_False by done.
  rewrite Hfind. by rewrite sunburst_process_agency_closed.
Qed.

Lemma build_sunburst_data_selected_witness :
  ∃ a,
    a ∈ agency_forest three_levels ∧ children a ≠ []
    ∧ name a = "Bureau"
    ∧ build_sunburst_data three_levels []
        (find_parent_agencies three_levels) "Bureau"
      = sunburst_root :: sunburst_rows_of "root" a
    ∧ map row_id (sunburst_rows_of "root" a) = map slug (agency_subtree a).
Proof.
  apply (build_sunburst_data_selected three_levels [] "Bureau");
    [done | done |].
  apply (bool_decide_unpack _). vm_compute. exact I.
Defined.

(** ** Sorted tables *)

#[local] Instance by_count_desc_total : Total by_count_desc.
Proof. intros a b. unfold by_count_desc. lia. Qed.

Lemma SFleb_total (x y : float) :
  float_is_nan x = false → float_is_nan y = false →
  SFleb x y = true ∨ SFleb y x = true.
Proof.
  unfold SFleb.
  destruct x as [sx|sx| |sx mx ex], y as [sy|sy| |sy my ey];
    try done; intros _ _; simpl;
    try (destruct sx; try destruct sy; by eauto).
  change (Pos.compare_cont Eq mx my) with (mx ?= my)%positive.
  change (Pos.compare_cont Eq my mx) with (my ?= mx)%positive.
  rewrite (Z.compare_antisym ex ey), (Pos.compare_antisym mx my).
  destruct sx, sy; try by eauto.
  - destruct (ex ?= ey); simpl; try by eauto.
    destruct (mx ?= my)%positive; simpl; by eauto.
  - destruct (ex ?= ey); simpl; try by eauto.
    destruct (mx ?= my)%positive; simpl; by eauto.
Qed.

#[local] Instance by_percentage_desc_total : Total by_percentage_desc.
Proof.
  intros a b. unfold by_percentage_desc.
  destruct (float_is_nan (row_percentage a)) eqn:Ha; [by right|].
  destruct (float_is_nan (row_percentage b)) eqn:Hb; [by left|].
  simpl. destruct (SFleb_total _ _ Ha Hb); [by right | by left].
Qed.

(** X26 (the snapshot tables).  The three tables of a snapshot are in
    descending order of word count.  The agency table has one row per
    attributed agency, carrying the total truncated to an integer; the
    table of Cabinet-level agencies holds exactly the rows of the agency
    table whose name is a top-level name; the title table has one row per
    counted title. *)
Theorem build_tables_sorted agencies titles_info title_word_counts :
  let t := build_tables agencies titles_info title_word_counts in
  (Sorted by_count_desc (all_agencies_df t)
   ∧ all_agencies_df t
     ≡ₚ map (λ ac : string * Q, (ac.1, Qtrunc ac.2))
          (snap_agency_word_counts t))
  ∧ (Sorted by_count_desc (senior_agencies_df t)
     ∧ ∀ row, row ∈ senior_agencies_df t
              ↔ row ∈ all_agencies_df t ∧ row.1 ∈ map name agencies)
  ∧ (Sorted by_count_desc (title_df t)
     ∧ title_df t
       ≡ₚ map (λ item : pyval * nat,
                 ("Title " +:+ py_str item.1, Z.of_nat item.2))
            title_word_counts).
Proof.
  intros t. unfold t, build_tables. cbn -[merge_sort].
  split; [split; [apply Sorted_merge_sort, _ | apply merge_sort_Permutation]|].
  split; [split; [apply Sorted_merge_sort, _|]
         | split; [apply Sorted_merge_sort, _ | apply merge_sort_Permutation]].
  intros row. rewrite merge_sort_Permutation, list_elem_of_filter. tauto.
Qed.

(** X27 (the composition table).  Whatever the outcome of a composition
    analysis, its table is in descending order of percentage and has
    exactly one row per title of the word-count map; it is empty exactly
    when the analysis reports that it has no data. *)
Theorem composition_df_sorted lib cfg net agencies titles_info
    selected_agency target w :
  let c := analyze_composition lib cfg net agencies titles_info
             selected_agency target w in
  Sorted by_percentage_desc (composition_df c)
  ∧ map row_title_number (composition_df c)
    ≡ₚ PyDict.keys (title_word_counts (comp_run c))
  ∧ (has_data c = false ↔ composition_df c = []).
Proof.
  intros c. unfold c, analyze_composition. clear c.
  destruct (default [] (PyDict.get _ selected_agency)) as [|t0 ts];
    [by repeat split|].
  cbv zeta.
  set (r := fold_left _ _ _).
  destruct (title_word_counts r) as [|item items] eqn:Hwc;
    cbn [composition_df comp_run has_data]; [rewrite Hwc; by repeat split|].
  rewrite Hwc. split; [apply Sorted_merge_sort, _|]. split.
  - rewrite merge_sort_Permutation. unfold composition_data, PyDict.keys.
    by rewrite map_map.
  - split; [done|]. intros Hnil.
    pose proof (merge_sort_Permutation by_percentage_desc
                  (composition_data titles_info (item :: items)
                     (list_sum (PyDict.values (item :: items))))) as Hp.
    rewrite Hnil in Hp. by apply Permutation_nil_cons in Hp.
Qed.

(** ** The rows of the time series *)

Lemma elem_of_set_inv {K V} `{EqDecision K} (d : list (K * V)) k v k' v' :
  (k', v') ∈ PyDict.set d k v → (k', v') ∈ d ∨ (k' = k ∧ v' = v).
Proof.
  induction d as [|[k0 v0] d IH]; simpl.
  - intros [= -> ->]%list_elem_of_singleton. by right.
  - destruct (decide (k = k0)) as [->|Hne].
    + intros [[= -> ->] | Hin]%elem_of_cons; [by right | left; by right].
    + intros [[= -> ->] | Hin]%elem_of_cons; [left; left|].
      destruct (IH Hin) as [? | ?]; [left; by right | by right].
Qed.

Lemma attribute_title_fold_keys idx ag twc : ∀ acc,
  ag ∈ PyDict.keys (fold_left (attribute_title idx) twc acc) →
  ag ∈ PyDict.keys acc
  ∨ ∃ item, item ∈ twc ∧ ag ∈ default [] (PyDict.get idx item.1).
Proof.
  induction twc as [|item twc IH]; intros acc; cbn [fold_left]; [by left|].
  intros [Hacc | (i & Hi & Hag)]%IH.
  - unfold attribute_title in Hacc.
    destruct (default [] (PyDict.get idx item.1)) as [|o owners] eqn:Hown;
      [by left|].
    apply credit_keys in Hacc as [? | Hag]; [by left|].
    right. exists item. split; [left | by rewrite Hown].
  - right. exists i. split; [by right | done].
Qed.

Lemma over_years_entries lib cfg net idx titles_info max_titles years :
  ∀ acc cs w,
  ∃ wcy cs' w',
    over_years lib cfg net idx titles_info max_titles years acc cs w
    = Returned (wcy, cs', w')
    ∧ ∀ y counts,
        (y, counts) ∈ wcy →
        (y, counts) ∈ acc
        ∨ (y ∈ years
           ∧ ∃ r w0,
               run_inv lib cfg net false {| year := y; month := 1; day := 1 |}
                 (λ t, t ∈ titles_info) w0 r
               ∧ counts = agency_word_counts (title_word_counts r) idx).
Proof.
  induction years as [|yr years IH]; intros acc cs w; simpl.
  - exists acc, cs, w. split; [done|]. by left.
  - destruct (year_word_counts_inv lib cfg net yr max_titles titles_info w)
      as (r & -> & Hinv).
    simpl.
    destruct (IH (PyDict.set acc yr
                    (agency_word_counts (title_word_counts r) idx))
                (cs ++ calls r) (run_world r))
      as (wcy & cs' & w' & -> & Hent).
    exists wcy, cs', w'. split; [done|]. intros y counts Hin.
    destruct (Hent y counts Hin) as [Hset | (Hy & Hrun)].
    + apply elem_of_set_inv in Hset as [? | [-> ->]]; [by left|].
      right. split; [left|]. by exists r, w.
    + right. split; [by right | done].
Qed.

(** X28 (who can appear in the time series).  Whatever the upstream does,
    [calculate_word_counts_over_time] returns, and every row of the frame
    plotted from its result belongs to a requested year and to a selected
    agency that is a top-level agency or a direct child of one and lists,
    in its own references, a catalog title that is not reserved.  A
    selected agency further down the hierarchy gets no row. *)
Theorem time_series_rows lib cfg net agencies titles_info years max_titles w
    selected_agencies :
  ∃ word_counts_by_year cs w',
    calculate_word_counts_over_time lib cfg net agencies titles_info years
      max_titles w
    = Returned (word_counts_by_year, cs, w')
    ∧ ∀ y ag n,
        (y, ag, n) ∈ time_df word_counts_by_year selected_agencies →
        ag ∈ selected_agencies ∧ y ∈ years
        ∧ ∃ a r t,
            a ∈ indexed_agencies agencies ∧ name a = ag
            ∧ r ∈ cfr_references a ∧ ref_title r = Some (number t)
            ∧ t ∈ titles_info ∧ reserved t = false.
Proof.
  unfold calculate_word_counts_over_time.
  set (forward := create_agency_title_mapping agencies).
  destruct (over_years_entries lib cfg net (title_to_agencies forward)
              titles_info max_titles years [] [] w)
    as (wcy & cs & w' & Hret & Hent).
  exists wcy, cs, w'. split; [done|]. intros y ag n Hrow.
  unfold time_df in Hrow.
  apply elem_of_flat_map in Hrow as ([y' counts] & Hy & Hrow).
  apply elem_of_flat_map in Hrow as ([ag' total] & Hag & Hrow).
  cbn [fst snd] in Hrow.
  destruct (decide (ag' ∈ selected_agencies)) as [Hsel|];
    [|by apply elem_of_nil in Hrow].
  apply list_elem_of_singleton in Hrow as [= <- <- ->].
  destruct (Hent y counts Hy) as [Hnil | (Hyear & r & w0 & Hinv & ->)];
    [by apply elem_of_nil in Hnil|].
  split; [done|]. split; [done|].
  assert (Hkey : ag ∈ PyDict.keys
                        (agency_word_counts (title_word_counts r)
                           (title_to_agencies forward))).
  { unfold PyDict.keys. apply list_elem_of_fmap. by exists (ag, total). }
  apply attribute_title_fold_keys in Hkey
    as [Hnil | (item & Hitem & Hown)]; [by apply elem_of_nil in Hnil|].
  pose proof (create_agency_title_mapping_wf agencies) as Hwf.
  fold forward in Hwf.
  rewrite (title_to_agencies_owners forward item.1 Hwf) in Hown.
  unfold owners_of in Hown.
  apply list_elem_of_fmap in Hown as ([ag' titles] & -> & Hin).
  apply list_elem_of_filter in Hin as [Ht Hin]. cbn [fst snd] in *.
  assert (Hfw : item.1 ∈ default [] (PyDict.get forward ag')).
  { by rewrite (PyDictFacts.get_elem_NoDup forward ag' titles (proj1 Hwf) Hin). }
  apply create_agency_title_mapping_elem in Hfw
    as (a & ref0 & Ha & Hnm & Href & Htitle).
  destruct Hinv as (Hcalls & _ & Hkeys & _).
  assert (Hk : item.1 ∈ PyDict.keys (title_word_counts r)).
  { unfold PyDict.keys. apply list_elem_of_fmap. by exists item. }
  apply Hkeys in Hk as (c & Hc & Hnum & _).
  destruct (Hcalls c Hc) as (Hlisted & Hres & _).
  exists a, ref0, (fc_title c). rewrite Hnum. done.
Qed.

(** ** The composition cache key *)

Lemma append_underscore_inj_r s1 s2 t1 t2 :
  underscore_free t1 = true → underscore_free t2 = true →
  s1 +:+ String "_" t1 = s2 +:+ String "_" t2 → s1 = s2 ∧ t1 = t2.
Proof.
  intros Ht1 Ht2. revert s2.
  induction s1 as [|c s1 IH]; intros [|c2 s2]; simpl.
  - by intros [= ->].
  - intros [= <- ->]. rewrite underscore_free_app in Ht1. simpl in Ht1.
    by rewrite andb_false_r in Ht1.
  - intros [= -> <-]. rewrite underscore_free_app in Ht2. simpl in Ht2.
    by rewrite andb_false_r in Ht2.
  - intros [= -> Heq]. by destruct (IH s2 Heq) as [-> ->].
Qed.

Lemma append_String_assoc s c t u :
  s +:+ String c (t +:+ u) = (s +:+ String c t) +:+ u.
Proof.
  induction s as [|c' s IH]; [done|].
  change (String c' (s +:+ String c (t +:+ u))
          = String c' ((s +:+ String c t) +:+ u)).
  by rewrite IH.
Qed.

Lemma key_suffix_inj n1 d1 b1 i1 n2 d2 b2 i2 :
  underscore_free d1 = true → underscore_free d2 = true →
  underscore_free b1 = true → underscore_free b2 = true →
  underscore_free i1 = true → underscore_free i2 = true →
  n1 +:+ String "_" (d1 +:+ String "_" (b1 +:+ String "_" i1))
  = n2 +:+ String "_" (d2 +:+ String "_" (b2 +:+ String "_" i2)) →
  n1 = n2 ∧ d1 = d2 ∧ b1 = b2 ∧ i1 = i2.
Proof.
  intros Hd1 Hd2 Hb1 Hb2 Hi1 Hi2 Heq.
  rewrite (append_String_assoc n1 _ d1), (append_String_assoc n2 _ d2) in Heq.
  rewrite (append_String_assoc _ _ b1), (append_String_assoc _ _ b2) in Heq.
  apply append_underscore_inj_r in Heq as [Heq ->]; [|done..].
  apply append_underscore_inj_r in Heq as [Heq ->]; [|done..].
  apply append_underscore_inj_r in Heq as [-> ->]; done.
Qed.

(** X29 (when two composition analyses share a cache entry).  Two
    composition requests have the same cache key exactly when the agency
    names agree once spaces are replaced by underscores, and the date
    text, the skip flag and the timeout agree.  Names that differ only in
    spaces against underscores share an entry, and the throttle delay does
    not enter the key. *)
Theorem agency_composition_key_eq cfg cfg' a b d d' :
  agency_composition_key cfg a (date_str d)
  = agency_composition_key cfg' b (date_str d')
  ↔ replace_spaces a = replace_spaces b
    ∧ date_str d = date_str d'
    ∧ skip_problematic_titles cfg = skip_problematic_titles cfg'
    ∧ request_timeout cfg = request_timeout cfg'.
Proof.
  unfold agency_composition_key. split.
  - intros Hkey. cbn [String.append] in Hkey. injection Hkey as Hkey.
    apply key_suffix_inj in Hkey as (Hn & Hd & Hb & Hi);
      try apply date_str_underscore_free;
      try apply py_bool_underscore_free;
      try apply str_of_int_underscore_free.
    apply str_of_int_inj in Hi. repeat split; try done.
    by destruct (skip_problematic_titles cfg),
         (skip_problematic_titles cfg').
  - by intros (-> & -> & -> & ->).
Qed.
